(** * Morfessor: segmentation tree, optimizer loop and Viterbi decoder

    A shallow embedding of [src/src/morph_node.cc] and
    [src/src/segmentation.cc] together with the properties of the
    natural-language specification that concern them. *)

From Stdlib Require Import ZArith String Ascii List Lia Reals Lra.
From stdpp Require Import gmap strings list fin_maps.

Local Open Scope string_scope.
Local Open Scope Z_scope.

(** ** Outcomes of a call

    A call returns normally, stops on a failed [assert] or an uncaught
    [std::out_of_range], or exhausts the recursion budget of the model
    (the C++ recursion would not return). *)

Inductive outcome (A : Type) : Type :=
  | Ok (a : A)
  | Failed
  | NoFuel.

Arguments Ok {A} a.
Arguments Failed {A}.
Arguments NoFuel {A}.

Definition obind {A B : Type} (x : outcome A) (f : A -> outcome B) : outcome B :=
  match x with
  | Ok a => f a
  | Failed => Failed
  | NoFuel => NoFuel
  end.

Notation "x <- e1 ;; e2" := (obind e1 (fun x => e2))
  (at level 100, e1 at next level, right associativity).

Definition assert (b : bool) : outcome unit :=
  if b then Ok tt else Failed.

(** ** Machine integers *)

(** [size_t] arithmetic is arithmetic modulo 2^64. *)
Definition size_t_wrap (z : Z) : Z := z mod 2 ^ 64.

(** ** Strings *)

Definition str_empty (s : string) : bool :=
  match s with
  | EmptyString => true
  | String _ _ => false
  end.

Definition str_size (s : string) : Z := Z.of_nat (String.length s).

(** [s.substr(pos, n)] for [pos <= s.size()]. *)
Definition substr (s : string) (pos n : nat) : string := String.substring pos n s.

(** [s.substr(pos)]: everything from [pos] on. *)
Definition substr_from (s : string) (pos : nat) : string :=
  String.substring pos (String.length s - pos) s.

(** ** Nodes ([MorphNode], morph_node.cc:430-434) *)

Record MorphNode : Type := mkMorphNode {
  count : Z;
  left_child : string;
  right_child : string
}.

(** [MorphNode::MorphNode(size_t count)]. *)
Definition MorphNode_of (c : Z) : MorphNode :=
  {| count := c; left_child := ""; right_child := "" |}.

(** [MorphNode::MorphNode()] delegates to [MorphNode(0)]. *)
Definition MorphNode_default : MorphNode := MorphNode_of 0.

(** [has_children()] (morph_node.h:33-35): both links are set. *)
Definition has_children (n : MorphNode) : bool :=
  negb (str_empty (left_child n)) && negb (str_empty (right_child n)).

Definition set_count (c : Z) (n : MorphNode) : MorphNode :=
  {| count := c; left_child := left_child n; right_child := right_child n |}.

Definition set_children (l r : string) (n : MorphNode) : MorphNode :=
  {| count := count n; left_child := l; right_child := r |}.

(** ** Floating point

    In the letter table, the string cost and the decoder a [double] is
    idealised as a real number: no rounding, no NaN and no infinities.
    [std::log] and [std::log2] are the real logarithms; they are only
    meaningful on positive arguments (at [0] the C++ functions return
    minus infinity).  The costs that the optimizers add up and compare
    keep the special values (see the doubles below). *)

Definition std_log (x : R) : R := ln x.

Definition std_log2 (x : R) : R := (ln x / ln 2)%R.

(** The comparison [a < b] on doubles, as a boolean. *)
Definition dlt (a b : R) : bool := if Rlt_dec a b then true else false.

(** Conversion of a double to [int]: the fractional part is discarded
    (truncation toward zero). *)
Definition double_to_int (x : R) : Z :=
  if Rle_dec 0 x then Int_part x else (- Int_part (- x))%Z.

(** [int] is the 32-bit two's complement range. *)
Definition int_wrap (z : Z) : Z := (z + 2 ^ 31) mod 2 ^ 32 - 2 ^ 31.

(** [unsigned] arithmetic is arithmetic modulo 2^32. *)
Definition unsigned_wrap (z : Z) : Z := z mod 2 ^ 32.

(** The binomial coefficient computed by
    [boost::math::binomial_coefficient], by Pascal's rule. *)
Fixpoint binomial (n k : nat) : Z :=
  match n, k with
  | _, O => 1
  | O, S _ => 0
  | S n', S k' => binomial n' k' + binomial n' k
  end.

(** ** Doubles with their special values

    The optimizers subtract and compare costs that the source computes
    also where a logarithm meets zero, so a cost keeps the special
    values of IEEE 754 arithmetic: the two infinities and "not a
    number".  Rounding is still idealised away: a finite double is a
    real number, no finite result overflows, and zero has no sign (a
    division by zero takes the sign of the dividend). *)

Inductive double : Type :=
  | Num (x : R)
  | PInf
  | NInf
  | NaN.

(** Conversion of a [size_t] or an [int]. *)
Definition d_of_Z (z : Z) : double := Num (IZR z).

Definition dopp (a : double) : double :=
  match a with
  | Num x => Num (- x)
  | PInf => NInf
  | NInf => PInf
  | NaN => NaN
  end.

Definition dadd (a b : double) : double :=
  match a, b with
  | NaN, _ | _, NaN => NaN
  | Num x, Num y => Num (x + y)
  | PInf, NInf | NInf, PInf => NaN
  | PInf, _ | _, PInf => PInf
  | NInf, _ | _, NInf => NInf
  end.

Definition dsub (a b : double) : double := dadd a (dopp b).

(** The infinity [inf] taken with the sign of [x]; not a number when
    [x] is zero. *)
Definition signed_inf (x : R) (inf : double) : double :=
  if Rlt_dec 0 x then inf
  else if Rlt_dec x 0 then dopp inf
  else NaN.

Definition dmul (a b : double) : double :=
  match a, b with
  | NaN, _ | _, NaN => NaN
  | Num x, Num y => Num (x * y)
  | Num x, PInf | PInf, Num x => signed_inf x PInf
  | Num x, NInf | NInf, Num x => signed_inf x NInf
  | PInf, PInf | NInf, NInf => PInf
  | PInf, NInf | NInf, PInf => NInf
  end.

Definition ddiv (a b : double) : double :=
  match a, b with
  | NaN, _ | _, NaN => NaN
  | Num x, Num y => if Req_dec_T y 0 then signed_inf x PInf else Num (x / y)
  | Num _, PInf | Num _, NInf => Num 0
  | PInf, Num y => if Rlt_dec y 0 then NInf else PInf
  | NInf, Num y => if Rlt_dec y 0 then PInf else NInf
  | _, _ => NaN
  end.

(** [std::log] and [std::log2]: minus infinity at zero, not a number
    below it. *)
Definition d_log (a : double) : double :=
  match a with
  | Num x => if Rlt_dec 0 x then Num (std_log x)
             else if Rlt_dec x 0 then NaN else NInf
  | PInf => PInf
  | NInf | NaN => NaN
  end.

Definition d_log2 (a : double) : double :=
  match a with
  | Num x => if Rlt_dec 0 x then Num (std_log2 x)
             else if Rlt_dec x 0 then NaN else NInf
  | PInf => PInf
  | NInf | NaN => NaN
  end.

(** The comparison [a < b]: false as soon as one side is not a
    number. *)
Definition d_lt (a b : double) : bool :=
  match a, b with
  | NaN, _ | _, NaN => false
  | Num x, Num y => dlt x y
  | _, NInf | PInf, _ => false
  | NInf, _ | _, PInf => true
  end.

(** [a > b] is [b < a]. *)
Definition d_gt (a b : double) : bool := d_lt b a.

(** The order of the numbers and infinities, as a proposition. *)
Definition dless (a b : double) : Prop :=
  match a, b with
  | Num x, Num y => (x < y)%R
  | Num _, PInf | NInf, Num _ | NInf, PInf => True
  | _, _ => False
  end.

Definition is_nan (a : double) : Prop := a = NaN.

(** [a <= b] for two doubles that are numbers or infinities. *)
Definition dleq (a b : double) : Prop :=
  ~ is_nan a /\ ~ is_nan b /\ ~ dless b a.

(** [AlgorithmModes] as used by [LexiconCost] (morph_node.cc:278-303). *)
Inductive AlgorithmModes : Type :=
  | kBaseline
  | kBaselineFreq
  | kBaselineFreqLength
  | kBaselineLength.

Definition AlgorithmModes_eqb (a b : AlgorithmModes) : bool :=
  match a, b with
  | kBaseline, kBaseline
  | kBaselineFreq, kBaselineFreq
  | kBaselineFreqLength, kBaselineFreqLength
  | kBaselineLength, kBaselineLength => true
  | _, _ => false
  end.

(** ** The shape shared by both optimizer loops

    [do { old_cost = new_cost; body; new_cost = cost; }
     while (old_cost - new_cost > threshold);]
    (morph_node.cc:325-337, segmentation.cc:256-267).  [body i] is the
    [i]-th pass over the shuffled keys; reading the cost can throw and
    can fill a cache, so it hands the state on; the result carries the
    number of passes that were run. *)

Section EpochLoop.
Context {St : Type}.
Variable body : nat -> St -> outcome St.
Variable cost : St -> outcome (St * double).
Variable threshold : St -> double.

Fixpoint epoch_loop (fuel i : nat) (new_cost : double) (s : St) : outcome (St * nat) :=
  match fuel with
  | O => NoFuel
  | S fuel' =>
      let old_cost := new_cost in
      s1 <- body i s ;;
      c <- cost s1 ;;
      let s' := c.1 in
      let new_cost := c.2 in
      if d_gt (dsub old_cost new_cost) (threshold s')
      then epoch_loop fuel' (S i) new_cost s'
      else Ok (s', S i)
  end.

(** The state and the cost after [n] passes that start with pass number
    [i], from a state whose cost was [c]. *)
Fixpoint passes (n i : nat) (c : double) (s : St) : outcome (St * double) :=
  match n with
  | O => Ok (s, c)
  | S n' => s1 <- body i s ;; r <- cost s1 ;; passes n' (S i) r.2 r.1
  end.

(** The decrease of pass number [j] (counted from zero) exceeds the
    threshold read after it. *)
Definition pass_exceeds (i : nat) (c : double) (s : St) (j : nat) : Prop :=
  exists before after,
    passes j i c s = Ok before /\ passes (S j) i c s = Ok after
    /\ dless (threshold after.1) (dsub before.2 after.2).

(** Pass number [j] ends in the state [s'] with a decrease that does
    not exceed the threshold: it is at most the threshold, or the
    comparison involves a value that is not a number. *)
Definition pass_settles (i : nat) (c : double) (s : St) (j : nat) (s' : St) : Prop :=
  exists before after,
    passes j i c s = Ok before /\ passes (S j) i c s = Ok after
    /\ after.1 = s'
    /\ (dleq (dsub before.2 after.2) (threshold s')
        \/ is_nan (dsub before.2 after.2) \/ is_nan (threshold s')).
End EpochLoop.

(** Range of split positions tried for a morph of [n] characters:
    [1, ..., n - 1]. *)
Definition split_indices (n : nat) : list nat := seq 1 (n - 1).

(** Every morph followed by one space. *)
Definition spaced (morphs : list string) : string :=
  fold_right (fun m acc => m ++ " " ++ acc) "" morphs.

(** The morphs one after the other. *)
Definition glued (morphs : list string) : string :=
  fold_right String.append "" morphs.


(** Recursion budget of a walk that starts at [key]: in a well-formed
    store every child key is strictly shorter than its parent. *)
Definition depth_budget (key : string) : nat := S (String.length key).

(** ** The segmentation tree of morph_node.cc *)

Module SegmentationTree.

Record t : Type := mk {
  nodes_ : gmap string MorphNode;
  total_morph_tokens_ : Z;
  unique_morph_types_ : Z
}.

(** [SegmentationTree::SegmentationTree()]. *)
Definition empty : t :=
  {| nodes_ := ∅; total_morph_tokens_ := 0; unique_morph_types_ := 0 |}.

Definition with_nodes (m : gmap string MorphNode) (s : t) : t :=
  {| nodes_ := m;
     total_morph_tokens_ := total_morph_tokens_ s;
     unique_morph_types_ := unique_morph_types_ s |}.

Definition with_total (z : Z) (s : t) : t :=
  {| nodes_ := nodes_ s;
     total_morph_tokens_ := z;
     unique_morph_types_ := unique_morph_types_ s |}.

Definition with_unique (z : Z) (s : t) : t :=
  {| nodes_ := nodes_ s;
     total_morph_tokens_ := total_morph_tokens_ s;
     unique_morph_types_ := z |}.

(** [contains] (morph_node.h:86-88). *)
Definition contains (morph : string) (s : t) : bool :=
  bool_decide (is_Some (nodes_ s !! morph)).

(** [nodes_.at(morph)]: throws when the key is absent. *)
Definition at_ (morph : string) (s : t) : outcome MorphNode :=
  match nodes_ s !! morph with
  | Some n => Ok n
  | None => Failed
  end.

(** [nodes_[key]]: a missing key is first inserted with a
    default-constructed node. *)
Definition touch (key : string) (s : t) : t :=
  match nodes_ s !! key with
  | Some _ => s
  | None => with_nodes (<[key := MorphNode_default]> (nodes_ s)) s
  end.

(** Reading through a reference obtained from [nodes_[key]]. *)
Definition deref (key : string) (s : t) : MorphNode :=
  default MorphNode_default (nodes_ s !! key).

(** Modelled from the spec: the counter maintenance of [emplace].  The
    store update is the header's [nodes_.emplace(morph, frequency)]
    (morph_node.h:89-91: nothing happens when the key is present) with
    the node built by [MorphNode(size_t)]; the header under src declares
    neither counter, so the new leaf is accounted for as the data model
    of the specification requires (one more type, [frequency] more
    tokens). *)
Definition emplace (morph : string) (frequency : Z) (s : t) : t :=
  match nodes_ s !! morph with
  | Some _ => s
  | None =>
      {| nodes_ := <[morph := MorphNode_of frequency]> (nodes_ s);
         total_morph_tokens_ := size_t_wrap (total_morph_tokens_ s + frequency);
         unique_morph_types_ := size_t_wrap (unique_morph_types_ s + 1) |}
  end.

(** [IncreaseNodeCount] (morph_node.cc:65-83).  [subtree] is a reference
    into the store, so every read of it after a recursive call sees the
    store as the call left it. *)
Fixpoint IncreaseNodeCount (fuel : nat) (subtree_key : string) (increase : Z)
    (s : t) : outcome t :=
  match fuel with
  | O => NoFuel
  | S fuel' =>
      let s0 := touch subtree_key s in
      s1 <- (if negb (str_empty (left_child (deref subtree_key s0)))
             then IncreaseNodeCount fuel' (left_child (deref subtree_key s0)) increase s0
             else Ok s0) ;;
      s2 <- (if negb (str_empty (right_child (deref subtree_key s1)))
             then IncreaseNodeCount fuel' (right_child (deref subtree_key s1)) increase s1
             else Ok s1) ;;
      let subtree := deref subtree_key s2 in
      let subtree' := set_count (size_t_wrap (count subtree + increase)) subtree in
      let s3 := with_nodes (<[subtree_key := subtree']> (nodes_ s2)) s2 in
      Ok (if negb (has_children subtree')
          then with_total (size_t_wrap (total_morph_tokens_ s3 + increase)) s3
          else s3)
  end.

Definition b2z (b : bool) : Z := if b then 1 else 0.

(** [Split] (morph_node.cc:43-63).  [node] points into the store and is
    read again after each call that may have changed it. *)
Definition Split (morph : string) (left_length : nat) (s : t) : outcome t :=
  _ <- assert (1 <? str_size morph) ;;
  _ <- assert ((0 <? Z.of_nat left_length) && (Z.of_nat left_length <? str_size morph)) ;;
  node <- at_ morph s ;;
  _ <- assert (negb (has_children node)) ;;
  let node1 := set_children (substr morph 0 left_length) (substr_from morph left_length) node in
  let s1 := with_nodes (<[morph := node1]> (nodes_ s)) s in
  let s2 := with_total (size_t_wrap (total_morph_tokens_ s1 - count node1)) s1 in
  s3 <- IncreaseNodeCount (depth_budget morph)
          (left_child (deref morph s2)) (count (deref morph s2)) s2 ;;
  s4 <- IncreaseNodeCount (depth_budget morph)
          (right_child (deref morph s3)) (count (deref morph s3)) s3 ;;
  let node4 := deref morph s4 in
  let s5 := touch (right_child node4) (touch (left_child node4) s4) in
  let node5 := deref morph s5 in
  let gained :=
    -1 + b2z (count (deref (left_child node5) s5) =? count node5)
       + b2z (count (deref (right_child node5) s5) =? count node5) in
  Ok (with_unique (size_t_wrap (unique_morph_types_ s5 + gained)) s5).

(** [RemoveNode] (morph_node.cc:246-276).  [node_to_remove] is a
    reference to the node stored under [remove_key]; its count is read
    after the children were processed. *)
Fixpoint RemoveNode (fuel : nat) (remove_key subtree_key : string) (s : t)
    : outcome t :=
  match fuel with
  | O => NoFuel
  | S fuel' =>
      subtree0 <- at_ subtree_key s ;;
      s1 <- (if negb (str_empty (left_child subtree0))
             then RemoveNode fuel' remove_key (left_child subtree0) s
             else Ok s) ;;
      subtree1 <- at_ subtree_key s1 ;;
      s2 <- (if negb (str_empty (right_child subtree1))
             then RemoveNode fuel' remove_key (right_child subtree1) s1
             else Ok s1) ;;
      node_to_remove <- at_ remove_key s2 ;;
      subtree2 <- at_ subtree_key s2 ;;
      let count_reduction := count node_to_remove in
      let subtree' := set_count (size_t_wrap (count subtree2 - count_reduction)) subtree2 in
      let s3 := with_nodes (<[subtree_key := subtree']> (nodes_ s2)) s2 in
      let s4 := if negb (has_children subtree')
                then with_total (size_t_wrap (total_morph_tokens_ s3 - count_reduction)) s3
                else s3 in
      Ok (if count subtree' =? 0
          then
            let s5 := if negb (has_children subtree')
                      then with_unique (size_t_wrap (unique_morph_types_ s4 - 1)) s4
                      else s4 in
            with_nodes (delete subtree_key (nodes_ s5)) s5
          else s4)
  end.

(** [Remove] (morph_node.h:115-120). *)
Definition Remove (morph : string) (s : t) : outcome t :=
  _ <- assert (contains morph s) ;;
  RemoveNode (depth_budget morph) morph morph s.

(** Count stored under a key, when the key is present. *)
Definition count_of (morph : string) (s : t) : option Z :=
  count <$> nodes_ s !! morph.

(** *** Letter table ([LetterProbabilities], morph_node.cc:133-184) *)

Record letter_tally : Type := mkTally {
  letter_counts : gmap ascii Z;
  total_letters : Z;
  unique_morphs : Z;
  tally_tokens : Z
}.

Definition tally_empty : letter_tally :=
  {| letter_counts := ∅; total_letters := 0; unique_morphs := 0; tally_tokens := 0 |}.

(** One step of [for (auto c : morph_string)]. *)
Definition tally_letter (c : Z) (acc : letter_tally) (ch : ascii) : letter_tally :=
  {| letter_counts := <[ch := default 0 (letter_counts acc !! ch) + c]> (letter_counts acc);
     total_letters := size_t_wrap (total_letters acc + c);
     unique_morphs := unique_morphs acc;
     tally_tokens := tally_tokens acc |}.

(** One step of [for (const auto& iter : nodes_)]. *)
Definition tally_node (acc : letter_tally) (kv : string * MorphNode) : letter_tally :=
  if negb (has_children kv.2)
  then
    let acc1 := {| letter_counts := letter_counts acc;
                   total_letters := total_letters acc;
                   unique_morphs := size_t_wrap (unique_morphs acc + 1);
                   tally_tokens := size_t_wrap (tally_tokens acc + count kv.2) |} in
    fold_left (tally_letter (count kv.2)) (list_ascii_of_string kv.1) acc1
  else acc.

Definition tally (s : t) : letter_tally :=
  fold_left tally_node (map_to_list (nodes_ s)) tally_empty.

Definition end_of_morph : ascii := "#"%char.

Definition LetterProbabilities (include_end_of_string : bool) (s : t)
    : outcome (gmap ascii R) :=
  let acc := tally s in
  _ <- assert (unique_morphs acc =? unique_morph_types_ s) ;;
  _ <- assert (tally_tokens acc =? total_morph_tokens_ s) ;;
  let total_letters :=
    if include_end_of_string
    then size_t_wrap (total_letters acc + tally_tokens acc)
    else total_letters acc in
  let log_total_letters := std_log2 (IZR total_letters) in
  let letter_probabilities : gmap ascii R :=
    (fun n => (log_total_letters - std_log2 (IZR n))%R) <$> letter_counts acc in
  Ok (if include_end_of_string
      then <[end_of_morph := (log_total_letters - std_log2 (IZR (tally_tokens acc)))%R]>
             letter_probabilities
      else letter_probabilities).

(** The sum of the counts held by a table of letter counts. *)
Definition table_total (counts : gmap ascii Z) : Z :=
  map_fold (fun _ n acc => n + acc) 0 counts.

(** The probability mass a table of costs stands for: the sum of
    [2^(-cost)] over its entries. *)
Definition probability_mass (table : gmap ascii R) : R :=
  map_fold (fun _ cost acc => (Rpower 2 (- cost) + acc)%R) 0%R table.

(** *** Implicit frequency cost
    ([ProbabilityFromImplicitFrequencies], morph_node.cc:95-119) *)

(** The operands handed to [std::log2], in the order of the source. *)
Definition log2_operands (s : t) : list Z :=
  let T := total_morph_tokens_ s in
  let U := unique_morph_types_ s in
  if T <? 100
  then [binomial (Z.to_nat (unsigned_wrap (size_t_wrap (T - 1))))
                 (Z.to_nat (unsigned_wrap (size_t_wrap (U - 1))))]
  else [size_t_wrap (T - 2); size_t_wrap (U - 2); size_t_wrap (size_t_wrap (T - U) - 1)].

(** Whether the approximation branch is the one that runs. *)
Definition uses_approximation (s : t) : bool :=
  negb (total_morph_tokens_ s <? 100).

(** *** String cost ([MorphStringCost], morph_node.cc:216-236) *)

(** [letter_probabilities_.at(c)]: throws when the character has no
    entry. *)
Definition table_at (table : gmap ascii R) (c : ascii) : outcome R :=
  match table !! c with
  | Some cost => Ok cost
  | None => Failed
  end.

(** The inner loop [for (auto c : morph_string)]. *)
Definition add_letter_costs (table : gmap ascii R) (morph_string : string)
    (sum : R) : outcome R :=
  fold_left (fun acc c => sum <- acc ;; cost <- table_at table c ;; Ok (sum + cost)%R)
            (list_ascii_of_string morph_string) (Ok sum).

(** [letter_probabilities_] is a mutable member that is filled on first
    use: it is passed in and handed back with the sum. *)
Definition MorphStringCost (use_implicit_length : bool)
    (letter_probabilities_ : gmap ascii R) (s : t) : outcome (gmap ascii R * R) :=
  table <- (if (size letter_probabilities_ =? 0)%nat
            then LetterProbabilities use_implicit_length s
            else Ok letter_probabilities_) ;;
  p_end <- table_at table end_of_morph ;;
  let p_not_end := (1 - p_end)%R in
  sum <- fold_left (fun acc kv =>
                      sum <- acc ;;
                      if negb (has_children kv.2)
                      then add_letter_costs table kv.1 sum
                      else Ok sum)
                   (map_to_list (nodes_ s)) (Ok 0%R) ;;
  Ok (table, sum).

(** *** The costs with the special values of doubles
    (morph_node.cc:85-131, 133-243, 278-307)

    The letter table and the string cost above take every logarithm at
    a positive argument, where a double is a real number.  The
    optimizer calls the cost functions on whatever tree it is given;
    the functions of this module are the same code with the special
    values kept. *)

Module Costs.

(** What the cost functions call and the sources under src do not
    define.  A call that throws returns [None]. *)
Record Externals : Type := mkExternals {
  (** [ProbabilityOfMorph]: declared in a header that is not under src. *)
  ProbabilityOfMorph : string -> t -> option double;
  (** The member [hapax_legomena_prior_]. *)
  hapax_legomena_prior_ : double;
  (** The default arguments of [ProbabilityFromExplicitLengths]. *)
  prior_default : double;
  beta_default : double;
  (** [std::pow]. *)
  std_pow : double -> double -> double;
  (** Whether [boost::math::gamma_distribution] accepts the shape and
      the scale (its constructor throws otherwise), and its [pdf]. *)
  gamma_accepts : double -> double -> bool;
  gamma_pdf : double -> double -> double -> option double
}.

Definition returned {A : Type} (r : option A) : outcome A :=
  match r with
  | Some a => Ok a
  | None => Failed
  end.

(** [for (const auto& iter : nodes_) if (!iter.second.has_children()) ...]
    with an accumulator. *)
Definition over_leaves {A : Type} (f : A -> string -> MorphNode -> outcome A)
    (s : t) (init : A) : outcome A :=
  fold_left (fun acc kv =>
               a <- acc ;;
               if negb (has_children kv.2) then f a kv.1 kv.2 else Ok a)
            (map_to_list (nodes_ s)) (Ok init).

(** [ProbabilityOfCorpusGivenModel] (morph_node.cc:85-93). *)
Definition ProbabilityOfCorpusGivenModel (ext : Externals) (s : t) : outcome double :=
  sum <- over_leaves (fun sum morph node =>
                        p <- returned (ProbabilityOfMorph ext morph s) ;;
                        Ok (dsub sum (dmul p (d_of_Z (count node)))))
           s (Num 0) ;;
  Ok (ddiv sum (d_log (d_of_Z 2))).

(** [ProbabilityFromImplicitFrequencies] (morph_node.cc:95-119); the
    operands of [std::log2] are those of [log2_operands]. *)
Definition ProbabilityFromImplicitFrequencies (s : t) : outcome double :=
  let T := total_morph_tokens_ s in
  let U := unique_morph_types_ s in
  if T <? 100
  then
    let n := unsigned_wrap (size_t_wrap (T - 1)) in
    let k := unsigned_wrap (size_t_wrap (U - 1)) in
    (* boost raises a domain error when k > n *)
    _ <- assert (k <=? n) ;;
    Ok (d_log2 (d_of_Z (binomial (Z.to_nat n) (Z.to_nat k))))
  else
    Ok (dsub (dsub (dmul (d_of_Z (size_t_wrap (T - 1)))
                         (d_log2 (d_of_Z (size_t_wrap (T - 2)))))
                   (dmul (d_of_Z (size_t_wrap (U - 1)))
                         (d_log2 (d_of_Z (size_t_wrap (U - 2))))))
             (dmul (d_of_Z (size_t_wrap (T - U)))
                   (d_log2 (d_of_Z (size_t_wrap (size_t_wrap (T - U) - 1)))))).

(** [ProbabilityFromExplicitFrequencies] (morph_node.cc:121-131). *)
Definition ProbabilityFromExplicitFrequencies (ext : Externals) (s : t)
    : outcome double :=
  let exponent := d_log2 (dsub (d_of_Z 1) (hapax_legomena_prior_ ext)) in
  over_leaves (fun sum _ node =>
                 Ok (dsub sum
                       (d_log2 (dsub (std_pow ext (d_of_Z (count node)) exponent)
                                     (std_pow ext (d_of_Z (size_t_wrap (count node + 1)))
                                        exponent)))))
    s (Num 0).

(** [LetterProbabilities] (morph_node.cc:133-184): the counts are those
    of [tally]. *)
Definition LetterProbabilities (include_end_of_string : bool) (s : t)
    : outcome (gmap ascii double) :=
  let acc := tally s in
  _ <- assert (unique_morphs acc =? unique_morph_types_ s) ;;
  _ <- assert (tally_tokens acc =? total_morph_tokens_ s) ;;
  let total_letters :=
    if include_end_of_string
    then size_t_wrap (total_letters acc + tally_tokens acc)
    else total_letters acc in
  let log_total_letters := d_log2 (d_of_Z total_letters) in
  let letter_probabilities : gmap ascii double :=
    (fun n => dsub log_total_letters (d_log2 (d_of_Z n))) <$> letter_counts acc in
  Ok (if include_end_of_string
      then <[end_of_morph := dsub log_total_letters (d_log2 (d_of_Z (tally_tokens acc)))]>
             letter_probabilities
      else letter_probabilities).

(** [letter_probabilities_.at(c)]. *)
Definition table_at (table : gmap ascii double) (c : ascii) : outcome double :=
  returned (table !! c).

(** [letter_probabilities_] is a mutable member that is filled when it
    is found empty: it is passed in and handed back with the result. *)
Definition filled (include_end_of_string : bool)
    (letter_probabilities_ : gmap ascii double) (s : t) : outcome (gmap ascii double) :=
  if (size letter_probabilities_ =? 0)%nat
  then LetterProbabilities include_end_of_string s
  else Ok letter_probabilities_.

(** [ProbabilityFromImplicitLengths] (morph_node.cc:186-199). *)
Definition ProbabilityFromImplicitLengths (letter_probabilities_ : gmap ascii double)
    (s : t) : outcome (gmap ascii double * double) :=
  table <- filled true letter_probabilities_ s ;;
  sum <- over_leaves (fun sum _ _ =>
                        p <- table_at table end_of_morph ;;
                        Ok (dadd sum p))
           s (Num 0) ;;
  Ok (table, sum).

(** [ProbabilityFromExplicitLengths] (morph_node.cc:201-214). *)
Definition ProbabilityFromExplicitLengths (ext : Externals) (prior beta : double)
    (s : t) : outcome double :=
  let alpha := dadd (ddiv prior beta) (d_of_Z 1) in
  _ <- assert (gamma_accepts ext alpha beta) ;;
  over_leaves (fun sum morph _ =>
                 p <- returned (gamma_pdf ext alpha beta (d_of_Z (str_size morph))) ;;
                 Ok (dsub sum (d_log2 p)))
    s (Num 0).

(** The inner loop [for (auto c : morph_string)]. *)
Definition add_letter_costs (table : gmap ascii double) (morph_string : string)
    (sum : double) : outcome double :=
  fold_left (fun acc c => sum <- acc ;; cost <- table_at table c ;; Ok (dadd sum cost))
            (list_ascii_of_string morph_string) (Ok sum).

(** [MorphStringCost] (morph_node.cc:216-236). *)
Definition MorphStringCost (use_implicit_length : bool)
    (letter_probabilities_ : gmap ascii double) (s : t)
    : outcome (gmap ascii double * double) :=
  table <- filled use_implicit_length letter_probabilities_ s ;;
  p_end <- table_at table end_of_morph ;;
  let p_not_end := dsub (d_of_Z 1) p_end in
  sum <- over_leaves (fun sum morph_string _ => add_letter_costs table morph_string sum)
           s (Num 0) ;;
  Ok (table, sum).

(** [ProbabilityAdjustmentFromLexiconOrdering] (morph_node.cc:238-244). *)
Definition ProbabilityAdjustmentFromLexiconOrdering (s : t) : double :=
  let U := d_of_Z (unique_morph_types_ s) in
  ddiv (dmul U (dsub (d_of_Z 1) (d_log U))) (d_log (d_of_Z 2)).

(** [LexiconCost] (morph_node.cc:278-303). *)
Definition LexiconCost (ext : Externals) (mode : AlgorithmModes)
    (letter_probabilities_ : gmap ascii double) (s : t)
    : outcome (gmap ascii double * double) :=
  let sum := ProbabilityAdjustmentFromLexiconOrdering s in
  match mode with
  | kBaseline =>
      f <- ProbabilityFromImplicitFrequencies s ;;
      l <- ProbabilityFromImplicitLengths letter_probabilities_ s ;;
      m <- MorphStringCost true l.1 s ;;
      Ok (m.1, dadd (dadd (dadd sum f) l.2) m.2)
  | kBaselineFreq =>
      f <- ProbabilityFromExplicitFrequencies ext s ;;
      l <- ProbabilityFromImplicitLengths letter_probabilities_ s ;;
      m <- MorphStringCost true l.1 s ;;
      Ok (m.1, dadd (dadd (dadd sum f) l.2) m.2)
  | kBaselineFreqLength =>
      f <- ProbabilityFromExplicitFrequencies ext s ;;
      l <- ProbabilityFromExplicitLengths ext (prior_default ext) (beta_default ext) s ;;
      m <- MorphStringCost false letter_probabilities_ s ;;
      Ok (m.1, dadd (dadd (dadd sum f) l) m.2)
  | kBaselineLength =>
      f <- ProbabilityFromImplicitFrequencies s ;;
      l <- ProbabilityFromExplicitLengths ext (prior_default ext) (beta_default ext) s ;;
      m <- MorphStringCost false letter_probabilities_ s ;;
      Ok (m.1, dadd (dadd (dadd sum f) l) m.2)
  end.

(** [OverallCost] (morph_node.cc:305-307).  The two operands of the sum
    are evaluated in either order; only the first one touches the
    table, and either way an exception of one of them leaves the
    call. *)
Definition OverallCost (ext : Externals) (mode : AlgorithmModes)
    (letter_probabilities_ : gmap ascii double) (s : t)
    : outcome (gmap ascii double * double) :=
  lexicon <- LexiconCost ext mode letter_probabilities_ s ;;
  corpus <- ProbabilityOfCorpusGivenModel ext s ;;
  Ok (lexicon.1, dadd lexicon.2 corpus).

End Costs.

(** *** The optimizer ([ResplitNode], [Optimize], morph_node.cc:309-387)

    The state of the optimizer is the tree together with the member
    [letter_probabilities_]. *)

Section Optimizer.
Variable ext : Costs.Externals.
Variable algorithm_mode_ : AlgorithmModes.
Variable convergence_threshold_ : double.
(** The [i]-th draw of [std::shuffle] from the random generator. *)
Variable shuffle : nat -> list string -> list string.

(** One turn of the loop over [split_index]: the hypothetical split,
    the comparison, and the restoration of the saved structure.  The
    accumulator carries the table, [pr_model_given_corpus_] and
    [best_split_index]. *)
Definition try_split (morph : string) (nosplit : t)
    (acc : outcome (gmap ascii double * (double * nat))) (split_index : nat)
    : outcome (gmap ascii double * (double * nat)) :=
  a <- acc ;;
  s1 <- Split morph split_index nosplit ;;
  c <- Costs.OverallCost ext algorithm_mode_ a.1 s1 ;;
  let new_overall_cost := c.2 in
  Ok (c.1, if d_lt new_overall_cost a.2.1
           then (new_overall_cost, split_index)
           else a.2).

Fixpoint ResplitNode (fuel : nat) (morph : string) (st : t * gmap ascii double)
    : outcome (t * gmap ascii double) :=
  match fuel with
  | O => NoFuel
  | S fuel' =>
      let s := st.1 in
      _ <- assert (negb (str_empty morph)) ;;
      node <- at_ morph s ;;
      let frequency := count node in
      s1 <- (if contains morph s
             then RemoveNode (depth_budget morph) morph morph s
             else Ok s) ;;
      let s2 := emplace morph frequency s1 in
      c <- Costs.OverallCost ext kBaseline st.2 s2 ;;
      let pr_model_given_corpus_ := c.2 in
      r <- fold_left (try_split morph s2)
             (split_indices (String.length morph))
             (Ok (c.1, (pr_model_given_corpus_, O))) ;;
      let best_split_index := r.2.2 in
      if (0 <? best_split_index)%nat
      then
        s3 <- Split morph best_split_index s2 ;;
        node3 <- at_ morph s3 ;;
        _ <- assert (negb (str_empty (left_child node3))) ;;
        _ <- assert (negb (str_empty (right_child node3))) ;;
        st4 <- ResplitNode fuel' (left_child node3) (s3, r.1) ;;
        node4 <- at_ morph st4.1 ;;
        ResplitNode fuel' (right_child node4) st4
      else Ok (s2, r.1)
  end.

(** [for (const auto& key : keys) ResplitNode(key);] *)
Definition resplit_all (keys : list string) (st : t * gmap ascii double)
    : outcome (t * gmap ascii double) :=
  fold_left (fun acc key => st' <- acc ;; ResplitNode (depth_budget key) key st')
            keys (Ok st).

(** One pass of the [do] body: the keys are shuffled in place, then
    every key is resplit. *)
Definition epoch (i : nat) (ks : list string * (t * gmap ascii double))
    : outcome (list string * (t * gmap ascii double)) :=
  let keys := shuffle i ks.1 in
  st' <- resplit_all keys ks.2 ;;
  Ok (keys, st').

(** [new_cost = OverallCost(algorithm_mode_)]. *)
Definition read_cost (ks : list string * (t * gmap ascii double))
    : outcome ((list string * (t * gmap ascii double)) * double) :=
  c <- Costs.OverallCost ext algorithm_mode_ ks.2.2 ks.2.1 ;;
  Ok ((ks.1, (ks.2.1, c.1)), c.2).

(** [convergence_threshold_ * unique_morph_types_]. *)
Definition bound (ks : list string * (t * gmap ascii double)) : double :=
  dmul convergence_threshold_ (d_of_Z (unique_morph_types_ ks.2.1)).

(** Modelled from the spec: the value [convergence_threshold_] has when
    the caller configures none (the header that declares the member is
    not under src). *)
Definition default_convergence_threshold : double := Num (5 / 1000).

(** The [do ... while] loop of [Optimize].  [std::cout << *this] at the
    end of a pass only writes: its [operator<<] is declared in a header
    that is not under src, and the cost that [print] shows is the one
    that was just computed. *)
Definition Optimize_loop : nat -> nat -> double -> list string * (t * gmap ascii double)
                           -> outcome ((list string * (t * gmap ascii double)) * nat) :=
  epoch_loop epoch read_cost bound.

(** The letter table, the keys and the cost with which [Optimize]
    enters its loop. *)
Definition Optimize_start (s : t)
    : outcome ((list string * (t * gmap ascii double)) * double) :=
  table <- Costs.LetterProbabilities
             (AlgorithmModes_eqb algorithm_mode_ kBaseline
              || AlgorithmModes_eqb algorithm_mode_ kBaselineFreq) s ;;
  let keys := (map_to_list (nodes_ s)).*1 in
  read_cost (keys, (s, table)).

(** [Optimize] (morph_node.cc:309-338): the tree and the table it
    leaves, and the number of passes. *)
Definition Optimize (fuel : nat) (s : t) : outcome ((t * gmap ascii double) * nat) :=
  start <- Optimize_start s ;;
  r <- Optimize_loop fuel O start.2 start.1 ;;
  Ok (r.1.2, r.2).
End Optimizer.

(** *** Quantities of the data model *)

Definition is_leaf (n : MorphNode) : bool := negb (has_children n).

Definition leaves_of (l : list (string * MorphNode)) : list (string * MorphNode) :=
  filter (fun kv => is_leaf kv.2 = true) l.

Definition letters_in (l : list (string * MorphNode)) : Z :=
  fold_right (fun kv acc => count kv.2 * str_size kv.1 + acc) 0 (leaves_of l).

Definition tokens_in (l : list (string * MorphNode)) : Z :=
  fold_right (fun kv acc => count kv.2 + acc) 0 (leaves_of l).

Definition leaf_entries (s : t) : list (string * MorphNode) :=
  leaves_of (map_to_list (nodes_ s)).

(** The number of leaf nodes. *)
Definition number_of_leaves (s : t) : Z := Z.of_nat (length (leaf_entries s)).

(** The sum of the counts of the leaf nodes. *)
Definition leaf_token_sum (s : t) : Z := tokens_in (map_to_list (nodes_ s)).

(** The number of letters of the leaf tokens. *)
Definition leaf_letter_sum (s : t) : Z := letters_in (map_to_list (nodes_ s)).

(** What the two loops of [LetterProbabilities] have computed after
    leaves with [A] letters in [B] tokens and [U] types: the table
    holds positive counts that add up to [A], and no count for the
    character [avoid]. *)
Record tally_is (A B U : Z) (avoid : option ascii) (acc : letter_tally) : Prop := {
  tally_letters : total_letters acc = A;
  tally_table : table_total (letter_counts acc) = A;
  tally_tok : tally_tokens acc = B;
  tally_uniq : unique_morphs acc = U;
  tally_pos : map_Forall (fun _ n => 0 < n) (letter_counts acc);
  tally_avoid : forall ch, avoid = Some ch -> letter_counts acc !! ch = None
}.

(** The structural invariants of the specification. *)
Definition node_ok (morph : string) (n : MorphNode) : Prop :=
  str_empty (left_child n) = str_empty (right_child n)
  /\ (has_children n = true -> morph = left_child n ++ right_child n)
  /\ 0 < count n.

Definition invariants (s : t) : Prop :=
  (forall morph n, nodes_ s !! morph = Some n -> node_ok morph n)
  /\ total_morph_tokens_ s = leaf_token_sum s
  /\ unique_morph_types_ s = number_of_leaves s.

(** Count stored under a key, zero when the key is absent. *)
Definition count_or_zero (morph : string) (s : t) : Z :=
  default 0 (count_of morph s).

End SegmentationTree.

(** ** Scenarios *)

(** Scenario 4 of the specification. *)
Definition scenario4 : outcome SegmentationTree.t :=
  let s := SegmentationTree.emplace "trying" 4
             (SegmentationTree.emplace "retry" 2
               (SegmentationTree.emplace "reopening" 1 SegmentationTree.empty)) in
  s <- SegmentationTree.Split "reopening" 2 s ;;
  s <- SegmentationTree.Split "opening" 4 s ;;
  s <- SegmentationTree.Split "retry" 2 s ;;
  SegmentationTree.Split "trying" 3 s.

(** A tree whose only word has two equal halves. *)
Definition tree_aa : SegmentationTree.t :=
  SegmentationTree.emplace "aa" 1 SegmentationTree.empty.

(** Stand-ins for what the cost functions call outside src, for the
    scenarios: a morph of probability one, the priors of the
    specification (hapax-legomena prior 0.5, length prior 5.0 with
    scale 1.0), a power and a density that are constant. *)
Definition sample_externals : SegmentationTree.Costs.Externals :=
  {| SegmentationTree.Costs.ProbabilityOfMorph := fun _ _ => Some (Num 0);
     SegmentationTree.Costs.hapax_legomena_prior_ := Num (1 / 2);
     SegmentationTree.Costs.prior_default := Num 5;
     SegmentationTree.Costs.beta_default := Num 1;
     SegmentationTree.Costs.std_pow := fun _ _ => Num 1;
     SegmentationTree.Costs.gamma_accepts := fun _ _ => true;
     SegmentationTree.Costs.gamma_pdf := fun _ _ _ => Some (Num 1) |}.

(** A tree of two words with a hundred tokens. *)
Definition tree_two_types : SegmentationTree.t :=
  SegmentationTree.emplace "b" 50
    (SegmentationTree.emplace "a" 50 SegmentationTree.empty).

(** ** The cost model behind [Segmentation] *)

(** Modelled from the spec: the interface of the cost model ([model.h]
    is not under src).  These are the accessors and adjustment hooks
    that segmentation.cc calls on [model_]; hook parameters are taken
    to be [int], like [delta]. *)
Class Model (M : Type) : Type := {
  total_morph_tokens : M -> Z;
  overall_cost : M -> double;
  convergence_threshold : M -> double;
  adjust_morph_token_count : Z -> M -> M;
  adjust_unique_morph_count : Z -> M -> M;
  adjust_corpus_cost : Z -> M -> M;
  adjust_frequency_cost : Z -> M -> M;
  adjust_length_cost : Z -> M -> M;
  adjust_string_cost : string -> bool -> M -> M
}.

(** Modelled from the spec: a corpus entry ([morph.h] is not under src):
    a string of characters with a frequency; [length()] is the number of
    characters. *)
Record Morph : Type := mkMorph {
  letters : string;
  frequency : Z
}.

Definition Corpus : Type := list Morph.

(** ** The segmentation of segmentation.cc *)

Module Segmentation.

Section Code.
Context {M : Type} `{Model M}.

Record t : Type := mk {
  nodes_ : gmap string MorphNode;
  model_ : M
}.

Definition with_nodes (m : gmap string MorphNode) (s : t) : t :=
  {| nodes_ := m; model_ := model_ s |}.

Definition with_model (f : M -> M) (s : t) : t :=
  {| nodes_ := nodes_ s; model_ := f (model_ s) |}.

(** The constructor (segmentation.cc:38-48): [nodes_.emplace] keeps
    the first entry of a repeated word. *)
Definition emplace_word (m : gmap string MorphNode) (w : Morph)
    : gmap string MorphNode :=
  match m !! letters w with
  | Some _ => m
  | None => <[letters w := MorphNode_of (frequency w)]> m
  end.

Definition create (training_corpus : Corpus) (model : M) : t :=
  {| nodes_ := fold_left emplace_word training_corpus ∅; model_ := model |}.

Definition contains (morph : string) (s : t) : bool :=
  bool_decide (is_Some (nodes_ s !! morph)).

Definition at_ (morph : string) (s : t) : outcome MorphNode :=
  match nodes_ s !! morph with
  | Some n => Ok n
  | None => Failed
  end.

Definition touch (key : string) (s : t) : t :=
  match nodes_ s !! key with
  | Some _ => s
  | None => with_nodes (<[key := MorphNode_default]> (nodes_ s)) s
  end.

Definition deref (key : string) (s : t) : MorphNode :=
  default MorphNode_default (nodes_ s !! key).

(** The leaf branch of [AdjustMorphCount] (segmentation.cc:150-173). *)
Definition adjust_leaf (morph : string) (delta old_count new_count : Z) (m : M) : M :=
  let m1 := adjust_morph_token_count delta m in
  let m2 := if 0 <? old_count
            then adjust_frequency_cost (int_wrap (size_t_wrap (- old_count)))
                   (adjust_corpus_cost (int_wrap (size_t_wrap (- old_count))) m1)
            else m1 in
  let m3 := if 0 <? new_count
            then adjust_frequency_cost (int_wrap new_count)
                   (adjust_corpus_cost (int_wrap new_count) m2)
            else m2 in
  if (old_count =? 0) && (0 <? new_count)
  then adjust_string_cost morph true
         (adjust_length_cost (int_wrap (str_size morph))
            (adjust_unique_morph_count 1 m3))
  else if (new_count =? 0) && (0 <? old_count)
  then adjust_string_cost morph false
         (adjust_length_cost (int_wrap (size_t_wrap (- str_size morph)))
            (adjust_unique_morph_count (-1) m3))
  else m3.

(** [AdjustMorphCount] (segmentation.cc:113-175). *)
Fixpoint AdjustMorphCount (fuel : nat) (morph : string) (delta : Z) (s : t)
    : outcome t :=
  match fuel with
  | O => NoFuel
  | S fuel' =>
      _ <- assert (negb (str_empty morph)) ;;
      let s0 := touch morph s in
      let subtree := deref morph s0 in
      _ <- assert ((0 <=? delta) || (- delta <=? count subtree)) ;;
      let old_count := count subtree in
      let new_count := size_t_wrap (count subtree + delta) in
      let left_child := left_child subtree in
      let right_child := right_child subtree in
      _ <- assert (Bool.eqb (str_empty left_child) (str_empty right_child)) ;;
      let s1 := if new_count =? 0
                then with_nodes (delete morph (nodes_ s0)) s0
                else with_nodes (<[morph := set_count new_count subtree]> (nodes_ s0)) s0 in
      if negb (str_empty left_child)
      then
        s2 <- AdjustMorphCount fuel' left_child delta s1 ;;
        AdjustMorphCount fuel' right_child delta s2
      else Ok (with_model (adjust_leaf morph delta old_count new_count) s1)
  end.

(** [-frequency] and [frequency] as the [int] argument [delta]. *)
Definition minus_frequency (frequency : Z) : Z := int_wrap (size_t_wrap (- frequency)).
Definition plus_frequency (frequency : Z) : Z := int_wrap frequency.

Definition adjust (morph : string) (delta : Z) (s : t) : outcome t :=
  AdjustMorphCount (depth_budget morph) morph delta s.

(** One turn of the loop over [split_index] in [ResplitNode]
    (segmentation.cc:208-225).  The accumulator carries the structure,
    [best_cost] and [best_split_index]. *)
Definition try_split (morph : string) (frequency : Z)
    (acc : outcome (t * (double * nat))) (split_index : nat)
    : outcome (t * (double * nat)) :=
  a <- acc ;;
  let left_child := substr morph 0 split_index in
  let right_child := substr_from morph split_index in
  s1 <- adjust left_child (plus_frequency frequency) a.1 ;;
  s2 <- adjust right_child (plus_frequency frequency) s1 ;;
  let new_cost := overall_cost (model_ s2) in
  let best := if d_lt new_cost a.2.1 then (new_cost, split_index) else a.2 in
  s3 <- adjust left_child (minus_frequency frequency) s2 ;;
  s4 <- adjust right_child (minus_frequency frequency) s3 ;;
  Ok (s4, best).

(** The whole loop, started from the structure with [morph] unsplit
    ([unsplit], where [best_cost] is read) and then removed. *)
Definition best_of_splits (morph : string) (frequency : Z) (unsplit removed : t)
    : outcome (t * (double * nat)) :=
  fold_left (try_split morph frequency)
    (split_indices (String.length morph))
    (Ok (removed, (overall_cost (model_ unsplit), O))).

Definition choose_split (morph : string) (frequency : Z) (unsplit removed : t)
    : outcome (t * nat) :=
  r <- best_of_splits morph frequency unsplit removed ;;
  Ok (r.1, r.2.2).

Section Resplit.
(** The loop over [split_index]; [ResplitNode] below is this
    definition at [choose_split]. *)
Variable choose : string -> Z -> t -> t -> outcome (t * nat).

(** [ResplitNode] (segmentation.cc:177-243). *)
Fixpoint ResplitNode_with (fuel : nat) (morph : string) (s : t) : outcome t :=
  match fuel with
  | O => NoFuel
  | S fuel' =>
      _ <- assert (negb (str_empty morph)) ;;
      node <- at_ morph s ;;
      let frequency := count node in
      s1 <- (if contains morph s
             then adjust morph (minus_frequency frequency) s
             else Ok s) ;;
      unsplit <- adjust morph (plus_frequency frequency) s1 ;;
      removed <- adjust morph (minus_frequency frequency) unsplit ;;
      r <- choose morph frequency unsplit removed ;;
      let s4 := r.1 in
      let best_split_index := r.2 in
      if (0 <? best_split_index)%nat
      then
        let s5 := touch morph s4 in
        let s6 := with_nodes
                    (<[morph := set_children (substr morph 0 best_split_index)
                                  (substr_from morph best_split_index)
                                  (set_count frequency (deref morph s5))]>
                       (nodes_ s5)) s5 in
        s7 <- adjust (left_child (deref morph s6)) (plus_frequency frequency) s6 ;;
        let s7' := touch morph s7 in
        s8 <- adjust (right_child (deref morph s7')) (plus_frequency frequency) s7' ;;
        let s8' := touch morph s8 in
        s9 <- ResplitNode_with fuel' (left_child (deref morph s8')) s8' ;;
        let s9' := touch morph s9 in
        ResplitNode_with fuel' (right_child (deref morph s9')) s9'
      else adjust morph (plus_frequency frequency) s4
  end.

(** [for (const auto& key : keys) ResplitNode(key);] *)
Definition resplit_all_with (keys : list string) (s : t) : outcome t :=
  fold_left (fun acc key => s' <- acc ;; ResplitNode_with (depth_budget key) key s')
            keys (Ok s).
End Resplit.

Definition ResplitNode (fuel : nat) (morph : string) (s : t) : outcome t :=
  ResplitNode_with choose_split fuel morph s.

Definition resplit_all (keys : list string) (s : t) : outcome t :=
  resplit_all_with choose_split keys s.

(** [Optimize] (segmentation.cc:245-268). *)
Section Optimizer.
(** The [i]-th draw of [std::shuffle] from the random generator. *)
Variable shuffle : nat -> list string -> list string.

Definition epoch (i : nat) (ks : list string * t) : outcome (list string * t) :=
  let keys := shuffle i ks.1 in
  s' <- resplit_all keys ks.2 ;;
  Ok (keys, s').

(** [new_cost = model_->overall_cost()]. *)
Definition read_cost (ks : list string * t) : outcome ((list string * t) * double) :=
  Ok (ks, overall_cost (model_ ks.2)).

(** [model_->convergence_threshold()]. *)
Definition bound (ks : list string * t) : double :=
  convergence_threshold (model_ ks.2).

(** The [do ... while] loop of [Optimize]. *)
Definition Optimize_loop : nat -> nat -> double -> list string * t
                           -> outcome ((list string * t) * nat) :=
  epoch_loop epoch read_cost bound.

Definition Optimize (fuel : nat) (s : t) : outcome (t * nat) :=
  let keys := (map_to_list (nodes_ s)).*1 in
  let old_cost := overall_cost (model_ s) in
  r <- Optimize_loop fuel O old_cost (keys, s) ;;
  Ok (r.1.2, r.2).
End Optimizer.

(** *** The Viterbi decoder ([SegmentTestCorpus], segmentation.cc:50-111)

    The method is written against the structure it runs on: every
    access goes through the state, which is handed on to the next
    statement. *)

Definition prog (A : Type) : Type := t -> outcome (A * t).

Definition ret {A : Type} (a : A) : prog A := fun s => Ok (a, s).

Definition bind {A B : Type} (p : prog A) (f : A -> prog B) : prog B :=
  fun s => r <- p s ;; f r.1 r.2.

Definition check (b : bool) : prog unit :=
  fun s => _ <- assert b ;; Ok (tt, s).

(** [contains(morph)]. *)
Definition contains_ (morph : string) : prog bool :=
  fun s => Ok (contains morph s, s).

(** [at(morph).count]. *)
Definition count_at (morph : string) : prog Z :=
  fun s => n <- at_ morph s ;; Ok (count n, s).

(** [model_->total_morph_tokens()]. *)
Definition token_count : prog Z :=
  fun s => Ok (total_morph_tokens (model_ s), s).

(** A loop over a list of values with an accumulator. *)
Fixpoint for_each {A B : Type} (f : B -> A -> prog B) (l : list A) (b : B) : prog B :=
  match l with
  | [] => ret b
  | x :: l' => bind (f b x) (for_each f l')
  end.

(** The cost charged for the candidate [morph] of [morph_length]
    characters; [None] when the candidate is skipped ([continue]).
    [morph_cost] is declared [auto morph_cost = 0], an [int]: both
    assignments convert the double on the right to [int]. *)
Definition candidate_cost (log_token_count bad_likelihood : R)
    (morph : string) (morph_length : nat) : prog (option Z) :=
  bind (contains_ morph) (fun known =>
  if known
  then bind (count_at morph) (fun c =>
       ret (Some (double_to_int (log_token_count - std_log (IZR c)))))
  else if (morph_length =? 1)%nat
  then ret (Some (double_to_int bad_likelihood))
  else ret None).

(** One turn of the loop over [morph_length]. *)
Definition consider (word : string) (log_token_count bad_likelihood : R)
    (delta : list R) (end_index : nat) (best : R * nat) (morph_length : nat)
    : prog (R * nat) :=
  let morph := substr word (end_index - morph_length) morph_length in
  bind (candidate_cost log_token_count bad_likelihood morph morph_length) (fun charged =>
  match charged with
  | None => ret best
  | Some morph_cost =>
      bind (check ((morph_length <=? end_index)%nat
                   && (end_index - morph_length <? length delta)%nat)) (fun _ =>
      let current_delta := (nth (end_index - morph_length) delta 0 + IZR morph_cost)%R in
      ret (if dlt current_delta best.1
           then (current_delta, morph_length)
           else best))
  end).

(** One turn of the loop over [end_index]. *)
Definition advance (word : string) (log_token_count bad_likelihood pseudo_infinite_cost : R)
    (tables : list R * list nat) (end_index : nat) : prog (list R * list nat) :=
  bind (for_each (consider word log_token_count bad_likelihood tables.1 end_index)
          (seq 1 end_index) (pseudo_infinite_cost, O)) (fun best =>
  bind (check ((0 <? end_index)%nat && (end_index <? length tables.1)%nat)) (fun _ =>
  ret (<[end_index := best.1]> tables.1, <[end_index := best.2]> tables.2))).

(** The backtrace [while (psi[end_index] != 0)]; every turn moves
    [end_index] down by at least one. *)
Fixpoint backtrace (fuel : nat) (word : string) (psi : list nat)
    (end_index : nat) (str : string) : outcome string :=
  match nth end_index psi O with
  | O => Ok str
  | S _ as len =>
      match fuel with
      | O => NoFuel
      | S fuel' =>
          _ <- assert ((0 <? end_index)%nat && (end_index <? length psi)%nat) ;;
          backtrace fuel' word psi (end_index - len)
            (substr word (end_index - len) len ++ " " ++ str)
      end
  end.

(** The tables [delta] and [psi] after the loop over [end_index]. *)
Definition viterbi_tables (log_token_count : R) (w : Morph) : prog (list R * list nat) :=
  let word := letters w in
  let word_length := String.length word in
  let bad_likelihood := (IZR (Z.of_nat word_length + 1) * log_token_count)%R in
  let pseudo_infinite_cost := (IZR (Z.of_nat word_length + 1) * bad_likelihood)%R in
  let delta := repeat 0%R (word_length + 1) in
  let psi := repeat O (word_length + 1) in
  for_each (advance word log_token_count bad_likelihood pseudo_infinite_cost)
    (seq 1 word_length) (delta, psi).

(** The body of the loop over the test words. *)
Definition segment_word (log_token_count : R) (w : Morph) : prog string :=
  bind (viterbi_tables log_token_count w) (fun tables =>
  fun s =>
    str <- backtrace (String.length (letters w)) (letters w) tables.2
             (String.length (letters w)) "" ;;
    Ok (str, s)).

(** The morphs the backtrace walks over, first morph of the word
    first. *)
Fixpoint chosen_morphs (fuel : nat) (word : string) (psi : list nat)
    (end_index : nat) (morphs : list string) : outcome (list string) :=
  match nth end_index psi O with
  | O => Ok morphs
  | S _ as len =>
      match fuel with
      | O => NoFuel
      | S fuel' =>
          _ <- assert ((0 <? end_index)%nat && (end_index <? length psi)%nat) ;;
          chosen_morphs fuel' word psi (end_index - len)
            (substr word (end_index - len) len :: morphs)
      end
  end.


Definition SegmentTestCorpus (test_corpus : Corpus) : prog (list string) :=
  bind token_count (fun T =>
  let log_token_count := std_log (IZR T) in
  for_each (fun segmentations w =>
              bind (segment_word log_token_count w) (fun str =>
              ret (segmentations ++ [str])%list))
           test_corpus []).
(** *** Notions used to state what the decoder does *)

(** A program that hands on the state it was given. *)
Definition read_only {A : Type} (p : prog A) : Prop :=
  forall (s s' : t) (a : A), p s = Ok (a, s') -> s' = s.

(** What the loop over [end_index] maintains: both tables keep their
    length and no entry of [psi] exceeds its index. *)
Definition tables_ok (n : nat) (tables : list R * list nat) : Prop :=
  length tables.1 = S n /\ length tables.2 = S n
  /\ forall j, (nth j tables.2 O <= j)%nat.


(** The cost [SegmentTestCorpus] charges for a piece of a word: that of
    a stored morph, the penalty for an unknown single character; an
    unknown longer piece is skipped. *)
Definition charged (s : t) (log_token_count bad_likelihood : R) (morph : string)
    : option Z :=
  match nodes_ s !! morph with
  | Some n => Some (double_to_int (log_token_count - std_log (IZR (count n))))
  | None => if (String.length morph =? 1)%nat
            then Some (double_to_int bad_likelihood)
            else None
  end.

(** The cost of a segmentation: the sum of what its pieces are charged,
    when none of them is skipped. *)
Fixpoint path_cost (s : t) (log_token_count bad_likelihood : R)
    (pieces : list string) : option R :=
  match pieces with
  | [] => Some 0%R
  | m :: rest =>
      match charged s log_token_count bad_likelihood m,
            path_cost s log_token_count bad_likelihood rest with
      | Some c, Some r => Some (IZR c + r)%R
      | _, _ => None
      end
  end.

(** What the loop over [end_index] has established for the positions
    up to [k]: [delta] is below every candidate, and it is the cost of
    the candidate recorded in [psi]. *)
Definition dp_ok (s : t) (log_token_count bad_likelihood : R) (word : string)
    (k : nat) (tables : list R * list nat) : Prop :=
  nth 0 tables.1 0%R = 0%R
  /\ forall j, (1 <= j <= k)%nat ->
       (forall len c, (1 <= len <= j)%nat ->
          charged s log_token_count bad_likelihood (substr word (j - len) len) = Some c ->
          (nth j tables.1 0 <= nth (j - len) tables.1 0 + IZR c)%R)
       /\ ((1 <= nth j tables.2 O)%nat ->
           exists c,
             charged s log_token_count bad_likelihood
               (substr word (j - nth j tables.2 O) (nth j tables.2 O)) = Some c
             /\ nth j tables.1 0%R
                = (nth (j - nth j tables.2 O) tables.1 0 + IZR c)%R).

(** *** Notions used to state what the structure keeps *)

(** A node as the structure keeps it: a count that is positive and fits
    [size_t], and either no child link or two links that cut the key
    into two non-empty pieces. *)
Definition node_wf (morph : string) (n : MorphNode) : Prop :=
  0 < count n < 2 ^ 64
  /\ ((left_child n = "" /\ right_child n = "")
      \/ (left_child n <> "" /\ right_child n <> ""
          /\ morph = (left_child n ++ right_child n)%string)).

Definition store_wf (s : t) : Prop := map_Forall node_wf (nodes_ s).

(** Keys at least as long as [morph], other than [morph] itself, hold
    in [s'] what they hold in [s]. *)
Definition same_above (morph : string) (s s' : t) : Prop :=
  forall key, (String.length morph <= String.length key)%nat -> key <> morph ->
              nodes_ s' !! key = nodes_ s !! key.

(** The node stored under [morph] after its count was moved by [delta]:
    none when the new count is zero. *)
Definition moved_node (morph : string) (delta : Z) (s : t) : option MorphNode :=
  let subtree := default MorphNode_default (nodes_ s !! morph) in
  let new_count := size_t_wrap (count subtree + delta) in
  if new_count =? 0 then None else Some (set_count new_count subtree).

(** How often the walk of [AdjustMorphCount] that starts at [morph]
    comes by [key] when it follows the links stored in [s]. *)
Fixpoint meets (fuel : nat) (s : t) (morph key : string) : nat :=
  match fuel with
  | O => O
  | S fuel' =>
      let subtree := deref morph s in
      ((if String.eqb morph key then 1 else 0)
       + (if negb (str_empty (left_child subtree))
          then meets fuel' s (left_child subtree) key
               + meets fuel' s (right_child subtree) key
          else 0))%nat
  end.

(** *** Notions used to state what [ResplitNode] decides *)

End Code.

Arguments t M : clear implicits.
Arguments read_only M {A} p.
Arguments store_wf {M} s.
Arguments same_above {M} morph s s'.
Arguments moved_node {M} morph delta s.
Arguments meets {M} fuel s morph key.

End Segmentation.

(** ** A concrete cost model: the Baseline variant *)

Module BaselineModel.

(** Modelled from the spec: the Baseline cost model (implicit
    frequencies, implicit lengths, end-marker letter table); [model.h]
    and [model.cc] are not under src.  The accumulators that the hooks
    maintain are kept exactly, as the census of the contributions added
    and taken away: how many leaves carry each count, and how often each
    character occurs in the leaf strings.  The letter table is the one
    built from the training corpus. *)
Record t : Type := mk {
  tokens : Z;
  types : Z;
  count_census : gmap Z Z;
  letter_census : gmap ascii Z;
  letter_n : gmap ascii Z;
  letters_total : Z;
  end_marker_n : Z;
  threshold_num : Z;
  threshold_den : Z
}.

(** Add [d] to the entry of [k], dropping an entry that becomes zero. *)
Definition bump `{Countable K} (k : K) (d : Z) (m : gmap K Z) : gmap K Z :=
  let v := default 0 (m !! k) + d in
  if v =? 0 then delete k m else <[k := v]> m.

Definition set_tokens (z : Z) (m : t) : t :=
  mk z (types m) (count_census m) (letter_census m)
     (letter_n m) (letters_total m) (end_marker_n m) (threshold_num m) (threshold_den m).

Definition set_types (z : Z) (m : t) : t :=
  mk (tokens m) z (count_census m) (letter_census m)
     (letter_n m) (letters_total m) (end_marker_n m) (threshold_num m) (threshold_den m).

Definition set_count_census (c : gmap Z Z) (m : t) : t :=
  mk (tokens m) (types m) c (letter_census m)
     (letter_n m) (letters_total m) (end_marker_n m) (threshold_num m) (threshold_den m).

Definition set_letter_census (c : gmap ascii Z) (m : t) : t :=
  mk (tokens m) (types m) (count_census m) c
     (letter_n m) (letters_total m) (end_marker_n m) (threshold_num m) (threshold_den m).

(** [adjust_corpus_cost(c)]: a positive [c] adds the contribution of a
    leaf with count [c], a negative one takes the contribution of a
    leaf with count [-c] away. *)
Definition corpus_hook (c : Z) (m : t) : t :=
  if 0 <? c then set_count_census (bump c 1 (count_census m)) m
  else if c <? 0 then set_count_census (bump (- c) (-1) (count_census m)) m
  else m.

(** [adjust_string_cost(morph, added)]. *)
Definition string_hook (morph : string) (added : bool) (m : t) : t :=
  set_letter_census
    (fold_left (fun census ch => bump ch (if added then 1 else -1) census)
       (list_ascii_of_string morph) (letter_census m)) m.

(** Sum of a real-valued contribution per entry of a census. *)
Definition census_sum {K : Type} (f : K -> Z -> R) (l : list (K * Z)) : R :=
  fold_right (fun kv acc => (f kv.1 kv.2 + acc)%R) 0%R l.

(** [cost(c) = log2 N - log2 n(c)]. *)
Definition letter_cost (m : t) (ch : ascii) : R :=
  (std_log2 (IZR (letters_total m)) - std_log2 (IZR (default 0%Z (letter_n m !! ch))))%R.

Definition end_marker_cost (m : t) : R :=
  (std_log2 (IZR (letters_total m)) - std_log2 (IZR (end_marker_n m)))%R.

(** Lexicon ordering adjustment: [U (1 - ln U) / ln 2]. *)
Definition lexicon_order_cost (m : t) : R :=
  (IZR (types m) * (1 - ln (IZR (types m))) / ln 2)%R.

(** Implicit frequency cost. *)
Definition frequency_cost (m : t) : R :=
  let T := tokens m in
  let U := types m in
  if T <? 100
  then std_log2 (IZR (binomial (Z.to_nat (T - 1)) (Z.to_nat (U - 1))))
  else (IZR (T - 1) * std_log2 (IZR (T - 2))
        - IZR (U - 1) * std_log2 (IZR (U - 2))
        - IZR (T - U) * std_log2 (IZR (T - U - 1)))%R.

(** Implicit length cost: [cost(#)] per leaf. *)
Definition length_cost (m : t) : R :=
  (IZR (types m) * end_marker_cost m)%R.

(** String cost: [cost(c)] for every character of every leaf. *)
Definition morph_string_cost (m : t) : R :=
  census_sum (fun ch k => (IZR k * letter_cost m ch)%R) (map_to_list (letter_census m)).

Definition lexicon_cost (m : t) : R :=
  (lexicon_order_cost m + frequency_cost m + length_cost m + morph_string_cost m)%R.

(** Corpus cost: [count (log2 T - log2 count)] for every leaf. *)
Definition corpus_cost (m : t) : R :=
  census_sum (fun c k =>
                (IZR (k * c) * (std_log2 (IZR (tokens m)) - std_log2 (IZR c)))%R)
             (map_to_list (count_census m)).

Definition cost (m : t) : R := (lexicon_cost m + corpus_cost m)%R.

(** Convergence threshold [ε · unique_morph_types]. *)
Definition threshold (m : t) : R :=
  (IZR (threshold_num m) / IZR (threshold_den m) * IZR (types m))%R.

#[global] Instance model : Model t := {|
  total_morph_tokens := tokens;
  overall_cost := fun m => Num (cost m);
  convergence_threshold := fun m => Num (threshold m);
  adjust_morph_token_count := fun d m => set_tokens (tokens m + d) m;
  adjust_unique_morph_count := fun d m => set_types (types m + d) m;
  adjust_corpus_cost := corpus_hook;
  adjust_frequency_cost := fun _ m => m;
  adjust_length_cost := fun _ m => m;
  adjust_string_cost := string_hook
|}.

(** The model of a training corpus in which every word is a leaf; the
    letter table counts the end marker once per token.  The default
    convergence threshold is 0.005. *)
Definition add_word (m : t) (w : Morph) : t :=
  let chars := list_ascii_of_string (letters w) in
  let m1 := string_hook (letters w) true
              (corpus_hook (frequency w)
                 (set_types (types m + 1) (set_tokens (tokens m + frequency w) m))) in
  mk (tokens m1) (types m1) (count_census m1) (letter_census m1)
     (fold_left (fun tbl ch => bump ch (frequency w) tbl) chars (letter_n m))
     (letters_total m + frequency w * (Z.of_nat (length chars) + 1))
     (end_marker_n m + frequency w)
     (threshold_num m) (threshold_den m).

Definition create (corpus : Corpus) : t :=
  fold_left add_word corpus (mk 0 0 ∅ ∅ ∅ 0 0 5 1000).

(** *** Certified comparison of costs

    A cost is a linear combination of [1 / ln 2] and of logarithms of
    positive integers.  Bounding [precision * log2 n] between
    consecutive integers bounds the combination between two integers. *)

Record linear_form : Type := mkForm {
  e_coef : Z;
  log_terms : list (Z * Z)
}.

Definition term_value (cn : Z * Z) : R := (IZR cn.1 * std_log2 (IZR cn.2))%R.

Definition terms_value (l : list (Z * Z)) : R :=
  fold_right (fun cn acc => (term_value cn + acc)%R) 0%R l.

Definition form_value (f : linear_form) : R :=
  (IZR (e_coef f) / ln 2 + terms_value (log_terms f))%R.

Definition cost_form (m : t) : linear_form :=
  let T := tokens m in
  let U := types m in
  let N := letters_total m in
  {| e_coef := U;
     log_terms :=
       [(- U, U)]
       ++ (if T <? 100
           then [(1, binomial (Z.to_nat (T - 1)) (Z.to_nat (U - 1)))]
           else [(T - 1, T - 2); (- (U - 1), U - 2); (- (T - U), T - U - 1)])
       ++ [(U, N); (- U, end_marker_n m)]
       ++ flat_map (fun kv => [(kv.2, N); (- kv.2, default 0 (letter_n m !! kv.1))])
            (map_to_list (letter_census m))
       ++ flat_map (fun kv => [(kv.2 * kv.1, T); (- (kv.2 * kv.1), kv.1)])
            (map_to_list (count_census m)) |}.

Definition negate_term (cn : Z * Z) : Z * Z := (- cn.1, cn.2).

(** [a - b]. *)
Definition form_sub (a b : linear_form) : linear_form :=
  {| e_coef := e_coef a - e_coef b;
     log_terms := log_terms a ++ map negate_term (log_terms b) |}.

Definition form_valid (f : linear_form) : bool :=
  forallb (fun cn : Z * Z => 1 <=? cn.2) (log_terms f).

(** The sum of the logarithmic terms is [log2 (numerator / denominator)]. *)
Definition numerator (l : list (Z * Z)) : Z :=
  fold_right (fun cn acc => (if 0 <? cn.1 then cn.2 ^ cn.1 else 1) * acc) 1 l.

Definition denominator (l : list (Z * Z)) : Z :=
  fold_right (fun cn acc => (if cn.1 <? 0 then cn.2 ^ (- cn.1) else 1) * acc) 1 l.

(** Terms over the same integer are collected before the products are
    formed, so that what two costs share cancels. *)
Fixpoint add_term (cn : Z * Z) (l : list (Z * Z)) : list (Z * Z) :=
  match l with
  | [] => [cn]
  | dm :: rest =>
      if dm.2 =? cn.2 then (dm.1 + cn.1, dm.2) :: rest else dm :: add_term cn rest
  end.

Definition collect (l : list (Z * Z)) : list (Z * Z) :=
  fold_right add_term [] l.

(** [true] only when the value of the form is negative.  With
    [7/5 <= 1 / ln 2 <= 3/2] the sign is settled by a comparison of
    integers. *)
Definition surely_negative (f : linear_form) : bool :=
  let terms := collect (log_terms f) in
  let P := numerator terms in
  let Q := denominator terms in
  form_valid f
  && (if 0 <=? e_coef f
      then P ^ 2 * 2 ^ (3 * e_coef f) <? Q ^ 2
      else P ^ 5 <? Q ^ 5 * 2 ^ (7 * - e_coef f)).

(** [true] only when the first cost is strictly below the second. *)
Definition surely_lt (a b : linear_form) : bool :=
  surely_negative (form_sub a b).

(** The loop over [split_index] with every comparison certified; it
    fails when a comparison cannot be decided by the bounds. *)
Definition try_split_certified (morph : string) (frequency : Z)
    (acc : outcome (Segmentation.t t * (t * nat))) (split_index : nat)
    : outcome (Segmentation.t t * (t * nat)) :=
  a <- acc ;;
  let left_child := substr morph 0 split_index in
  let right_child := substr_from morph split_index in
  s1 <- Segmentation.adjust left_child (Segmentation.plus_frequency frequency) a.1 ;;
  s2 <- Segmentation.adjust right_child (Segmentation.plus_frequency frequency) s1 ;;
  let new_model := Segmentation.model_ s2 in
  best <- (if surely_lt (cost_form new_model) (cost_form a.2.1)
           then Ok (new_model, split_index)
           else if surely_lt (cost_form a.2.1) (cost_form new_model)
           then Ok a.2
           else Failed) ;;
  s3 <- Segmentation.adjust left_child (Segmentation.minus_frequency frequency) s2 ;;
  s4 <- Segmentation.adjust right_child (Segmentation.minus_frequency frequency) s3 ;;
  Ok (s4, best).

Definition best_of_splits_certified (morph : string) (frequency : Z)
    (unsplit removed : Segmentation.t t) : outcome (Segmentation.t t * (t * nat)) :=
  fold_left (try_split_certified morph frequency)
    (split_indices (String.length morph))
    (Ok (removed, (Segmentation.model_ unsplit, O))).

Definition choose_split_certified (morph : string) (frequency : Z)
    (unsplit removed : Segmentation.t t) : outcome (Segmentation.t t * nat) :=
  r <- best_of_splits_certified morph frequency unsplit removed ;;
  Ok (r.1, r.2.2).

End BaselineModel.

(** The training corpus of the cost scenario. *)
Definition corpus_abb : Corpus :=
  [mkMorph "a" 8; mkMorph "bb" 8; mkMorph "bbab" 1].

Definition fresh_abb : Segmentation.t BaselineModel.t :=
  Segmentation.create corpus_abb (BaselineModel.create corpus_abb).

(** The training corpus of the decoder scenario. *)
Definition corpus_ab : Corpus := [mkMorph "a" 1; mkMorph "b" 1].

Definition trained_ab : Segmentation.t BaselineModel.t :=
  Segmentation.create corpus_ab (BaselineModel.create corpus_ab).

(** * Properties *)

Section OptimizerLoop.
Import SegmentationTree.
Import SegmentationTree.

(** ** Comparisons of doubles *)

Lemma dlt_true (a b : R) : (a < b)%R -> dlt a b = true.
Proof. intros H. unfold dlt. destruct (Rlt_dec a b); [reflexivity|contradiction]. Qed.

Lemma dlt_false (a b : R) : (b <= a)%R -> dlt a b = false.
Proof. intros H. unfold dlt. destruct (Rlt_dec a b); [lra|reflexivity]. Qed.

Lemma dlt_spec (a b : R) : dlt a b = true <-> (a < b)%R.
Proof.
  unfold dlt. destruct (Rlt_dec a b); split; intros; try assumption;
    try reflexivity; try discriminate; contradiction.
Qed.

(** [a < b] on doubles decides the order of the numbers and
    infinities. *)
Lemma d_lt_spec (a b : double) : d_lt a b = true <-> dless a b.
Proof.
  destruct a, b; cbn [d_lt dless]; try apply dlt_spec;
    split; intros; try discriminate; try contradiction; try reflexivity; exact I.
Qed.

(** The comparison fails in exactly three ways. *)
Lemma d_lt_false_iff (a b : double) :
  d_lt b a = false <-> dleq a b \/ is_nan a \/ is_nan b.
Proof.
  unfold dleq, is_nan. split.
  - intros Hf.
    destruct a as [x| | |]; try (right; left; reflexivity);
      destruct b as [y| | |]; try (right; right; reflexivity);
      left; (split; [discriminate|]); (split; [discriminate|]);
      intros Hl; apply d_lt_spec in Hl; congruence.
  - intros [(_ & _ & Hn)|[->| ->]].
    + destruct (d_lt b a) eqn:E; [|reflexivity].
      exfalso. apply Hn, d_lt_spec, E.
    + destruct b; reflexivity.
    + destruct a; reflexivity.
Qed.

Lemma dless_not_settled (a b : double) :
  dless b a -> ~ (dleq a b \/ is_nan a \/ is_nan b).
Proof.
  intros Hl Hs. apply d_lt_false_iff in Hs. apply d_lt_spec in Hl. congruence.
Qed.

(** ** The loop runs until the first pass whose decrease does not
    exceed the threshold *)

Section EpochLoopFacts.
Context {St : Type}.
Variable body : nat -> St -> outcome St.
Variable cost : St -> outcome (St * double).
Variable threshold : St -> double.

Lemma passes_S (n i : nat) (c : double) (s s1 : St) (r : St * double) :
  body i s = Ok s1 -> cost s1 = Ok r ->
  passes body cost (S n) i c s = passes body cost n (S i) r.2 r.1.
Proof. intros Hb Hc. cbn [passes]. rewrite Hb. cbn [obind]. rewrite Hc. reflexivity. Qed.

(** No pass is counted when the first pass throws. *)
Lemma passes_S_inv (n i : nat) (c : double) (s : St) (a : St * double) :
  passes body cost (S n) i c s = Ok a ->
  exists s1 r, body i s = Ok s1 /\ cost s1 = Ok r.
Proof.
  cbn [passes]. destruct (body i s) as [s1| |]; cbn [obind]; try discriminate.
  destruct (cost s1) as [r| |] eqn:Hc; cbn [obind]; try discriminate.
  intros _. exists s1, r. split; [reflexivity|exact Hc].
Qed.

Lemma pass_exceeds_first (i : nat) (c : double) (s s1 : St) (r : St * double) :
  body i s = Ok s1 -> cost s1 = Ok r ->
  pass_exceeds body cost threshold i c s O <-> dless (threshold r.1) (dsub c r.2).
Proof.
  intros Hb Hc. unfold pass_exceeds. rewrite (passes_S O _ _ _ _ _ Hb Hc). cbn [passes].
  split.
  - intros (before & after & E1 & E2 & Hl). inversion E1; inversion E2; subst. exact Hl.
  - intros Hl. exists (s, c), r. destruct r. repeat split. exact Hl.
Qed.

Lemma pass_exceeds_next (i j : nat) (c : double) (s s1 : St) (r : St * double) :
  body i s = Ok s1 -> cost s1 = Ok r ->
  pass_exceeds body cost threshold i c s (S j)
  <-> pass_exceeds body cost threshold (S i) r.2 r.1 j.
Proof.
  intros Hb Hc. unfold pass_exceeds.
  rewrite (passes_S j _ _ _ _ _ Hb Hc), (passes_S (S j) _ _ _ _ _ Hb Hc). reflexivity.
Qed.

Lemma pass_settles_first (i : nat) (c : double) (s s1 s' : St) (r : St * double) :
  body i s = Ok s1 -> cost s1 = Ok r ->
  pass_settles body cost threshold i c s O s'
  <-> r.1 = s' /\ d_gt (dsub c r.2) (threshold r.1) = false.
Proof.
  intros Hb Hc. unfold pass_settles, d_gt. rewrite (passes_S O _ _ _ _ _ Hb Hc).
  cbn [passes]. rewrite d_lt_false_iff. split.
  - intros (before & after & E1 & E2 & Hs & Hd). inversion E1; inversion E2; subst.
    split; [reflexivity|exact Hd].
  - intros [<- Hd]. exists (s, c), r. destruct r. repeat split. exact Hd.
Qed.

Lemma pass_settles_next (i j : nat) (c : double) (s s1 s' : St) (r : St * double) :
  body i s = Ok s1 -> cost s1 = Ok r ->
  pass_settles body cost threshold i c s (S j) s'
  <-> pass_settles body cost threshold (S i) r.2 r.1 j s'.
Proof.
  intros Hb Hc. unfold pass_settles.
  rewrite (passes_S j _ _ _ _ _ Hb Hc), (passes_S (S j) _ _ _ _ _ Hb Hc). reflexivity.
Qed.

Lemma pass_settles_runs (i j : nat) (c : double) (s s' : St) :
  pass_settles body cost threshold i c s j s' ->
  exists s1 r, body i s = Ok s1 /\ cost s1 = Ok r.
Proof.
  intros (before & after & _ & E & _). exact (passes_S_inv _ _ _ _ _ E).
Qed.

(** The loop returns after pass number [m] exactly when every earlier
    pass exceeded the threshold and pass [m] did not. *)
Lemma epoch_loop_spec (fuel : nat) :
  forall (i : nat) (c : double) (s s' : St) (n : nat),
    epoch_loop body cost threshold fuel i c s = Ok (s', n)
    <-> exists m, n = (i + S m)%nat /\ (m < fuel)%nat
                  /\ (forall j, (j < m)%nat -> pass_exceeds body cost threshold i c s j)
                  /\ pass_settles body cost threshold i c s m s'.
Proof.
  induction fuel as [|fuel IH]; intros i c s s' n.
  - split; [discriminate|]. intros (m & _ & Hm & _). lia.
  - cbn [epoch_loop].
    destruct (body i s) as [s1| |] eqn:Hb; cbn [obind].
    2,3: split; [discriminate|]; intros (m & _ & _ & _ & Hs);
         destruct (pass_settles_runs _ _ _ _ _ Hs) as (? & ? & Hb' & _); congruence.
    destruct (cost s1) as [r| |] eqn:Hc; cbn [obind].
    2,3: split; [discriminate|]; intros (m & _ & _ & _ & Hs);
         destruct (pass_settles_runs _ _ _ _ _ Hs) as (? & ? & Hb' & Hc');
         rewrite Hb in Hb'; inversion Hb'; subst; congruence.
    destruct (d_gt (dsub c r.2) (threshold r.1)) eqn:Hd.
    + assert (Hl : dless (threshold r.1) (dsub c r.2)) by (apply d_lt_spec; exact Hd).
      rewrite IH. split.
      * intros (m & Hn & Hm & Hex & Hst). exists (S m).
        split; [lia|]. split; [lia|]. split.
        -- intros [|j] Hj.
           ++ apply (proj2 (pass_exceeds_first i c s s1 r Hb Hc)). exact Hl.
           ++ apply (proj2 (pass_exceeds_next i j c s s1 r Hb Hc)). apply Hex. lia.
        -- apply (proj2 (pass_settles_next i m c s s1 s' r Hb Hc)). exact Hst.
      * intros (m & Hn & Hm & Hex & Hst). destruct m as [|m].
        -- apply (proj1 (pass_settles_first i c s s1 s' r Hb Hc)) in Hst.
           destruct Hst as [_ Hst]. congruence.
        -- exists m. split; [lia|]. split; [lia|]. split.
           ++ intros j Hj. apply (proj1 (pass_exceeds_next i j c s s1 r Hb Hc)).
              apply Hex. lia.
           ++ apply (proj1 (pass_settles_next i m c s s1 s' r Hb Hc)). exact Hst.
    + split.
      * intros E. inversion E; subst. exists O.
        split; [lia|]. split; [lia|]. split; [intros j Hj; lia|].
        apply (proj2 (pass_settles_first i c s s1 r.1 r Hb Hc)).
        split; [reflexivity|exact Hd].
      * intros (m & Hn & Hm & Hex & Hst). destruct m as [|m].
        -- apply (proj1 (pass_settles_first i c s s1 s' r Hb Hc)) in Hst.
           destruct Hst as [<- _]. f_equal. f_equal. lia.
        -- exfalso. assert (H0 : (0 < S m)%nat) by lia.
           apply Hex in H0. apply (proj1 (pass_exceeds_first i c s s1 r Hb Hc)) in H0.
           apply d_lt_spec in H0. unfold d_gt in Hd. congruence.
Qed.

(** A pass whose decrease does not exceed the threshold is the last. *)
Lemma epoch_loop_stop (fuel i : nat) (old_cost : double) (s s1 : St) (r : St * double) :
  body i s = Ok s1 -> cost s1 = Ok r ->
  d_gt (dsub old_cost r.2) (threshold r.1) = false ->
  epoch_loop body cost threshold (S fuel) i old_cost s = Ok (r.1, S i).
Proof.
  intros Hb Hc Hd. cbn [epoch_loop]. rewrite Hb. cbn [obind]. rewrite Hc. cbn [obind].
  rewrite Hd. reflexivity.
Qed.

(** A property that every pass keeps holds when the loop returns. *)
Lemma epoch_loop_invariant (P : St -> Prop) :
  (forall i s s', body i s = Ok s' -> P s -> P s') ->
  (forall s r, cost s = Ok r -> P s -> P r.1) ->
  forall (fuel i : nat) (c : double) (s : St) (r : St * nat),
    epoch_loop body cost threshold fuel i c s = Ok r -> P s ->
    P r.1 /\ (i < r.2)%nat.
Proof.
  intros Hbody Hcost. induction fuel as [|fuel IH]; intros i c s r; [discriminate|].
  cbn [epoch_loop].
  destruct (body i s) as [s1| |] eqn:Hb; cbn [obind]; try discriminate.
  destruct (cost s1) as [q| |] eqn:Hc; cbn [obind]; try discriminate.
  intros E HP. assert (HP' : P q.1) by (eapply Hcost; [exact Hc|]; eapply Hbody; eauto).
  destruct (d_gt (dsub c q.2) (threshold q.1)).
  - destruct (IH _ _ _ _ E HP') as [H1 H2]. split; [exact H1|lia].
  - inversion E; subst. cbn [fst snd]. split; [exact HP'|lia].
Qed.
End EpochLoopFacts.

(** ** The costs of the empty tree *)

Lemma d_log_zero : d_log (d_of_Z 0) = NInf.
Proof.
  unfold d_log, d_of_Z. destruct (Rlt_dec 0 0) as [H|_]; [lra|].
  destruct (Rlt_dec 0 0) as [H|_]; [lra|reflexivity].
Qed.

Lemma d_log2_zero : d_log2 (d_of_Z 0) = NInf.
Proof.
  unfold d_log2, d_of_Z. destruct (Rlt_dec 0 0) as [H|_]; [lra|].
  destruct (Rlt_dec 0 0) as [H|_]; [lra|reflexivity].
Qed.

Lemma binomial_diag (n : nat) : binomial n n = 1.
Proof.
  assert (Hz : forall m j, (m < j)%nat -> binomial m j = 0).
  { induction m as [|m IHm]; intros [|j] Hj; simpl; try lia.
    rewrite !IHm by lia. lia. }
  induction n as [|n IH]; [reflexivity|].
  cbn [binomial]. rewrite IH, Hz by lia. lia.
Qed.

Section EmptyTree.

(** With no type the lexicon ordering term is [0 * inf]. *)
Lemma lexicon_ordering_empty :
  Costs.ProbabilityAdjustmentFromLexiconOrdering empty = NaN.
Proof.
  unfold Costs.ProbabilityAdjustmentFromLexiconOrdering. cbn [unique_morph_types_ empty].
  rewrite d_log_zero. cbn [dsub dopp dadd d_of_Z dmul]. unfold signed_inf.
  destruct (Rlt_dec 0 0) as [H|_]; [lra|].
  destruct (Rlt_dec 0 0) as [H|_]; [lra|reflexivity].
Qed.

Lemma implicit_frequencies_empty :
  Costs.ProbabilityFromImplicitFrequencies empty = Ok (d_log2 (d_of_Z 1)).
Proof.
  unfold Costs.ProbabilityFromImplicitFrequencies.
  cbn [total_morph_tokens_ unique_morph_types_ empty].
  change (0 <? 100) with true. cbv iota. rewrite Z.leb_refl. cbn [assert obind].
  rewrite binomial_diag. reflexivity.
Qed.

Lemma over_leaves_empty {A : Type} (f : A -> string -> MorphNode -> outcome A) (init : A) :
  Costs.over_leaves f empty init = Ok init.
Proof. unfold Costs.over_leaves. cbn [nodes_ empty]. rewrite map_to_list_empty. reflexivity. Qed.

Lemma tally_of_empty : tally empty = tally_empty.
Proof. unfold tally. cbn [nodes_ empty]. rewrite map_to_list_empty. reflexivity. Qed.

(** The table of the empty tree: nothing but, where the end marker is
    counted, the end marker with [log2 0 - log2 0]. *)
Lemma LetterProbabilities_empty (include_end_of_string : bool) :
  Costs.LetterProbabilities include_end_of_string empty
  = Ok (if include_end_of_string then {[ end_of_morph := NaN ]} else ∅).
Proof.
  unfold Costs.LetterProbabilities. rewrite tally_of_empty.
  cbn [tally_empty unique_morphs tally_tokens letter_counts total_letters
       unique_morph_types_ total_morph_tokens_ empty].
  change (0 =? 0) with true. cbn [assert obind]. rewrite fmap_empty.
  destruct include_end_of_string; [|reflexivity].
  change (size_t_wrap (0 + 0)) with 0. rewrite d_log2_zero. reflexivity.
Qed.

Lemma corpus_cost_empty (ext : Costs.Externals) :
  exists c, Costs.ProbabilityOfCorpusGivenModel ext empty = Ok c.
Proof.
  unfold Costs.ProbabilityOfCorpusGivenModel. rewrite over_leaves_empty. cbn [obind].
  eexists. reflexivity.
Qed.

Lemma dadd_nan_r (a : double) : dadd a NaN = NaN.
Proof. destruct a; reflexivity. Qed.

(** Where the table counts the end marker the overall cost of the empty
    tree is not a number. *)
Lemma OverallCost_empty_implicit (ext : Costs.Externals) (mode : AlgorithmModes) :
  mode = kBaseline \/ mode = kBaselineFreq ->
  Costs.OverallCost ext mode {[ end_of_morph := NaN ]} empty
  = Ok ({[ end_of_morph := NaN ]}, NaN).
Proof.
  intros Hmode. unfold Costs.OverallCost.
  destruct (corpus_cost_empty ext) as [c Hc]. rewrite Hc.
  assert (Hl : Costs.ProbabilityFromImplicitLengths {[ end_of_morph := NaN ]} empty
               = Ok ({[ end_of_morph := NaN ]}, Num 0)).
  { unfold Costs.ProbabilityFromImplicitLengths, Costs.filled.
    rewrite map_size_singleton. cbn [Nat.eqb obind]. rewrite over_leaves_empty.
    reflexivity. }
  assert (Hm : Costs.MorphStringCost true {[ end_of_morph := NaN ]} empty
               = Ok ({[ end_of_morph := NaN ]}, Num 0)).
  { unfold Costs.MorphStringCost, Costs.filled.
    rewrite map_size_singleton. cbn [Nat.eqb obind]. unfold Costs.table_at.
    rewrite lookup_singleton_eq. cbn [Costs.returned obind]. rewrite over_leaves_empty.
    reflexivity. }
  unfold Costs.LexiconCost. rewrite lexicon_ordering_empty.
  destruct Hmode as [-> | ->].
  - rewrite implicit_frequencies_empty. cbn [obind]. rewrite Hl. cbn [obind fst snd].
    rewrite Hm. reflexivity.
  - unfold Costs.ProbabilityFromExplicitFrequencies. rewrite over_leaves_empty.
    cbn [obind]. rewrite Hl. cbn [obind fst snd]. rewrite Hm. reflexivity.
Qed.

(** Where it does not, the end marker is looked up in an empty table. *)
Lemma OverallCost_empty_explicit (ext : Costs.Externals) (mode : AlgorithmModes) :
  mode = kBaselineFreqLength \/ mode = kBaselineLength ->
  Costs.OverallCost ext mode ∅ empty = Failed.
Proof.
  intros Hmode. unfold Costs.OverallCost.
  assert (Hm : Costs.MorphStringCost false ∅ empty = Failed).
  { unfold Costs.MorphStringCost, Costs.filled. rewrite map_size_empty.
    cbn [Nat.eqb]. rewrite LetterProbabilities_empty. reflexivity. }
  assert (Hl : forall prior beta,
             Costs.ProbabilityFromExplicitLengths ext prior beta empty = Failed
             \/ exists l, Costs.ProbabilityFromExplicitLengths ext prior beta empty = Ok l).
  { intros prior beta. unfold Costs.ProbabilityFromExplicitLengths.
    destruct (Costs.gamma_accepts ext _ beta); cbn [assert obind].
    - right. rewrite over_leaves_empty. eexists. reflexivity.
    - left. reflexivity. }
  unfold Costs.LexiconCost.
  destruct Hmode as [-> | ->].
  - unfold Costs.ProbabilityFromExplicitFrequencies. rewrite over_leaves_empty.
    cbn [obind].
    destruct (Hl (Costs.prior_default ext) (Costs.beta_default ext)) as [-> | [l ->]];
      [reflexivity|]. cbn [obind]. rewrite Hm. reflexivity.
  - rewrite implicit_frequencies_empty. cbn [obind].
    destruct (Hl (Costs.prior_default ext) (Costs.beta_default ext)) as [-> | [l ->]];
      [reflexivity|]. cbn [obind]. rewrite Hm. reflexivity.
Qed.
End EmptyTree.

Section EmptyTreeOptimize.

(** In the modes that count the end marker [Optimize] makes one pass
    over the empty tree and leaves the loop: the decrease is not a
    number. *)
Lemma Optimize_empty_implicit (ext : Costs.Externals) (mode : AlgorithmModes)
    (eps : double) (shuffle : nat -> list string -> list string) (fuel : nat) :
  mode = kBaseline \/ mode = kBaselineFreq ->
  shuffle O [] = [] ->
  Optimize_start ext mode empty = Ok (([], (empty, {[ end_of_morph := NaN ]})), NaN)
  /\ epoch ext mode shuffle O ([], (empty, {[ end_of_morph := NaN ]}))
     = Ok ([], (empty, {[ end_of_morph := NaN ]}))
  /\ read_cost ext mode ([], (empty, {[ end_of_morph := NaN ]}))
     = Ok (([], (empty, {[ end_of_morph := NaN ]})), NaN)
  /\ Optimize ext mode eps shuffle (S fuel) empty
     = Ok ((empty, {[ end_of_morph := NaN ]}), 1%nat).
Proof.
  intros Hmode Hshuffle.
  assert (Hread : read_cost ext mode ([], (empty, {[ end_of_morph := NaN ]}))
                  = Ok (([], (empty, {[ end_of_morph := NaN ]})), NaN)).
  { unfold read_cost. cbn [fst snd]. rewrite (OverallCost_empty_implicit ext mode Hmode).
    reflexivity. }
  assert (Hstart : Optimize_start ext mode empty
                   = Ok (([], (empty, {[ end_of_morph := NaN ]})), NaN)).
  { unfold Optimize_start.
    replace (AlgorithmModes_eqb mode kBaseline || AlgorithmModes_eqb mode kBaselineFreq)
      with true by (destruct Hmode as [-> | ->]; reflexivity).
    rewrite LetterProbabilities_empty. cbn [obind nodes_ empty].
    rewrite map_to_list_empty. exact Hread. }
  assert (Hepoch : epoch ext mode shuffle O ([], (empty, {[ end_of_morph := NaN ]}))
                   = Ok ([], (empty, {[ end_of_morph := NaN ]}))).
  { unfold epoch. cbn [fst snd]. rewrite Hshuffle. reflexivity. }
  repeat split; try assumption.
  unfold Optimize. rewrite Hstart. cbn [obind fst snd]. unfold Optimize_loop.
  cbn [epoch_loop]. rewrite Hepoch. cbn [obind]. rewrite Hread. cbn [obind fst snd].
  unfold d_gt. cbn [dsub dopp dadd].
  destruct (bound eps _); reflexivity.
Qed.
End EmptyTreeOptimize.

Lemma baseline_threshold_kept (corpus : Corpus) (m : BaselineModel.t) :
  BaselineModel.threshold_num (fold_left BaselineModel.add_word corpus m)
  = BaselineModel.threshold_num m
  /\ BaselineModel.threshold_den (fold_left BaselineModel.add_word corpus m)
     = BaselineModel.threshold_den m.
Proof.
  revert m. induction corpus as [|w corpus IH]; intros m; [split; reflexivity|].
  cbn [fold_left]. destruct (IH (BaselineModel.add_word m w)) as [-> ->].
  split; reflexivity.
Qed.

(** On the empty tree, in Baseline mode with the default threshold, the
    loop is left after the first pass although the decrease
    [old_cost - new_cost] of that pass is not at most
    [0.005 * unique_morph_types_]: both costs are not a number. *)
Lemma empty_tree_leaves_loop_without_small_decrease :
  exists (st : SegmentationTree.t * gmap ascii double) (old_cost new_cost : double),
    st.1 = SegmentationTree.empty
    /\ (forall ext : SegmentationTree.Costs.Externals,
          SegmentationTree.Optimize_start ext kBaseline SegmentationTree.empty
          = Ok (([], st), old_cost)
          /\ SegmentationTree.epoch ext kBaseline (fun _ keys => keys) O ([], st)
             = Ok ([], st)
          /\ SegmentationTree.read_cost ext kBaseline ([], st) = Ok (([], st), new_cost)
          /\ SegmentationTree.Optimize ext kBaseline
               SegmentationTree.default_convergence_threshold (fun _ keys => keys) 1
               SegmentationTree.empty
             = Ok (st, 1%nat))
    /\ ~ dleq (dsub old_cost new_cost)
           (dmul SegmentationTree.default_convergence_threshold
              (d_of_Z (SegmentationTree.unique_morph_types_ st.1))).
Proof.
  exists (SegmentationTree.empty, {[ SegmentationTree.end_of_morph := NaN ]}), NaN, NaN.
  split; [reflexivity|]. split.
  - intros ext.
    exact (Optimize_empty_implicit ext kBaseline
             SegmentationTree.default_convergence_threshold (fun _ keys => keys) O
             (or_introl eq_refl) eq_refl).
  - intros (Hnan & _). apply Hnan. reflexivity.
Qed.

(** C4 (amended): each optimizer runs its loop until the first pass
    whose decrease [old_cost - new_cost] does not exceed the bound, and
    returns the state after that pass: every earlier pass had a decrease
    above the bound, and the last one a decrease that is at most the
    bound or, with a cost that is infinite or not a number, no number at
    all.  The bound of [SegmentationTree::Optimize] is
    [convergence_threshold_ * unique_morph_types_], which is
    [0.005 * unique_morph_types_] for the default threshold; that of
    [Segmentation::Optimize] is the value of
    [model_->convergence_threshold()], which the cost model of the
    specification computes as its threshold (0.005 by default) times its
    number of types. *)
Theorem Optimize_runs_until_decrease_within_bound :
  (forall ext mode eps shuffle fuel s st n,
      SegmentationTree.Optimize ext mode eps shuffle fuel s = Ok (st, n)
      <-> exists start m keys,
            SegmentationTree.Optimize_start ext mode s = Ok start
            /\ n = S m /\ (m < fuel)%nat
            /\ (forall j, (j < m)%nat ->
                  pass_exceeds (SegmentationTree.epoch ext mode shuffle)
                    (SegmentationTree.read_cost ext mode)
                    (fun ks => dmul eps
                                 (d_of_Z (SegmentationTree.unique_morph_types_ ks.2.1)))
                    O start.2 start.1 j)
            /\ pass_settles (SegmentationTree.epoch ext mode shuffle)
                 (SegmentationTree.read_cost ext mode)
                 (fun ks => dmul eps
                              (d_of_Z (SegmentationTree.unique_morph_types_ ks.2.1)))
                 O start.2 start.1 m (keys, st))
  /\ (forall (M : Type) (model : Model M) shuffle fuel (s s' : Segmentation.t M) n,
      Segmentation.Optimize shuffle fuel s = Ok (s', n)
      <-> exists m keys,
            n = S m /\ (m < fuel)%nat
            /\ (forall j, (j < m)%nat ->
                  pass_exceeds (Segmentation.epoch shuffle) Segmentation.read_cost
                    (fun ks => convergence_threshold (Segmentation.model_ ks.2))
                    O (overall_cost (Segmentation.model_ s))
                    ((map_to_list (Segmentation.nodes_ s)).*1, s) j)
            /\ pass_settles (Segmentation.epoch shuffle) Segmentation.read_cost
                 (fun ks => convergence_threshold (Segmentation.model_ ks.2))
                 O (overall_cost (Segmentation.model_ s))
                 ((map_to_list (Segmentation.nodes_ s)).*1, s) m (keys, s'))
  /\ (forall ks,
      SegmentationTree.bound SegmentationTree.default_convergence_threshold ks
      = Num (5 / 1000 * IZR (SegmentationTree.unique_morph_types_ ks.2.1)))
  /\ (forall m : BaselineModel.t,
      convergence_threshold m
      = Num (IZR (BaselineModel.threshold_num m) / IZR (BaselineModel.threshold_den m)
             * IZR (BaselineModel.types m)))
  /\ (forall corpus,
      BaselineModel.threshold_num (BaselineModel.create corpus) = 5
      /\ BaselineModel.threshold_den (BaselineModel.create corpus) = 1000).
Proof.
  split; [|split; [|split; [|split]]].
  - intros ext mode eps shuffle fuel s st n.
    unfold SegmentationTree.Optimize.
    destruct (SegmentationTree.Optimize_start ext mode s) as [start| |] eqn:Hstart;
      cbn [obind].
    2,3: split; [discriminate|]; intros (? & ? & ? & E & _); discriminate.
    unfold SegmentationTree.Optimize_loop.
    destruct (epoch_loop _ _ _ fuel O start.2 start.1) as [[[keys st'] n']| |] eqn:Hloop;
      cbn [obind fst snd].
    + apply epoch_loop_spec in Hloop. destruct Hloop as (m & Hn & Hm & Hex & Hst).
      split.
      * intros E. inversion E; subst. exists start, m, keys. repeat split; assumption.
      * intros (start' & m' & keys' & E & Hn' & Hm' & Hex' & Hst').
        inversion E; subst start'. clear E.
        assert (Hloop' : epoch_loop (SegmentationTree.epoch ext mode shuffle)
                           (SegmentationTree.read_cost ext mode)
                           (SegmentationTree.bound eps) fuel O start.2 start.1
                         = Ok ((keys', st), n)).
        { apply epoch_loop_spec. exists m'. repeat split; first [assumption|lia]. }
        assert (Hloop : epoch_loop (SegmentationTree.epoch ext mode shuffle)
                          (SegmentationTree.read_cost ext mode)
                          (SegmentationTree.bound eps) fuel O start.2 start.1
                        = Ok ((keys, st'), n')).
        { apply epoch_loop_spec. exists m. repeat split; assumption. }
        congruence.
    + split; [discriminate|].
      intros (start' & m' & keys' & E & Hn' & Hm' & Hex' & Hst').
      inversion E; subst start'.
      assert (Hloop' : epoch_loop (SegmentationTree.epoch ext mode shuffle)
                         (SegmentationTree.read_cost ext mode)
                         (SegmentationTree.bound eps) fuel O start.2 start.1
                       = Ok ((keys', st), n)).
      { apply epoch_loop_spec. exists m'. repeat split; first [assumption|lia]. }
      congruence.
    + split; [discriminate|].
      intros (start' & m' & keys' & E & Hn' & Hm' & Hex' & Hst').
      inversion E; subst start'.
      assert (Hloop' : epoch_loop (SegmentationTree.epoch ext mode shuffle)
                         (SegmentationTree.read_cost ext mode)
                         (SegmentationTree.bound eps) fuel O start.2 start.1
                       = Ok ((keys', st), n)).
      { apply epoch_loop_spec. exists m'. repeat split; first [assumption|lia]. }
      congruence.
  - intros M model shuffle fuel s s' n.
    unfold Segmentation.Optimize, Segmentation.Optimize_loop.
    destruct (epoch_loop _ _ _ fuel O _ _) as [[[keys st'] n']| |] eqn:Hloop;
      cbn [obind fst snd].
    + apply epoch_loop_spec in Hloop. destruct Hloop as (m & Hn & Hm & Hex & Hst).
      split.
      * intros E. inversion E; subst. exists m, keys. repeat split; assumption.
      * intros (m' & keys' & Hn' & Hm' & Hex' & Hst').
        assert (Hloop' : epoch_loop (Segmentation.epoch shuffle) Segmentation.read_cost
                           Segmentation.bound fuel O (overall_cost (Segmentation.model_ s))
                           ((map_to_list (Segmentation.nodes_ s)).*1, s)
                         = Ok ((keys', s'), n)).
        { apply epoch_loop_spec. exists m'. repeat split; first [assumption|lia]. }
        assert (Hloop : epoch_loop (Segmentation.epoch shuffle) Segmentation.read_cost
                          Segmentation.bound fuel O (overall_cost (Segmentation.model_ s))
                          ((map_to_list (Segmentation.nodes_ s)).*1, s)
                        = Ok ((keys, st'), n')).
        { apply epoch_loop_spec. exists m. repeat split; assumption. }
        congruence.
    + split; [discriminate|]. intros (m' & keys' & Hn' & Hm' & Hex' & Hst').
      assert (Hloop' : epoch_loop (Segmentation.epoch shuffle) Segmentation.read_cost
                         Segmentation.bound fuel O (overall_cost (Segmentation.model_ s))
                         ((map_to_list (Segmentation.nodes_ s)).*1, s)
                       = Ok ((keys', s'), n)).
      { apply epoch_loop_spec. exists m'. repeat split; first [assumption|lia]. }
      congruence.
    + split; [discriminate|]. intros (m' & keys' & Hn' & Hm' & Hex' & Hst').
      assert (Hloop' : epoch_loop (Segmentation.epoch shuffle) Segmentation.read_cost
                         Segmentation.bound fuel O (overall_cost (Segmentation.model_ s))
                         ((map_to_list (Segmentation.nodes_ s)).*1, s)
                       = Ok ((keys', s'), n)).
      { apply epoch_loop_spec. exists m'. repeat split; first [assumption|lia]. }
      congruence.
  - intros ks. reflexivity.
  - intros m. reflexivity.
  - intros corpus. unfold BaselineModel.create.
    exact (baseline_threshold_kept corpus (BaselineModel.mk 0 0 ∅ ∅ ∅ 0 0 5 1000)).
Qed.

End OptimizerLoop.

(** ** The operands of [std::log2] in the implicit frequency cost *)

Lemma binomial_pos (n k : nat) : (k <= n)%nat -> 0 < binomial n k.
Proof.
  revert k. induction n as [|n IH]; intros [|k] Hk; simpl; try lia.
  assert (0 < binomial n k) by (apply IH; lia).
  destruct (Nat.eq_dec (S k) (S n)) as [E|E].
  - assert (Hz : forall m j, (m < j)%nat -> binomial m j = 0).
    { clear. induction m as [|m IHm]; intros [|j] Hj; simpl; try lia.
      rewrite !IHm by lia. lia. }
    rewrite (Hz n (S k)) by lia. lia.
  - assert (0 < binomial n (S k)) by (apply IH; lia). lia.
Qed.

Lemma size_t_wrap_small (z : Z) : 0 <= z < 2 ^ 64 -> size_t_wrap z = z.
Proof. intros Hz. unfold size_t_wrap. apply Z.mod_small. exact Hz. Qed.

Lemma size_t_wrap_range (z : Z) : 0 <= size_t_wrap z < 2 ^ 64.
Proof. unfold size_t_wrap. apply Z.mod_pos_bound. lia. Qed.

Lemma unsigned_wrap_small (z : Z) : 0 <= z < 2 ^ 32 -> unsigned_wrap z = z.
Proof. intros Hz. unfold unsigned_wrap. apply Z.mod_small. exact Hz. Qed.

(** The state with the leaves a:50 and b:50 is reached by two calls of
    [emplace]; there the approximation runs and its second operand,
    [unique_morph_types_ - 2], is zero. *)
Lemma approximation_takes_log2_of_zero :
  SegmentationTree.total_morph_tokens_ tree_two_types = 100
  /\ SegmentationTree.unique_morph_types_ tree_two_types = 2
  /\ SegmentationTree.uses_approximation tree_two_types = true
  /\ SegmentationTree.log2_operands tree_two_types = [98; 0; 97]
  /\ ~ Forall (fun z => 0 < z) (SegmentationTree.log2_operands tree_two_types).
Proof.
  repeat split; try (vm_compute; reflexivity).
  replace (SegmentationTree.log2_operands tree_two_types) with [98; 0; 97]
    by (vm_compute; reflexivity).
  intros H. inversion H as [|? ? _ H1]; subst. inversion H1 as [|? ? H2 _]; subst. lia.
Qed.

(** C8 (amended): the approximation runs exactly when
    [total_morph_tokens_ >= 100].  Its first operand,
    [total_morph_tokens_ - 2], is then positive; the operand
    [unique_morph_types_ - 2] is zero exactly when there are two types,
    and all three operands are positive when
    [3 <= unique_morph_types_ <= total_morph_tokens_ - 2].  Below 100
    tokens the only operand is a binomial coefficient, which is positive
    when [1 <= unique_morph_types_ <= total_morph_tokens_]. *)
Theorem log2_operands_guard (s : SegmentationTree.t) :
  let T := SegmentationTree.total_morph_tokens_ s in
  let U := SegmentationTree.unique_morph_types_ s in
  0 <= T < 2 ^ 64 -> 0 <= U < 2 ^ 64 ->
  (SegmentationTree.uses_approximation s = true <-> 100 <= T)
  /\ (100 <= T ->
      exists a b c, SegmentationTree.log2_operands s = [a; b; c]
        /\ a = T - 2 /\ 98 <= a
        /\ (b = 0 <-> U = 2)
        /\ (3 <= U <= T - 2 -> 0 < b /\ 0 < c))
  /\ (T < 100 -> 1 <= U <= T ->
      exists a, SegmentationTree.log2_operands s = [a] /\ 0 < a).
Proof.
  intros T U HT HU.
  unfold SegmentationTree.uses_approximation, SegmentationTree.log2_operands.
  fold T U.
  split; [|split].
  - destruct (Z.ltb_spec T 100); simpl; split; intros; try lia; discriminate.
  - intros H100. destruct (Z.ltb_spec T 100); [lia|].
    eexists _, _, _. split; [reflexivity|].
    split; [apply size_t_wrap_small; lia|].
    split; [rewrite size_t_wrap_small; lia|].
    split.
    + destruct (Z.lt_ge_cases U 2) as [Hlt|Hge].
      * assert (HU01 : U = 0 \/ U = 1) by lia.
        destruct HU01 as [-> | ->]; split; intros E; try lia;
          vm_compute in E; discriminate.
      * rewrite size_t_wrap_small by lia. lia.
    + intros HUT. rewrite !size_t_wrap_small; rewrite ?size_t_wrap_small; lia.
  - intros Hlt HUT. destruct (Z.ltb_spec T 100); [|lia].
    eexists. split; [reflexivity|].
    rewrite !size_t_wrap_small by lia.
    rewrite !unsigned_wrap_small by lia.
    apply binomial_pos. lia.
Qed.

Lemma log2_operands_guard_witness :
  (SegmentationTree.uses_approximation tree_two_types = true
   <-> 100 <= SegmentationTree.total_morph_tokens_ tree_two_types)
  /\ (100 <= SegmentationTree.total_morph_tokens_ tree_two_types ->
      exists a b c, SegmentationTree.log2_operands tree_two_types = [a; b; c]
        /\ a = SegmentationTree.total_morph_tokens_ tree_two_types - 2 /\ 98 <= a
        /\ (b = 0 <-> SegmentationTree.unique_morph_types_ tree_two_types = 2)
        /\ (3 <= SegmentationTree.unique_morph_types_ tree_two_types
              <= SegmentationTree.total_morph_tokens_ tree_two_types - 2 -> 0 < b /\ 0 < c))
  /\ (SegmentationTree.total_morph_tokens_ tree_two_types < 100 ->
      1 <= SegmentationTree.unique_morph_types_ tree_two_types
        <= SegmentationTree.total_morph_tokens_ tree_two_types ->
      exists a, SegmentationTree.log2_operands tree_two_types = [a] /\ 0 < a).
Proof.
  apply (log2_operands_guard tree_two_types); vm_compute; split; congruence.
Defined.

(** ** Scenario 4: counts accumulate across words *)

(** C1: after emplacing reopening:1, retry:2, trying:4 and splitting
    reopening at 2, opening at 4, retry at 2 and trying at 3, the stored
    counts are re = 3, ing = 5, open = 1 and try = 6. *)
Theorem scenario4_counts :
  exists s, scenario4 = Ok s
    /\ SegmentationTree.count_of "re" s = Some 3
    /\ SegmentationTree.count_of "ing" s = Some 5
    /\ SegmentationTree.count_of "open" s = Some 1
    /\ SegmentationTree.count_of "try" s = Some 6.
Proof.
  eexists. split; [vm_compute; reflexivity|].
  repeat split; vm_compute; reflexivity.
Qed.

(** ** Splitting a word into two equal halves *)

Lemma tree_aa_invariants : SegmentationTree.invariants tree_aa.
Proof.
  split; [|split; vm_compute; reflexivity].
  intros morph n Hn.
  assert (Hl : (morph, n) ∈ map_to_list (SegmentationTree.nodes_ tree_aa))
    by (apply elem_of_map_to_list; exact Hn).
  vm_compute in Hl.
  apply list_elem_of_In in Hl. simpl in Hl.
  destruct Hl as [Hl|[]]. inversion Hl; subst.
  repeat split; try reflexivity. discriminate.
Qed.

(** C3: at the leaf "aa" (count 1, the only node), [Split("aa", 1)]
    takes one from [unique_morph_types_] although both halves were
    absent before the call; the claim asks for minus one plus one per new
    half. *)
Theorem split_equal_halves_loses_a_type :
  SegmentationTree.contains "a" tree_aa = false
  /\ exists s, SegmentationTree.Split "aa" 1 tree_aa = Ok s
       /\ SegmentationTree.unique_morph_types_ s
          - SegmentationTree.unique_morph_types_ tree_aa = -1.
Proof.
  split; [vm_compute; reflexivity|].
  eexists. split; vm_compute; reflexivity.
Qed.

(** C2: the invariants hold for the tree that holds the leaf "aa", and
    after the public mutation [Split("aa", 1)] the store has one leaf,
    "a" with count 2, while [unique_morph_types_] is 0. *)
Theorem split_equal_halves_breaks_type_count :
  SegmentationTree.invariants tree_aa
  /\ exists s, SegmentationTree.Split "aa" 1 tree_aa = Ok s
       /\ SegmentationTree.leaf_entries s = [("a", MorphNode_of 2)]
       /\ SegmentationTree.total_morph_tokens_ s = 2
       /\ SegmentationTree.number_of_leaves s = 1
       /\ SegmentationTree.unique_morph_types_ s = 0.
Proof.
  split; [apply tree_aa_invariants|].
  eexists. split; [vm_compute; reflexivity|].
  repeat split; vm_compute; reflexivity.
Qed.

Section LetterTable.
Import SegmentationTree.

(** ** The letter table is a probability distribution *)

Lemma size_t_wrap_small' (z : Z) : 0 <= z < 2 ^ 64 -> size_t_wrap z = z.
Proof. intros Hz. unfold size_t_wrap. apply Z.mod_small. exact Hz. Qed.

Lemma std_log2_cost_mass (n N : R) :
  (0 < n)%R -> (0 < N)%R ->
  Rpower 2 (- (std_log2 N - std_log2 n)) = (n / N)%R.
Proof.
  intros Hn HN. unfold Rpower, std_log2.
  assert (Hln2 : (ln 2 <> 0)%R).
  { assert (0 < ln 2)%R by (rewrite <- ln_1; apply ln_increasing; lra). lra. }
  replace (- (ln N / ln 2 - ln n / ln 2) * ln 2)%R with (ln n + - ln N)%R
    by (field; exact Hln2).
  rewrite exp_plus, exp_Ropp, !exp_ln by assumption. reflexivity.
Qed.

Lemma table_total_empty : table_total ∅ = 0.
Proof. unfold table_total. apply map_fold_empty. Qed.

Lemma table_total_insert (counts : gmap ascii Z) (ch : ascii) (n : Z) :
  counts !! ch = None ->
  table_total (<[ch := n]> counts) = n + table_total counts.
Proof.
  intros Hch. unfold table_total. apply map_fold_insert_L; [|exact Hch].
  intros. lia.
Qed.

Lemma table_total_bump (counts : gmap ascii Z) (ch : ascii) (c : Z) :
  table_total (<[ch := default 0 (counts !! ch) + c]> counts) = table_total counts + c.
Proof.
  destruct (counts !! ch) as [v|] eqn:Ech; simpl.
  - rewrite <- (insert_delete_id counts ch v Ech) at 2.
    rewrite <- insert_delete_eq.
    rewrite !table_total_insert by apply lookup_delete_eq. lia.
  - rewrite table_total_insert by exact Ech. lia.
Qed.

Lemma probability_mass_empty : probability_mass ∅ = 0%R.
Proof. unfold probability_mass. apply map_fold_empty. Qed.

Lemma probability_mass_insert (table : gmap ascii R) (ch : ascii) (cost : R) :
  table !! ch = None ->
  probability_mass (<[ch := cost]> table) = (Rpower 2 (- cost) + probability_mass table)%R.
Proof.
  intros Hch. unfold probability_mass.
  apply (map_fold_insert_L (fun _ cost acc => (Rpower 2 (- cost) + acc)%R));
    [|exact Hch].
  intros. lra.
Qed.

(** The costs computed from positive counts stand for the shares of
    the counts in [N]. *)
Lemma probability_mass_of_counts (N : Z) (counts : gmap ascii Z) :
  0 < N ->
  map_Forall (fun _ n => 0 < n) counts ->
  probability_mass ((fun n => (std_log2 (IZR N) - std_log2 (IZR n))%R) <$> counts)
  = (IZR (table_total counts) / IZR N)%R.
Proof.
  intros HN. induction counts as [|ch n counts Hch IH] using map_ind; intros Hpos.
  - rewrite fmap_empty, probability_mass_empty, table_total_empty. lra.
  - apply map_Forall_insert in Hpos; [|exact Hch]. destruct Hpos as [Hn Hpos].
    rewrite fmap_insert, probability_mass_insert by (rewrite lookup_fmap, Hch; reflexivity).
    rewrite table_total_insert by exact Hch. rewrite IH by exact Hpos.
    rewrite std_log2_cost_mass by (apply IZR_lt; lia).
    rewrite plus_IZR. field. apply not_0_IZR. lia.
Qed.

(** *** What the two loops of [LetterProbabilities] compute *)

Lemma tally_letters_step (c : Z) (chars : list ascii) (avoid : option ascii) :
  0 < c ->
  (forall ch, avoid = Some ch -> ch ∉ chars) ->
  forall A B U acc,
    0 <= A -> A + c * Z.of_nat (length chars) < 2 ^ 64 ->
    tally_is A B U avoid acc ->
    tally_is (A + c * Z.of_nat (length chars)) B U avoid
      (fold_left (tally_letter c) chars acc).
Proof.
  intros Hc. induction chars as [|ch chars IH]; intros Hav A B U acc HA Hbound Hacc; simpl.
  - replace (A + c * Z.of_nat 0) with A by lia. exact Hacc.
  - simpl length in Hbound. rewrite Nat2Z.inj_succ in *.
    replace (A + c * Z.succ (Z.of_nat (length chars)))
      with ((A + c) + c * Z.of_nat (length chars)) by lia.
    apply IH; try lia.
    { intros x Hx Hin. apply (Hav x Hx). right. exact Hin. }
    destruct Hacc as [H1 H2 H3 H4 H5 H6]. constructor; simpl; try assumption.
    + rewrite H1. unfold size_t_wrap. apply Z.mod_small. lia.
    + rewrite table_total_bump. lia.
    + apply map_Forall_insert_2; [|exact H5].
      destruct (letter_counts acc !! ch) as [v|] eqn:Ev; simpl; [|lia].
      specialize (H5 ch v Ev). simpl in H5. lia.
    + intros x Hx. rewrite lookup_insert_ne; [apply H6; exact Hx|].
      intros ->. apply (Hav x Hx). left.
  Qed.

Lemma leaf_sums_nonneg (l : list (string * MorphNode)) :
  Forall (fun kv => 0 < count kv.2) l ->
  0 <= fold_right (fun kv acc => count kv.2 * str_size kv.1 + acc) 0 l
  /\ 0 <= fold_right (fun kv acc => count kv.2 + acc) 0 l.
Proof.
  induction 1 as [|kv l' Hkv Hl IH]; simpl; [lia|].
  destruct IH as [IH1 IH2]. split; [|lia].
  assert (0 <= str_size kv.1) by (unfold str_size; lia). nia.
Qed.

Lemma letters_in_nonneg (l : list (string * MorphNode)) :
  Forall (fun kv => 0 < count kv.2) (leaves_of l) -> 0 <= letters_in l /\ 0 <= tokens_in l.
Proof. apply leaf_sums_nonneg. Qed.

Lemma length_list_ascii_of_string (w : string) :
  length (list_ascii_of_string w) = String.length w.
Proof. induction w as [|c w IH]; simpl; [reflexivity|]. f_equal. exact IH. Qed.

Lemma leaves_of_cons (kv : string * MorphNode) (l : list (string * MorphNode)) :
  leaves_of (kv :: l) = if is_leaf kv.2 then kv :: leaves_of l else leaves_of l.
Proof.
  unfold leaves_of. rewrite filter_cons.
  destruct (decide (is_leaf kv.2 = true)) as [E|E].
  - rewrite E. reflexivity.
  - destruct (is_leaf kv.2); [congruence|reflexivity].
Qed.

Lemma tally_nodes_step (avoid : option ascii) (l : list (string * MorphNode)) :
  Forall (fun kv => 0 < count kv.2) (leaves_of l) ->
  Forall (fun kv => forall ch, avoid = Some ch -> ch ∉ list_ascii_of_string kv.1)
         (leaves_of l) ->
  forall A B U acc,
    0 <= A -> 0 <= B -> 0 <= U ->
    A + letters_in l + (B + tokens_in l) < 2 ^ 64 ->
    U + Z.of_nat (length (leaves_of l)) < 2 ^ 64 ->
    tally_is A B U avoid acc ->
    tally_is (A + letters_in l) (B + tokens_in l) (U + Z.of_nat (length (leaves_of l)))
      avoid (fold_left tally_node l acc).
Proof.
  unfold letters_in, tokens_in.
  induction l as [|kv l IH]; intros Hpos Hav A B U acc HA HB HU Hbound HUb Hacc.
  - simpl. rewrite !Z.add_0_r. exact Hacc.
  - rewrite leaves_of_cons in *. simpl fold_left. unfold tally_node at 2.
    fold (is_leaf kv.2). destruct (is_leaf kv.2) eqn:Hleaf.
    + inversion Hpos as [|? ? Hc Hpos']; subst.
      inversion Hav as [|? ? Hch Hav']; subst.
      destruct (letters_in_nonneg l Hpos') as [Hl0 Ht0].
      unfold letters_in, tokens_in in Hl0, Ht0.
      assert (Hsz : 0 <= str_size kv.1) by (unfold str_size; lia).
      cbn [fold_right length negb] in *. rewrite Nat2Z.inj_succ in *.
      set (LS := fold_right (fun kv acc => count kv.2 * str_size kv.1 + acc) 0 (leaves_of l)) in *.
      set (TS := fold_right (fun kv acc => count kv.2 + acc) 0 (leaves_of l)) in *.
      set (NS := Z.of_nat (length (leaves_of l))) in *.
      assert (HNS : 0 <= NS) by (unfold NS; lia).
      replace (A + (count kv.2 * str_size kv.1 + LS))
        with ((A + count kv.2 * str_size kv.1) + LS) by lia.
      replace (B + (count kv.2 + TS)) with ((B + count kv.2) + TS) by lia.
      replace (U + Z.succ NS) with ((U + 1) + NS) by lia.
      apply IH; try assumption; try nia.
      unfold str_size. rewrite <- length_list_ascii_of_string.
      apply tally_letters_step; try assumption.
      * rewrite length_list_ascii_of_string. fold (str_size kv.1). nia.
      * destruct Hacc as [H1 H2 H3 H4 H5 H6]. constructor; simpl; try assumption.
        -- rewrite H3. unfold size_t_wrap. apply Z.mod_small. nia.
        -- rewrite H4. unfold size_t_wrap. apply Z.mod_small. lia.
    + cbn [negb]. apply IH; assumption.
Qed.

Lemma leaves_at_most_tokens (l : list (string * MorphNode)) :
  Forall (fun kv => 0 < count kv.2) l ->
  Z.of_nat (length l) <= fold_right (fun kv acc => count kv.2 + acc) 0 l.
Proof. induction 1 as [|kv l' Hkv Hl IH]; simpl length; simpl fold_right; lia. Qed.

Lemma tally_empty_is (avoid : option ascii) : tally_is 0 0 0 avoid tally_empty.
Proof.
  constructor; simpl;
    first [reflexivity | apply table_total_empty | apply map_Forall_empty
          | intros; apply lookup_empty].
Qed.

(** The table of the empty tree built without the end marker has no
    entry: its mass is 0. *)
Lemma empty_tree_letter_mass :
  LetterProbabilities false SegmentationTree.empty = Ok ∅
  /\ probability_mass ∅ = 0%R
  /\ probability_mass ∅ <> 1%R.
Proof.
  split.
  - unfold LetterProbabilities, tally. simpl nodes_. rewrite map_to_list_empty.
    cbn [fold_left tally_empty unique_morphs tally_tokens letter_counts
         SegmentationTree.empty unique_morph_types_ total_morph_tokens_
         Z.eqb assert obind].
    rewrite fmap_empty. reflexivity.
  - rewrite probability_mass_empty. split; [reflexivity|lra].
Qed.

(** C7 (amended): when the leaves have positive counts, their letters
    and tokens fit in [size_t], the tree holds at least one letter (one
    token in end-marker mode) and, in end-marker mode, no leaf contains
    the marker character, the costs of the table returned by
    [LetterProbabilities] satisfy [sum of 2^(-cost) = 1] as real
    numbers, the marker included in end-marker mode. *)
Theorem letter_costs_sum_to_one (include_end_of_string : bool)
    (s : SegmentationTree.t) (table : gmap ascii R) :
  LetterProbabilities include_end_of_string s = Ok table ->
  Forall (fun kv => 0 < count kv.2) (leaf_entries s) ->
  leaf_letter_sum s + leaf_token_sum s < 2 ^ 64 ->
  (if include_end_of_string
   then 0 < leaf_token_sum s
        /\ Forall (fun kv => end_of_morph ∉ list_ascii_of_string kv.1) (leaf_entries s)
   else 0 < leaf_letter_sum s) ->
  probability_mass table = 1%R.
Proof.
  intros Htable Hpos Hbound Hmode.
  set (avoid := if include_end_of_string then Some end_of_morph else None).
  destruct (letters_in_nonneg _ Hpos) as [Hl0 Ht0].
  fold (leaf_letter_sum s) in Hl0. fold (leaf_token_sum s) in Ht0.
  assert (Hleaves : Z.of_nat (length (leaf_entries s)) <= leaf_token_sum s)
    by (apply leaves_at_most_tokens; exact Hpos).
  assert (Hacc : tally_is (leaf_letter_sum s) (leaf_token_sum s)
                   (Z.of_nat (length (leaf_entries s))) avoid (tally s)).
  { unfold tally, leaf_letter_sum, leaf_token_sum, leaf_entries.
    pose proof (tally_nodes_step avoid (map_to_list (nodes_ s))) as Hstep.
    specialize (Hstep Hpos).
    assert (Hav : Forall (fun kv => forall ch, avoid = Some ch -> ch ∉ list_ascii_of_string kv.1)
                    (leaves_of (map_to_list (nodes_ s)))).
    { unfold avoid. destruct include_end_of_string.
      - destruct Hmode as [_ Hm]. eapply Forall_impl; [exact Hm|].
        intros kv Hkv ch Hch. inversion Hch; subst. exact Hkv.
      - apply Forall_forall. intros kv _ ch Hch. discriminate. }
    specialize (Hstep Hav 0 0 0 tally_empty).
    rewrite !Z.add_0_l in Hstep.
    unfold leaf_letter_sum, leaf_token_sum, leaf_entries in Hbound, Hleaves, Hl0.
    apply Hstep; try lia. apply tally_empty_is. }
  destruct Hacc as [H1 H2 H3 H4 H5 H6].
  unfold LetterProbabilities in Htable.
  destruct (assert (unique_morphs (tally s) =? unique_morph_types_ s)); simpl in Htable;
    try discriminate.
  destruct (assert (tally_tokens (tally s) =? total_morph_tokens_ s)); simpl in Htable;
    try discriminate.
  inversion Htable as [Htab]. clear Htable.
  rewrite H1, H3. destruct include_end_of_string.
  - destruct Hmode as [HT _].
    rewrite (size_t_wrap_small' (leaf_letter_sum s + leaf_token_sum s)) by lia.
    rewrite probability_mass_insert.
    2:{ rewrite lookup_fmap, (H6 end_of_morph eq_refl). reflexivity. }
    rewrite probability_mass_of_counts by (try exact H5; lia).
    rewrite std_log2_cost_mass by (apply IZR_lt; lia).
    rewrite H2, plus_IZR. field. rewrite <- plus_IZR. apply not_0_IZR. lia.
  - rewrite probability_mass_of_counts by (try exact H5; lia).
    rewrite H2. field. apply not_0_IZR. lia.
Qed.

Lemma letter_costs_sum_to_one_witness :
  exists table,
    LetterProbabilities true tree_aa = Ok table /\ probability_mass table = 1%R.
Proof.
  assert (Hleaves : leaf_entries tree_aa = [("aa", MorphNode_of 1)])
    by (vm_compute; reflexivity).
  eexists. split.
  - unfold LetterProbabilities.
    replace (unique_morphs (tally tree_aa) =? unique_morph_types_ tree_aa) with true
      by (vm_compute; reflexivity).
    replace (tally_tokens (tally tree_aa) =? total_morph_tokens_ tree_aa) with true
      by (vm_compute; reflexivity).
    cbn [assert obind]. reflexivity.
  - apply (letter_costs_sum_to_one true tree_aa).
    + unfold LetterProbabilities.
      replace (unique_morphs (tally tree_aa) =? unique_morph_types_ tree_aa) with true
        by (vm_compute; reflexivity).
      replace (tally_tokens (tally tree_aa) =? total_morph_tokens_ tree_aa) with true
        by (vm_compute; reflexivity).
      cbn [assert obind]. reflexivity.
    + rewrite Hleaves. constructor; [simpl; lia|constructor].
    + vm_compute. reflexivity.
    + split; [vm_compute; reflexivity|].
      rewrite Hleaves. constructor; [|constructor].
      intros Hin. apply list_elem_of_In in Hin. simpl in Hin.
      destruct Hin as [Hin|[Hin|[]]]; discriminate.
Defined.

End LetterTable.

Section DecoderFrameProperty.
Import Segmentation.

(** ** The decoder reads the structure and leaves it as it was *)

Section DecoderFrame.
Context {M : Type} `{Model M}.

Lemma read_only_ret {A : Type} (a : A) : read_only M (ret a).
Proof. intros s s' a' E. inversion E. reflexivity. Qed.

Lemma read_only_bind {A B : Type} (p : prog A) (f : A -> prog B) :
  read_only M p -> (forall a, read_only M (f a)) -> read_only M (bind p f).
Proof.
  intros Hp Hf s s' b E. unfold bind in E.
  destruct (p s) as [[a s1]| |] eqn:Ep; simpl in E; try discriminate.
  apply Hp in Ep. subst s1. exact (Hf a s s' b E).
Qed.

Lemma read_only_check (b : bool) : read_only M (check b).
Proof.
  intros s s' a E. unfold check in E. destruct b; simpl in E;
    [inversion E; reflexivity|discriminate].
Qed.

Lemma read_only_contains (morph : string) : read_only M (contains_ morph).
Proof. intros s s' a E. inversion E. reflexivity. Qed.

Lemma read_only_count_at (morph : string) : read_only M (count_at morph).
Proof.
  intros s s' a E. unfold count_at in E.
  destruct (at_ morph s); simpl in E; try discriminate.
  inversion E. reflexivity.
Qed.

Lemma read_only_token_count : read_only M token_count.
Proof. intros s s' a E. inversion E. reflexivity. Qed.

Lemma read_only_for_each {A B : Type} (f : B -> A -> prog B) (l : list A) :
  (forall b a, read_only M (f b a)) -> forall b, read_only M (for_each f l b).
Proof.
  intros Hf. induction l as [|x l IH]; intros b; simpl.
  - apply read_only_ret.
  - apply read_only_bind; [apply Hf|exact IH].
Qed.

Create HintDb frame.
Hint Resolve read_only_ret read_only_check read_only_contains
  read_only_count_at read_only_token_count : frame.

Lemma read_only_candidate_cost ltc bad morph len :
  read_only M (candidate_cost ltc bad morph len).
Proof.
  unfold candidate_cost. apply read_only_bind; [auto with frame|].
  intros [|].
  - apply read_only_bind; auto with frame.
  - destruct (len =? 1)%nat; auto with frame.
Qed.

Lemma read_only_consider word ltc bad delta e best len :
  read_only M (consider word ltc bad delta e best len).
Proof.
  unfold consider. apply read_only_bind; [apply read_only_candidate_cost|].
  intros [c|]; [|auto with frame].
  apply read_only_bind; auto with frame.
Qed.

Lemma read_only_advance word ltc bad pinf tables e :
  read_only M (advance word ltc bad pinf tables e).
Proof.
  unfold advance. apply read_only_bind.
  - apply read_only_for_each. intros. apply read_only_consider.
  - intros best. apply read_only_bind; auto with frame.
Qed.

Lemma read_only_viterbi_tables ltc w : read_only M (viterbi_tables ltc w).
Proof.
  unfold viterbi_tables. apply read_only_for_each. intros. apply read_only_advance.
Qed.

Lemma read_only_segment_word ltc w : read_only M (segment_word ltc w).
Proof.
  unfold segment_word. apply read_only_bind; [apply read_only_viterbi_tables|].
  intros tables s s' a E.
  destruct (backtrace _ _ _ _ _); simpl in E; try discriminate.
  inversion E. reflexivity.
Qed.

Lemma read_only_SegmentTestCorpus test_corpus :
  read_only M (SegmentTestCorpus test_corpus).
Proof.
  unfold SegmentTestCorpus. apply read_only_bind; [auto with frame|].
  intros T. apply read_only_for_each. intros segs w.
  apply read_only_bind; [apply read_only_segment_word|auto with frame].
Qed.
End DecoderFrame.

(** C10: a call of [SegmentTestCorpus] that returns hands back the
    structure it was given, nodes and model alike, and a second call on
    the same corpus returns the same list of segmentations. *)
Theorem SegmentTestCorpus_read_only_deterministic
    {M : Type} `{Model M} (test_corpus : Corpus)
    (s s' : Segmentation.t M) (segmentations : list string) :
  SegmentTestCorpus test_corpus s = Ok (segmentations, s') ->
  s' = s
  /\ Segmentation.nodes_ s' = Segmentation.nodes_ s
  /\ Segmentation.model_ s' = Segmentation.model_ s
  /\ SegmentTestCorpus test_corpus s' = Ok (segmentations, s').
Proof.
  intros E. assert (Es : s' = s) by exact (read_only_SegmentTestCorpus _ _ _ _ E).
  subst s'. repeat split; try reflexivity. exact E.
Qed.

End DecoderFrameProperty.

Section DecoderRuns.
Import Segmentation.

(** ** Facts about the logarithm at 2 *)

Lemma ln_2_pos : (0 < ln 2)%R.
Proof. rewrite <- ln_1. apply ln_increasing; lra. Qed.

Lemma ln_2_lt_1 : (ln 2 < 1)%R.
Proof.
  assert (H : (2 < exp 1)%R) by (pose proof (exp_ineq1 1); lra).
  rewrite <- (ln_exp 1). apply ln_increasing; lra.
Qed.

Lemma double_to_int_unit_interval (x : R) : (0 <= x < 1)%R -> double_to_int x = 0.
Proof.
  intros [H0 H1]. unfold double_to_int. destruct (Rle_dec 0 x); [|contradiction].
  unfold Int_part. rewrite <- (tech_up x 1); [reflexivity| |]; simpl; lra.
Qed.

Lemma double_to_int_between_1_2 (x : R) : (1 <= x < 2)%R -> double_to_int x = 1.
Proof.
  intros [H0 H1]. unfold double_to_int. destruct (Rle_dec 0 x); [|lra].
  unfold Int_part. rewrite <- (tech_up x 2); [reflexivity| |]; simpl; lra.
Qed.

(** ** The decoder on the model trained on a:1, b:1 *)

Lemma trained_ab_tokens : total_morph_tokens (Segmentation.model_ trained_ab) = 2.
Proof. vm_compute. reflexivity. Qed.

Lemma trained_ab_contains_a : Segmentation.contains "a" trained_ab = true.
Proof. vm_compute. reflexivity. Qed.

Lemma trained_ab_at_a : Segmentation.at_ "a" trained_ab = Ok (MorphNode_of 1).
Proof. vm_compute. reflexivity. Qed.

Lemma trained_ab_lacks_c : Segmentation.contains "c" trained_ab = false.
Proof. vm_compute. reflexivity. Qed.

Lemma candidate_cost_a (bad : R) :
  candidate_cost (std_log 2) bad "a" 1 trained_ab = Ok (Some 0, trained_ab).
Proof.
  unfold candidate_cost, bind, contains_, count_at, ret. cbn [obind fst snd].
  rewrite trained_ab_contains_a. cbn [obind fst snd].
  rewrite trained_ab_at_a. cbn [obind fst snd count MorphNode_of].
  rewrite double_to_int_unit_interval; [reflexivity|].
  unfold std_log. rewrite ln_1. pose proof ln_2_pos. pose proof ln_2_lt_1. lra.
Qed.

Lemma viterbi_tables_a :
  viterbi_tables (std_log 2) (mkMorph "a" 1) trained_ab
  = Ok (([0%R; (0 + IZR 0)%R], [O; 1%nat]), trained_ab).
Proof.
  unfold viterbi_tables.
  cbn [letters String.length seq repeat Nat.add for_each].
  unfold bind at 1. unfold advance at 1.
  cbn [seq for_each fst snd]. unfold bind at 1. unfold bind at 1.
  unfold consider. cbn [Nat.sub substr String.substring].
  unfold bind at 1. rewrite candidate_cost_a. cbn [obind fst snd].
  unfold bind at 1. unfold check at 1. cbn [Nat.leb Nat.ltb length assert obind fst snd andb].
  unfold ret at 1. cbn [obind fst snd nth].
  rewrite dlt_true.
  2:{ unfold std_log. pose proof ln_2_pos.
      change (Z.of_nat 1 + 1) with 2. lra. }
  unfold ret at 1. cbn [obind fst snd].
  unfold bind at 1. unfold check. cbn [Nat.leb Nat.ltb length assert obind fst snd andb].
  unfold ret. cbn [obind fst snd].
  reflexivity.
Qed.

Lemma decode_a :
  SegmentTestCorpus [mkMorph "a" 1] trained_ab = Ok (["a "], trained_ab).
Proof.
  unfold SegmentTestCorpus, bind at 1, token_count. cbn [obind fst snd].
  rewrite trained_ab_tokens. cbn [for_each].
  unfold bind at 1. unfold bind at 1. unfold segment_word. unfold bind at 1.
  rewrite viterbi_tables_a. cbn [obind fst snd letters String.length].
  cbn [backtrace nth Nat.sub assert Nat.ltb Nat.leb length andb obind substr
       String.substring String.append].
  unfold ret. cbn [obind fst snd app]. reflexivity.
Qed.


(** ** String facts *)

Lemma append_String (c : ascii) (x y : string) :
  (String c x ++ y)%string = String c (x ++ y)%string.
Proof. reflexivity. Qed.

Lemma append_nil_r (x : string) : (x ++ "")%string = x.
Proof. induction x as [|c x IH]; [reflexivity|]. rewrite append_String, IH. reflexivity. Qed.

Lemma append_assoc (x y z : string) : ((x ++ y) ++ z)%string = (x ++ y ++ z)%string.
Proof.
  induction x as [|c x IH]; [reflexivity|]. rewrite !append_String, IH. reflexivity.
Qed.

Lemma glued_snoc (l : list string) (x : string) :
  glued (l ++ [x]) = (glued l ++ x)%string.
Proof.
  induction l as [|y l IH]; simpl.
  - apply append_nil_r.
  - rewrite IH. symmetry. apply append_assoc.
Qed.

Lemma substring_append (w : string) (a n1 n2 : nat) :
  (a + n1 + n2 <= String.length w)%nat ->
  (String.substring a n1 w ++ String.substring (a + n1) n2 w)%string
  = String.substring a (n1 + n2) w.
Proof.
  revert a n1 n2. induction w as [|c w IH]; intros a n1 n2 Hlen; simpl in Hlen.
  - assert (a = O) by lia. assert (n1 = O) by lia. assert (n2 = O) by lia. subst.
    reflexivity.
  - destruct a as [|a].
    + destruct n1 as [|n1].
      * reflexivity.
      * cbn [String.substring Nat.add]. rewrite append_String. f_equal.
        apply (IH O n1 n2). lia.
    + cbn [String.substring Nat.add]. apply (IH a n1 n2). lia.
Qed.

Lemma substring_nil (w : string) (a : nat) :
  (a <= String.length w)%nat -> String.substring a 0 w = "".
Proof.
  revert a. induction w as [|c w IH]; intros [|a] Ha; simpl in *; try reflexivity; try lia.
  apply IH. lia.
Qed.

Lemma substring_length (w : string) (a n : nat) :
  (a + n <= String.length w)%nat -> String.length (String.substring a n w) = n.
Proof.
  revert a n. induction w as [|c w IH]; intros a n Hlen; simpl in Hlen.
  - assert (a = O) by lia. assert (n = O) by lia. subst. reflexivity.
  - destruct a as [|a].
    + destruct n as [|n]; [reflexivity|]. simpl. f_equal. apply IH. lia.
    + simpl. apply IH. lia.
Qed.

Lemma substring_all (w : string) : String.substring 0 (String.length w) w = w.
Proof. induction w as [|c w IH]; simpl; [reflexivity|]. f_equal. exact IH. Qed.

Lemma substring_prefix_suffix (w : string) (a : nat) :
  (a <= String.length w)%nat ->
  w = (String.substring 0 a w ++ String.substring a (String.length w - a) w)%string.
Proof.
  intros Ha. pose proof (substring_append w 0 a (String.length w - a)) as E.
  cbn [Nat.add] in E. rewrite E by lia.
  replace (a + (String.length w - a))%nat with (String.length w) by lia.
  symmetry. apply substring_all.
Qed.

(** ** The backtrace writes every morph followed by a space *)

Lemma backtrace_chosen_morphs (fuel : nat) (word : string) (psi : list nat) :
  forall (end_index : nat) (morphs : list string),
    backtrace fuel word psi end_index (spaced morphs)
    = (ms <- chosen_morphs fuel word psi end_index morphs ;; Ok (spaced ms)).
Proof.
  induction fuel as [|fuel IH]; intros end_index morphs; simpl.
  - destruct (nth end_index psi O); reflexivity.
  - destruct (nth end_index psi O) as [|len]; [reflexivity|].
    destruct (assert _); simpl; try reflexivity.
    apply (IH _ (substr word (end_index - S len) (S len) :: morphs)).
Qed.

(** ** The decoder always returns *)

Section DecoderTotal.
Context {M : Type} `{Model M}.
Variable s : Segmentation.t M.

Lemma candidate_cost_total ltc bad morph len :
  exists c, candidate_cost ltc bad morph len s = Ok (c, s).
Proof.
  unfold candidate_cost, bind, contains_, count_at, ret. cbn [obind fst snd].
  destruct (Segmentation.contains morph s) eqn:Ec; cbn [obind fst snd].
  - unfold Segmentation.contains in Ec. apply bool_decide_eq_true in Ec.
    destruct Ec as [n En]. unfold at_. rewrite En. cbn [obind fst snd]. eauto.
  - destruct (len =? 1)%nat; eauto.
Qed.

Lemma consider_total word ltc bad delta e best len :
  (len <= e)%nat -> (e < length delta)%nat ->
  exists best', consider word ltc bad delta e best len s = Ok (best', s)
                /\ (best'.2 = best.2 \/ best'.2 = len).
Proof.
  intros Hlen He. unfold consider, bind.
  destruct (candidate_cost_total ltc bad (substr word (e - len) len) len) as [c Ec].
  rewrite Ec. cbn [obind fst snd]. destruct c as [c|].
  - unfold check. replace ((len <=? e)%nat && (e - len <? length delta)%nat) with true.
    2:{ symmetry. apply andb_true_iff. split;
        [apply Nat.leb_le; lia|apply Nat.ltb_lt; lia]. }
    cbn [assert obind fst snd]. unfold ret.
    destruct (dlt _ _); eexists; split; try reflexivity; simpl; auto.
  - unfold ret. eexists; split; [reflexivity|]. auto.
Qed.

Lemma for_each_consider_total word ltc bad delta e (lens : list nat) :
  (e < length delta)%nat ->
  Forall (fun len => 1 <= len <= e)%nat lens ->
  forall best, exists best',
    for_each (consider word ltc bad delta e) lens best s = Ok (best', s)
    /\ (best'.2 = best.2 \/ (1 <= best'.2 <= e)%nat).
Proof.
  intros He Hl. induction Hl as [|len lens Hlen Hl IH]; intros best; simpl.
  - unfold ret. eexists; split; [reflexivity|]. auto.
  - unfold bind.
    destruct (consider_total word ltc bad delta e best len) as (b1 & E1 & H1); try lia.
    rewrite E1. cbn [obind fst snd].
    destruct (IH b1) as (b2 & E2 & H2). exists b2. split; [exact E2|].
    destruct H2 as [H2|H2]; [|right; exact H2].
    rewrite H2. destruct H1 as [H1|H1]; [left; exact H1|right; lia].
Qed.

Lemma advance_total word ltc bad pinf n tables e :
  tables_ok n tables -> (1 <= e <= n)%nat ->
  exists tables', advance word ltc bad pinf tables e s = Ok (tables', s)
                  /\ tables_ok n tables'.
Proof.
  intros (Hd & Hp & Hj) He. unfold advance, bind.
  destruct (for_each_consider_total word ltc bad tables.1 e (seq 1 e)) with (best := (pinf, O))
    as (best & Eb & Hb).
  { lia. }
  { apply Forall_forall. intros x Hx. apply list_elem_of_In, in_seq in Hx. lia. }
  rewrite Eb. cbn [obind fst snd]. unfold check.
  replace ((0 <? e)%nat && (e <? length tables.1)%nat) with true.
  2:{ symmetry. apply andb_true_iff. split; apply Nat.ltb_lt; lia. }
  cbn [assert obind fst snd]. unfold ret. eexists. split; [reflexivity|].
  unfold tables_ok. cbn [fst snd]. rewrite !length_insert.
  repeat split; try assumption.
  intros j. rewrite nth_lookup. destruct (Nat.eq_dec e j) as [->|Hne].
  - rewrite list_lookup_insert_eq by lia. simpl. simpl in Hb. lia.
  - rewrite list_lookup_insert_ne by exact Hne. rewrite <- nth_lookup. apply Hj.
Qed.

Lemma for_each_advance_total word ltc bad pinf n (es : list nat) :
  Forall (fun e => 1 <= e <= n)%nat es ->
  forall tables, tables_ok n tables ->
  exists tables', for_each (advance word ltc bad pinf) es tables s = Ok (tables', s)
                  /\ tables_ok n tables'.
Proof.
  intros He. induction He as [|e es He Hes IH]; intros tables Ht; simpl.
  - unfold ret. eauto.
  - unfold bind. destruct (advance_total word ltc bad pinf n tables e Ht He) as (t1 & E1 & H1).
    rewrite E1. cbn [obind fst snd]. apply IH. exact H1.
Qed.

Lemma viterbi_tables_total ltc w :
  exists tables, viterbi_tables ltc w s = Ok (tables, s)
                 /\ tables_ok (String.length (letters w)) tables.
Proof.
  unfold viterbi_tables. apply for_each_advance_total.
  - apply Forall_forall. intros x Hx. apply list_elem_of_In, in_seq in Hx. lia.
  - unfold tables_ok. cbn [fst snd]. rewrite !repeat_length.
    repeat split; try lia.
    intros j. destruct (Nat.lt_ge_cases j (String.length (letters w) + 1)) as [Hlt|Hge].
    + rewrite nth_repeat_lt by exact Hlt. lia.
    + rewrite nth_overflow by (rewrite repeat_length; lia). lia.
Qed.

End DecoderTotal.

End DecoderRuns.

Section DecoderResults.
Import Segmentation.

(** ** The entries of the decoder *)

Section DecoderEntries.
Context {M : Type} `{Model M}.
Variable s : Segmentation.t M.


End DecoderEntries.



(** ** The cost charged for a candidate *)

Lemma two_ln_2_range : (1 < 2 * ln 2 < 2)%R.
Proof.
  split; [|pose proof ln_2_lt_1; lra].
  assert (Hexp : (exp (1 / 2) < 2)%R).
  { assert (H3 := exp_le_3).
    assert (Hsq : (exp (1 / 2) * exp (1 / 2) = exp 1)%R)
      by (rewrite <- exp_plus; f_equal; lra).
    assert (Hpos := exp_pos (1 / 2)).
    destruct (Rlt_or_le (exp (1 / 2)) 2) as [Hlt|Hge]; [exact Hlt|].
    assert ((2 * 2 <= exp (1 / 2) * exp (1 / 2))%R) by (apply Rmult_le_compat; lra).
    lra. }
  assert (Hln : (1 / 2 < ln 2)%R).
  { rewrite <- (ln_exp (1 / 2)). apply ln_increasing; [apply exp_pos|exact Hexp]. }
  lra.
Qed.

(** C6: on the model trained on a:1, b:1 (two tokens) and a word of
    one character, the cost charged for the known leaf "a" is 0 where
    the claim says [ln 2 - ln 1], and the cost charged for the unknown
    character "c" is 1 where the claim says [2 * ln 2]: both values are
    converted to [int] when they are stored in [morph_cost]. *)
Theorem charged_costs_are_truncated :
  candidate_cost (std_log 2) (IZR 2 * std_log 2) "a" 1 trained_ab
  = Ok (Some 0, trained_ab)
  /\ IZR 0 <> (std_log 2 - std_log 1)%R
  /\ candidate_cost (std_log 2) (IZR 2 * std_log 2) "c" 1 trained_ab
     = Ok (Some 1, trained_ab)
  /\ IZR 1 <> (IZR 2 * std_log 2)%R.
Proof.
  split; [apply candidate_cost_a|].
  split.
  { unfold std_log. rewrite ln_1. pose proof ln_2_pos. lra. }
  split.
  { unfold candidate_cost, bind, contains_, ret. cbn [obind fst snd].
    rewrite trained_ab_lacks_c. cbn [Nat.eqb].
    rewrite double_to_int_between_1_2; [reflexivity|].
    unfold std_log. pose proof two_ln_2_range. lra. }
  unfold std_log. pose proof two_ln_2_range. lra.
Qed.

Lemma SegmentTestCorpus_read_only_deterministic_witness :
  SegmentTestCorpus [mkMorph "a" 1] trained_ab = Ok (["a "], trained_ab)
  /\ trained_ab = trained_ab
  /\ Segmentation.nodes_ trained_ab = Segmentation.nodes_ trained_ab
  /\ Segmentation.model_ trained_ab = Segmentation.model_ trained_ab
  /\ SegmentTestCorpus [mkMorph "a" 1] trained_ab = Ok (["a "], trained_ab).
Proof.
  split; [exact decode_a|].
  exact (SegmentTestCorpus_read_only_deterministic
           [mkMorph "a" 1] trained_ab trained_ab ["a "] decode_a).
Defined.

End DecoderResults.

(** ** The order of the costs *)



(** ** The loop of [ResplitNode] over the split positions *)

Section SplitSelection.
Context {M : Type} `{Model M}.

(** One turn of the loop: both halves are added, the cost is read and
    compared, both halves are taken away again. *)
Lemma try_split_turn (morph : string) (frequency : Z)
    (s s' : Segmentation.t M) (best best' : double * nat) (split_index : nat) :
  Segmentation.try_split morph frequency (Ok (s, best)) split_index = Ok (s', best') ->
  exists s1 s2,
    Segmentation.adjust (substr morph 0 split_index)
      (Segmentation.plus_frequency frequency) s = Ok s1
    /\ Segmentation.adjust (substr_from morph split_index)
         (Segmentation.plus_frequency frequency) s1 = Ok s2
    /\ ((dless (overall_cost (Segmentation.model_ s2)) best.1
         /\ best' = (overall_cost (Segmentation.model_ s2), split_index))
        \/ (~ dless (overall_cost (Segmentation.model_ s2)) best.1 /\ best' = best)).
Proof.
  unfold Segmentation.try_split. cbn [obind fst snd].
  destruct (Segmentation.adjust (substr morph 0 split_index) _ s) as [s1| |] eqn:E1;
    cbn [obind]; try discriminate.
  destruct (Segmentation.adjust (substr_from morph split_index) _ s1) as [s2| |] eqn:E2;
    cbn [obind]; try discriminate.
  destruct (Segmentation.adjust (substr morph 0 split_index) _ s2) as [s3| |];
    cbn [obind]; try discriminate.
  destruct (Segmentation.adjust (substr_from morph split_index) _ s3) as [s4| |];
    cbn [obind]; try discriminate.
  intros E. inversion E; subst; clear E. exists s1, s2.
  split; [first [reflexivity|exact E1]|]. split; [first [reflexivity|exact E2]|].
  destruct (d_lt (overall_cost (Segmentation.model_ s2)) best.1) eqn:Hd.
  - left. split; [apply d_lt_spec; exact Hd|reflexivity].
  - right. split; [|reflexivity]. intros Hl. apply d_lt_spec in Hl. congruence.
Qed.

Lemma try_split_failed (morph : string) (frequency : Z) (split_index : nat)
    (acc : outcome (Segmentation.t M * (double * nat))) :
  (forall a, acc <> Ok a) ->
  forall a, Segmentation.try_split morph frequency acc split_index <> Ok a.
Proof.
  intros Hacc a. unfold Segmentation.try_split.
  destruct acc as [x| |]; cbn [obind]; try discriminate.
  exfalso. exact (Hacc x eq_refl).
Qed.

Lemma fold_try_split_failed (morph : string) (frequency : Z) (indices : list nat) :
  forall acc, (forall a, acc <> Ok a) ->
  forall a, fold_left (Segmentation.try_split morph frequency) indices acc <> Ok a.
Proof.
  induction indices as [|k ks IH]; intros acc Hacc a; cbn [fold_left].
  - apply Hacc.
  - apply IH. apply try_split_failed. exact Hacc.
Qed.

(** The position the loop hands back is one it went through. *)
Lemma fold_try_split_index (morph : string) (frequency : Z) (indices : list nat) :
  forall (s s' : Segmentation.t M) (best best' : double * nat),
    fold_left (Segmentation.try_split morph frequency) indices (Ok (s, best))
    = Ok (s', best') ->
    best'.2 = best.2 \/ In best'.2 indices.
Proof.
  induction indices as [|k ks IH]; intros s s' best best' E; cbn [fold_left] in E.
  - inversion E. left. reflexivity.
  - destruct (Segmentation.try_split morph frequency (Ok (s, best)) k)
      as [[s1 best1]| |] eqn:E1.
    + destruct (try_split_turn _ _ _ _ _ _ _ E1) as (sa & sb & _ & _ & [[_ Hb]|[_ Hb]]);
        subst best1; destruct (IH _ _ _ _ E) as [Hk|Hin]; cbn [snd] in *.
      * right. left. symmetry. exact Hk.
      * right. right. exact Hin.
      * left. exact Hk.
      * right. right. exact Hin.
    + exfalso. eapply fold_try_split_failed; [|exact E]. intros a; discriminate.
    + exfalso. eapply fold_try_split_failed; [|exact E]. intros a; discriminate.
Qed.


End SplitSelection.

Section CertifiedComparison.
Import BaselineModel.

(** ** Bounds on [ln 2] *)

Lemma ln_le (x y : R) : (0 < x)%R -> (x <= y)%R -> (ln x <= ln y)%R.
Proof.
  intros Hx [Hlt | ->]; [|lra]. left. apply ln_increasing; assumption.
Qed.

Lemma exp_pow (y : R) (n : nat) : exp (INR n * y) = (exp y ^ n)%R.
Proof.
  induction n as [|n IH].
  - simpl. rewrite Rmult_0_l. apply exp_0.
  - rewrite S_INR. replace ((INR n + 1) * y)%R with (INR n * y + y)%R by ring.
    rewrite exp_plus, IH. simpl. ring.
Qed.

Lemma exp_ge_pow (y : R) (n : nat) :
  (0 <= 1 + y)%R -> ((1 + y) ^ n <= exp (INR n * y))%R.
Proof.
  intros Hy. rewrite exp_pow. apply pow_incr. split; [exact Hy|apply exp_ineq1_le].
Qed.

(** [c / d <= (a / b) ^ n] from the same comparison on integers. *)
Lemma ratio_pow_ge (a b c d : Z) (n : nat) :
  0 < b -> 0 < d -> c * b ^ Z.of_nat n <= d * a ^ Z.of_nat n ->
  (IZR c / IZR d <= (IZR a / IZR b) ^ n)%R.
Proof.
  intros Hb Hd Hle.
  assert (HbR : (0 < IZR b)%R) by (apply IZR_lt; exact Hb).
  assert (HdR : (0 < IZR d)%R) by (apply IZR_lt; exact Hd).
  assert (HbnR : (0 < IZR b ^ n)%R) by (apply pow_lt; exact HbR).
  unfold Rdiv at 2. rewrite Rpow_mult_distr, pow_inv.
  apply IZR_le in Hle. rewrite !mult_IZR, <- !pow_IZR in Hle.
  apply (Rmult_le_reg_r (IZR d * IZR b ^ n)); [apply Rmult_lt_0_compat; assumption|].
  replace (IZR c / IZR d * (IZR d * IZR b ^ n))%R with (IZR c * IZR b ^ n)%R
    by (field; lra).
  replace (IZR a ^ n * / IZR b ^ n * (IZR d * IZR b ^ n))%R with (IZR d * IZR a ^ n)%R
    by (field; lra).
  exact Hle.
Qed.

Lemma INR_256 : INR 256 = 256%R.
Proof. rewrite INR_IZR_INZ. f_equal. Qed.

Lemma ln_2_upper : (ln 2 <= 25 / 36)%R.
Proof.
  rewrite <- (ln_exp (25 / 36)). apply ln_le; [lra|].
  replace (25 / 36)%R with (INR 256 * (25 / 9216))%R by (rewrite INR_256; lra).
  eapply Rle_trans; [|apply exp_ge_pow; lra].
  replace (1 + 25 / 9216)%R with (IZR 9241 / IZR 9216)%R by lra.
  replace 2%R with (IZR 2 / IZR 1)%R by lra.
  apply ratio_pow_ge; [lia|lia|vm_compute; discriminate].
Qed.

Lemma ln_2_lower : (20 / 29 <= ln 2)%R.
Proof.
  rewrite <- (ln_exp (20 / 29)). apply ln_le; [apply exp_pos|].
  assert (Hhalf : (1 / 2 <= exp (- (20 / 29)))%R).
  { replace (- (20 / 29))%R with (INR 256 * (- (20 / 7424)))%R
      by (rewrite INR_256; lra).
    eapply Rle_trans; [|apply exp_ge_pow; lra].
    replace (1 + - (20 / 7424))%R with (IZR 7404 / IZR 7424)%R by lra.
    replace (1 / 2)%R with (IZR 1 / IZR 2)%R by lra.
    apply ratio_pow_ge; [lia|lia|vm_compute; discriminate]. }
  rewrite exp_Ropp in Hhalf.
  assert (Hpos := exp_pos (20 / 29)).
  apply (Rmult_le_compat_r (exp (20 / 29))) in Hhalf; [|lra].
  rewrite Rinv_l in Hhalf by lra. lra.
Qed.

Lemma inv_ln_2_bounds : (36 / 25 <= / ln 2 <= 29 / 20)%R.
Proof.
  pose proof ln_2_lower as Hl. pose proof ln_2_upper as Hu.
  assert (Hpos : (0 < ln 2)%R) by lra.
  split.
  - replace (36 / 25)%R with (/ (25 / 36))%R by lra.
    apply Rinv_le_contravar; assumption.
  - replace (29 / 20)%R with (/ (20 / 29))%R by lra.
    apply Rinv_le_contravar; [lra|assumption].
Qed.

(** ** Logarithms of integer powers and products *)

Lemma std_log2_mult (x y : R) :
  (0 < x)%R -> (0 < y)%R -> std_log2 (x * y) = (std_log2 x + std_log2 y)%R.
Proof.
  intros Hx Hy. unfold std_log2. rewrite ln_mult by assumption.
  pose proof ln_2_pos. field. lra.
Qed.

Lemma std_log2_1 : std_log2 1 = 0%R.
Proof. unfold std_log2. rewrite ln_1. pose proof ln_2_pos. field. lra. Qed.

Lemma std_log2_Zpow (n c : Z) :
  1 <= n -> 0 <= c -> std_log2 (IZR (n ^ c)) = (IZR c * std_log2 (IZR n))%R.
Proof.
  intros Hn Hc. rewrite <- (Z2Nat.id c) at 1 by exact Hc.
  rewrite <- pow_IZR. unfold std_log2.
  rewrite ln_pow by (apply IZR_lt; lia).
  rewrite INR_IZR_INZ, Z2Nat.id by exact Hc.
  pose proof ln_2_pos. field. lra.
Qed.

Lemma std_log2_two_pow (c : Z) : 0 <= c -> std_log2 (IZR (2 ^ c)) = IZR c.
Proof.
  intros Hc. rewrite std_log2_Zpow by lia. unfold std_log2.
  pose proof ln_2_pos. field. lra.
Qed.

Lemma std_log2_lt (x y : Z) : 0 < x -> x < y -> (std_log2 (IZR x) < std_log2 (IZR y))%R.
Proof.
  intros Hx Hxy. unfold std_log2. pose proof ln_2_pos.
  apply Rmult_lt_compat_r; [apply Rinv_0_lt_compat; lra|].
  apply ln_increasing; [apply IZR_lt; lia|apply IZR_lt; exact Hxy].
Qed.

Lemma numerator_pos (l : list (Z * Z)) : form_valid {| e_coef := 0; log_terms := l |} = true ->
  1 <= numerator l /\ 1 <= denominator l.
Proof.
  unfold form_valid. simpl. induction l as [|[c n] l IH]; simpl; intros Hv; [lia|].
  apply andb_true_iff in Hv. destruct Hv as [Hn Hv]. apply Z.leb_le in Hn.
  destruct (IH Hv) as [H1 H2].
  assert (Hp : forall k, 0 <= k -> 1 <= n ^ k).
  { intros k Hk. assert (0 < n ^ k) by (apply Z.pow_pos_nonneg; lia). lia. }
  split.
  - destruct (Z.ltb_spec 0 c); [|lia]. specialize (Hp c). nia.
  - destruct (Z.ltb_spec c 0); [|lia]. specialize (Hp (- c)). nia.
Qed.

(** The logarithmic terms add up to [log2 (numerator / denominator)]. *)
Lemma terms_value_ratio (l : list (Z * Z)) :
  form_valid {| e_coef := 0; log_terms := l |} = true ->
  terms_value l
  = (std_log2 (IZR (numerator l)) - std_log2 (IZR (denominator l)))%R.
Proof.
  induction l as [|[c n] l IH]; intros Hv.
  - simpl. rewrite std_log2_1. lra.
  - pose proof (numerator_pos _ Hv) as [HN HD].
    unfold form_valid in Hv. simpl in Hv.
    apply andb_true_iff in Hv. destruct Hv as [Hn Hv]. apply Z.leb_le in Hn.
    pose proof (numerator_pos l Hv) as [HN' HD'].
    specialize (IH Hv).
    cbn [terms_value fold_right numerator denominator fst snd].
    fold (terms_value l). fold (numerator l). fold (denominator l).
    rewrite IH. unfold term_value. cbn [fst snd].
    assert (Hp : forall k, 0 <= k -> 0 < n ^ k) by (intros; apply Z.pow_pos_nonneg; lia).
    rewrite !mult_IZR.
    destruct (Z.ltb_spec 0 c) as [Hc|Hc]; destruct (Z.ltb_spec c 0) as [Hc'|Hc']; try lia.
    + rewrite !std_log2_mult by (apply IZR_lt; try lia; apply Hp; lia).
      rewrite std_log2_Zpow, std_log2_1 by lia. lra.
    + rewrite !std_log2_mult by (apply IZR_lt; try lia; apply Hp; lia).
      rewrite std_log2_Zpow, std_log2_1 by lia. rewrite opp_IZR. lra.
    + assert (c = 0) by lia. subst c.
      rewrite !std_log2_mult by (apply IZR_lt; lia). rewrite std_log2_1. lra.
Qed.

Lemma terms_value_app (l1 l2 : list (Z * Z)) :
  terms_value (l1 ++ l2) = (terms_value l1 + terms_value l2)%R.
Proof.
  unfold terms_value. induction l1 as [|x l1 IH]; simpl; [lra|]. rewrite IH. lra.
Qed.

Lemma terms_value_negate (l : list (Z * Z)) :
  terms_value (map negate_term l) = (- terms_value l)%R.
Proof.
  unfold terms_value. induction l as [|[c n] l IH]; simpl; [lra|].
  rewrite IH. unfold term_value, negate_term. simpl. rewrite opp_IZR. lra.
Qed.

Lemma form_value_sub (a b : linear_form) :
  form_value (form_sub a b) = (form_value a - form_value b)%R.
Proof.
  unfold form_value, form_sub. simpl.
  rewrite terms_value_app, terms_value_negate, minus_IZR.
  pose proof ln_2_pos. field. lra.
Qed.

(** ** Collecting terms *)

Lemma terms_value_add_term (cn : Z * Z) (l : list (Z * Z)) :
  terms_value (add_term cn l) = (term_value cn + terms_value l)%R.
Proof.
  induction l as [|[d m] l IH]; cbn [add_term terms_value fold_right fst snd].
  - reflexivity.
  - destruct (Z.eqb_spec m cn.2) as [->|Hne];
      cbn [terms_value fold_right]; fold (terms_value l).
    + unfold term_value. cbn [fst snd]. rewrite plus_IZR. lra.
    + fold (terms_value (add_term cn l)). rewrite IH. lra.
Qed.

Lemma terms_value_collect (l : list (Z * Z)) :
  terms_value (collect l) = terms_value l.
Proof.
  induction l as [|cn l IH]; [reflexivity|].
  cbn [collect fold_right]. fold (collect l).
  rewrite terms_value_add_term, IH. reflexivity.
Qed.

Lemma add_term_valid (cn : Z * Z) (l : list (Z * Z)) :
  1 <= cn.2 ->
  forallb (fun dm : Z * Z => 1 <=? dm.2) l = true ->
  forallb (fun dm : Z * Z => 1 <=? dm.2) (add_term cn l) = true.
Proof.
  intros Hn. induction l as [|[d m] l IH]; cbn [add_term forallb fst snd]; intros Hv.
  - apply andb_true_iff. split; [apply Z.leb_le; exact Hn|reflexivity].
  - apply andb_true_iff in Hv. destruct Hv as [Hm Hv].
    destruct (Z.eqb_spec m cn.2); cbn [forallb fst snd];
      apply andb_true_iff; split; auto.
Qed.

Lemma collect_valid (l : list (Z * Z)) :
  forallb (fun dm : Z * Z => 1 <=? dm.2) l = true ->
  forallb (fun dm : Z * Z => 1 <=? dm.2) (collect l) = true.
Proof.
  induction l as [|cn l IH]; cbn [collect fold_right forallb]; intros Hv; [reflexivity|].
  apply andb_true_iff in Hv. destruct Hv as [Hn Hv]. apply Z.leb_le in Hn.
  apply add_term_valid; [exact Hn|apply IH; exact Hv].
Qed.

(** ** Soundness of the certified comparison *)

Lemma inv_ln_2_coarse : (7 / 5 <= / ln 2 <= 3 / 2)%R.
Proof. pose proof inv_ln_2_bounds. lra. Qed.

Lemma surely_negative_sound (f : linear_form) :
  surely_negative f = true -> (form_value f < 0)%R.
Proof.
  unfold surely_negative. intros Hs.
  apply andb_true_iff in Hs. destruct Hs as [Hv Hcmp].
  assert (Hv' : form_valid {| e_coef := 0; log_terms := collect (log_terms f) |} = true)
    by (apply collect_valid; exact Hv).
  pose proof (numerator_pos _ Hv') as [HP HQ].
  unfold form_value. rewrite <- terms_value_collect, (terms_value_ratio _ Hv').
  set (P := numerator (collect (log_terms f))) in *.
  set (Q := denominator (collect (log_terms f))) in *.
  pose proof inv_ln_2_coarse as [Hlo Hhi].
  destruct (Z.leb_spec 0 (e_coef f)) as [He|He]; apply Z.ltb_lt in Hcmp.
  - assert (HPpos : 0 < P ^ 2 * 2 ^ (3 * e_coef f)).
    { apply Z.mul_pos_pos; apply Z.pow_pos_nonneg; lia. }
    pose proof (std_log2_lt _ _ HPpos Hcmp) as Hlog.
    rewrite mult_IZR in Hlog.
    rewrite std_log2_mult in Hlog
      by (apply IZR_lt; apply Z.pow_pos_nonneg; lia).
    rewrite std_log2_two_pow in Hlog by lia.
    rewrite !std_log2_Zpow in Hlog by lia.
    rewrite mult_IZR in Hlog.
    assert (Hebound : (IZR (e_coef f) / ln 2 <= IZR (e_coef f) * (3 / 2))%R).
    { unfold Rdiv at 1. apply Rmult_le_compat_l; [apply IZR_le; exact He|exact Hhi]. }
    lra.
  - assert (HPpos : 0 < P ^ 5) by (apply Z.pow_pos_nonneg; lia).
    pose proof (std_log2_lt _ _ HPpos Hcmp) as Hlog.
    rewrite mult_IZR in Hlog.
    rewrite std_log2_mult in Hlog
      by (apply IZR_lt; apply Z.pow_pos_nonneg; lia).
    rewrite std_log2_two_pow in Hlog by lia.
    rewrite !std_log2_Zpow in Hlog by lia.
    rewrite mult_IZR, opp_IZR in Hlog.
    assert (Hebound : (IZR (e_coef f) / ln 2 <= IZR (e_coef f) * (7 / 5))%R).
    { assert (Hneg : (IZR (e_coef f) < 0)%R) by (apply IZR_lt; exact He).
      unfold Rdiv at 1. generalize dependent (/ ln 2)%R. intros y Hlo Hhi. nra. }
    lra.
Qed.

Lemma surely_lt_sound (a b : linear_form) :
  surely_lt a b = true -> (form_value a < form_value b)%R.
Proof.
  intros Hs. apply surely_negative_sound in Hs. rewrite form_value_sub in Hs. lra.
Qed.

End CertifiedComparison.

Section CertifiedReplay.
Import BaselineModel.

(** ** The cost of the Baseline model as a linear form *)

Lemma terms_value_cons (cn : Z * Z) (l : list (Z * Z)) :
  terms_value (cn :: l) = (IZR cn.1 * std_log2 (IZR cn.2) + terms_value l)%R.
Proof. reflexivity. Qed.

Lemma terms_value_nil : terms_value [] = 0%R.
Proof. reflexivity. Qed.

Lemma census_sum_terms {K : Type} (f : K -> Z -> R) (g : K * Z -> list (Z * Z))
    (l : list (K * Z)) :
  (forall kv, f kv.1 kv.2 = terms_value (g kv)) ->
  census_sum f l = terms_value (flat_map g l).
Proof.
  intros Hfg. induction l as [|kv l IH]; simpl; [reflexivity|].
  rewrite terms_value_app, <- IH, <- Hfg. reflexivity.
Qed.

Lemma cost_as_form (m : t) : cost m = form_value (cost_form m).
Proof.
  unfold cost, lexicon_cost, form_value, cost_form. cbn [e_coef log_terms].
  rewrite !terms_value_app.
  assert (Horder : lexicon_order_cost m
                   = Rplus (IZR (types m) / ln 2)%R (terms_value [(- types m, types m)])).
  { unfold lexicon_order_cost. rewrite terms_value_cons, terms_value_nil. cbn [fst snd].
    rewrite opp_IZR. unfold std_log2. pose proof ln_2_pos. field. lra. }
  assert (Hfreq : frequency_cost m
                  = terms_value
                      (if tokens m <? 100
                       then [(1, binomial (Z.to_nat (tokens m - 1)) (Z.to_nat (types m - 1)))]
                       else [(tokens m - 1, tokens m - 2);
                             (- (types m - 1), types m - 2);
                             (- (tokens m - types m), tokens m - types m - 1)])).
  { unfold frequency_cost. destruct (tokens m <? 100);
      rewrite !terms_value_cons, terms_value_nil; cbn [fst snd];
      rewrite ?opp_IZR; lra. }
  assert (Hlen : length_cost m
                 = terms_value [(types m, letters_total m); (- types m, end_marker_n m)]).
  { unfold length_cost, end_marker_cost.
    rewrite !terms_value_cons, terms_value_nil. cbn [fst snd]. rewrite opp_IZR. lra. }
  assert (Hstr : morph_string_cost m
                 = terms_value
                     (flat_map (fun kv : ascii * Z =>
                                  [(kv.2, letters_total m);
                                   (- kv.2, default 0 (letter_n m !! kv.1))])
                        (map_to_list (letter_census m)))).
  { unfold morph_string_cost. apply census_sum_terms. intros kv.
    unfold letter_cost. rewrite !terms_value_cons, terms_value_nil. cbn [fst snd].
    rewrite opp_IZR. lra. }
  assert (Hcorpus : corpus_cost m
                    = terms_value
                        (flat_map (fun kv : Z * Z =>
                                     [(kv.2 * kv.1, tokens m); (- (kv.2 * kv.1), kv.1)])
                           (map_to_list (count_census m)))).
  { unfold corpus_cost. apply census_sum_terms. intros kv.
    rewrite !terms_value_cons, terms_value_nil. cbn [fst snd].
    rewrite opp_IZR. lra. }
  rewrite Horder, Hfreq, Hlen, Hstr, Hcorpus. lra.
Qed.

Lemma cost_lt_real (m1 m2 : t) :
  surely_lt (cost_form m1) (cost_form m2) = true -> (cost m1 < cost m2)%R.
Proof.
  intros Hs. rewrite !cost_as_form. apply surely_lt_sound. exact Hs.
Qed.


(** ** The certified loop decides as the loop of the source does *)

Lemma try_split_certified_sound (morph : string) (frequency : Z)
    (s s' : Segmentation.t t) (best best' : t * nat) (split_index : nat) :
  try_split_certified morph frequency (Ok (s, best)) split_index = Ok (s', best') ->
  Segmentation.try_split morph frequency (Ok (s, (overall_cost best.1, best.2))) split_index
  = Ok (s', (overall_cost best'.1, best'.2)).
Proof.
  unfold try_split_certified, Segmentation.try_split. cbn [obind fst snd].
  destruct (Segmentation.adjust (substr morph 0 split_index) _ s) as [s1| |];
    cbn [obind]; try discriminate.
  destruct (Segmentation.adjust (substr_from morph split_index) _ s1) as [s2| |];
    cbn [obind]; try discriminate.
  destruct (surely_lt (cost_form (Segmentation.model_ s2)) (cost_form best.1)) eqn:Hlt.
  - apply cost_lt_real in Hlt. cbn [obind overall_cost model d_lt].
    rewrite (dlt_true _ _ Hlt).
    destruct (Segmentation.adjust (substr morph 0 split_index) _ s2) as [s3| |];
      cbn [obind]; try discriminate.
    destruct (Segmentation.adjust (substr_from morph split_index) _ s3) as [s4| |];
      cbn [obind]; try discriminate.
    intros E. inversion E; subst. reflexivity.
  - destruct (surely_lt (cost_form best.1) (cost_form (Segmentation.model_ s2))) eqn:Hgt;
      cbn [obind]; try discriminate.
    apply cost_lt_real in Hgt. cbn [overall_cost model d_lt].
    rewrite (dlt_false (cost (Segmentation.model_ s2)) (cost best.1))
      by (left; exact Hgt).
    destruct (Segmentation.adjust (substr morph 0 split_index) _ s2) as [s3| |];
      cbn [obind]; try discriminate.
    destruct (Segmentation.adjust (substr_from morph split_index) _ s3) as [s4| |];
      cbn [obind]; try discriminate.
    intros E. inversion E; subst. destruct best'. reflexivity.
Qed.

Lemma try_split_certified_failed (morph : string) (frequency : Z) (indices : list nat) :
  forall acc, (forall a, acc <> Ok a) ->
  forall a, fold_left (try_split_certified morph frequency) indices acc <> Ok a.
Proof.
  induction indices as [|k ks IH]; intros acc Hacc a; cbn [fold_left].
  - apply Hacc.
  - apply IH. intros x. unfold try_split_certified.
    destruct acc as [y| |]; cbn [obind]; try discriminate.
    exfalso. exact (Hacc y eq_refl).
Qed.

Lemma fold_try_split_certified_sound (morph : string) (frequency : Z) (indices : list nat) :
  forall (s s' : Segmentation.t t) (best best' : t * nat),
    fold_left (try_split_certified morph frequency) indices (Ok (s, best)) = Ok (s', best') ->
    fold_left (Segmentation.try_split morph frequency) indices
      (Ok (s, (overall_cost best.1, best.2)))
    = Ok (s', (overall_cost best'.1, best'.2)).
Proof.
  induction indices as [|k ks IH]; intros s s' best best' E; cbn [fold_left] in *.
  - inversion E; subst. reflexivity.
  - destruct (try_split_certified morph frequency (Ok (s, best)) k) as [[s1 best1]| |] eqn:E1.
    + rewrite (try_split_certified_sound _ _ _ _ _ _ _ E1). apply IH. exact E.
    + exfalso. eapply try_split_certified_failed; [|exact E]. intros a; discriminate.
    + exfalso. eapply try_split_certified_failed; [|exact E]. intros a; discriminate.
Qed.

Lemma best_of_splits_certified_sound (morph : string) (frequency : Z)
    (unsplit removed s' : Segmentation.t t) (best : t * nat) :
  best_of_splits_certified morph frequency unsplit removed = Ok (s', best) ->
  Segmentation.best_of_splits morph frequency unsplit removed
  = Ok (s', (overall_cost best.1, best.2)).
Proof.
  unfold best_of_splits_certified, Segmentation.best_of_splits. intros E.
  apply (fold_try_split_certified_sound _ _ _ _ _ _ _ E).
Qed.

Lemma choose_split_certified_sound (morph : string) (frequency : Z)
    (unsplit removed : Segmentation.t t) (r : Segmentation.t t * nat) :
  choose_split_certified morph frequency unsplit removed = Ok r ->
  Segmentation.choose_split morph frequency unsplit removed = Ok r.
Proof.
  unfold choose_split_certified, Segmentation.choose_split.
  destruct (best_of_splits_certified morph frequency unsplit removed)
    as [[s' best]| |] eqn:E; cbn [obind]; try discriminate.
  rewrite (best_of_splits_certified_sound _ _ _ _ _ _ E). cbn [obind fst snd].
  intros H. exact H.
Qed.

(** ** Replaying a run with another loop over the split positions *)

Section Replay.
Context {M : Type} `{Model M}.
Variables choose1 choose2 : string -> Z -> Segmentation.t M -> Segmentation.t M
                            -> outcome (Segmentation.t M * nat).
Hypothesis choose_agree :
  forall morph frequency unsplit removed r,
    choose1 morph frequency unsplit removed = Ok r ->
    choose2 morph frequency unsplit removed = Ok r.

Lemma ResplitNode_with_replay (fuel : nat) :
  forall (morph : string) (s s' : Segmentation.t M),
    Segmentation.ResplitNode_with choose1 fuel morph s = Ok s' ->
    Segmentation.ResplitNode_with choose2 fuel morph s = Ok s'.
Proof.
  induction fuel as [|fuel IH]; intros morph s s'; [discriminate|].
  cbn [Segmentation.ResplitNode_with].
  destruct (assert (negb (str_empty morph))); cbn [obind]; try discriminate.
  destruct (Segmentation.at_ morph s) as [node| |]; cbn [obind]; try discriminate.
  destruct (if Segmentation.contains morph s then _ else _) as [s1| |];
    cbn [obind]; try discriminate.
  destruct (Segmentation.adjust morph _ s1) as [unsplit| |]; cbn [obind]; try discriminate.
  destruct (Segmentation.adjust morph _ unsplit) as [removed| |]; cbn [obind];
    try discriminate.
  destruct (choose1 morph (count node) unsplit removed) as [r| |] eqn:E1;
    cbn [obind]; try discriminate.
  rewrite (choose_agree _ _ _ _ _ E1). cbn [obind].
  destruct (0 <? r.2)%nat; [|intros E; exact E].
  destruct (Segmentation.adjust _ _ _) as [s7| |]; cbn [obind]; try discriminate.
  destruct (Segmentation.adjust _ _ _) as [s8| |]; cbn [obind]; try discriminate.
  destruct (Segmentation.ResplitNode_with choose1 fuel _ _) as [s9| |] eqn:E9;
    cbn [obind]; try discriminate.
  rewrite (IH _ _ _ E9). cbn [obind]. apply IH.
Qed.

Lemma resplit_all_with_replay (keys : list string) :
  forall (s s' : Segmentation.t M),
    Segmentation.resplit_all_with choose1 keys s = Ok s' ->
    Segmentation.resplit_all_with choose2 keys s = Ok s'.
Proof.
  unfold Segmentation.resplit_all_with.
  assert (Hfail : forall ks acc, (forall a, acc <> Ok a) -> forall a,
             fold_left (fun acc key =>
                          s' <- acc ;;
                          Segmentation.ResplitNode_with choose1 (depth_budget key) key s')
                       ks acc <> Ok a).
  { induction ks as [|k ks IHk]; intros acc Hacc a; cbn [fold_left]; [apply Hacc|].
    apply IHk. intros x. destruct acc as [y| |]; cbn [obind]; try discriminate.
    exfalso. exact (Hacc y eq_refl). }
  induction keys as [|key keys IH]; intros s s' E; cbn [fold_left] in *; [exact E|].
  cbn [obind] in *.
  destruct (Segmentation.ResplitNode_with choose1 (depth_budget key) key s)
    as [s1| |] eqn:E1.
  - rewrite (ResplitNode_with_replay _ _ _ _ E1). apply IH. exact E.
  - exfalso. eapply Hfail; [|exact E]. intros a; discriminate.
  - exfalso. eapply Hfail; [|exact E]. intros a; discriminate.
Qed.
End Replay.

Lemma ResplitNode_certified (fuel : nat) (morph : string) (s s' : Segmentation.t t) :
  Segmentation.ResplitNode_with choose_split_certified fuel morph s = Ok s' ->
  Segmentation.ResplitNode fuel morph s = Ok s'.
Proof. apply ResplitNode_with_replay. exact choose_split_certified_sound. Qed.

Lemma resplit_all_certified (keys : list string) (s s' : Segmentation.t t) :
  Segmentation.resplit_all_with choose_split_certified keys s = Ok s' ->
  Segmentation.resplit_all keys s = Ok s'.
Proof. apply resplit_all_with_replay. exact choose_split_certified_sound. Qed.

End CertifiedReplay.

Section CostScenario.
Import BaselineModel.

(** ** A pass over the corpus a:8, bb:8, bbab:1 *)


End CostScenario.

Section AdjustCount.
Import Segmentation.

(** ** The store built by the constructor *)

Lemma fold_emplace_word_lookup (training_corpus : Corpus) :
  forall (m0 : gmap string MorphNode) (w : string),
    fold_left emplace_word training_corpus m0 !! w
    = match m0 !! w with
      | Some n => Some n
      | None => (fun m => MorphNode_of (frequency m))
                  <$> find (fun m => String.eqb (letters m) w) training_corpus
      end.
Proof.
  induction training_corpus as [|a corpus IH]; intros m0 w; cbn [fold_left find].
  - destruct (m0 !! w); reflexivity.
  - rewrite IH. unfold emplace_word.
    destruct (String.eqb_spec (letters a) w) as [->|Hne].
    + destruct (m0 !! w) as [n|] eqn:E; [rewrite E; reflexivity|].
      rewrite lookup_insert_eq. reflexivity.
    + destruct (m0 !! letters a) as [n|] eqn:E; [reflexivity|].
      rewrite lookup_insert_ne by exact Hne. reflexivity.
Qed.

Lemma create_lookup {M : Type} `{Model M} (training_corpus : Corpus) (model : M)
    (w : string) :
  nodes_ (create training_corpus model) !! w
  = (fun m => MorphNode_of (frequency m))
      <$> find (fun m => String.eqb (letters m) w) training_corpus.
Proof.
  unfold create. cbn [nodes_]. rewrite fold_emplace_word_lookup.
  rewrite lookup_empty. reflexivity.
Qed.

Lemma create_wf {M : Type} `{Model M} (training_corpus : Corpus) (model : M) :
  Forall (fun m => 0 < frequency m < 2 ^ 64) training_corpus ->
  store_wf (create training_corpus model).
Proof.
  intros Hfreq key n Hn. rewrite create_lookup in Hn.
  destruct (find _ training_corpus) as [m|] eqn:Ef; [|discriminate].
  inversion Hn; subst n. apply find_some in Ef. destruct Ef as [Hin _].
  rewrite Forall_forall in Hfreq. apply list_elem_of_In in Hin.
  split; [exact (Hfreq _ Hin)|]. left. split; reflexivity.
Qed.

(** ** What [AdjustMorphCount] does to the store *)

Section AdjustFacts.
Context {M : Type} `{Model M}.

Lemma str_empty_spec (x : string) : str_empty x = true <-> x = "".
Proof. destruct x; simpl; split; intros E; try reflexivity; discriminate. Qed.

Lemma str_empty_false (x : string) : str_empty x = false <-> x <> "".
Proof. destruct x; simpl; split; intros E; try discriminate; try reflexivity; congruence. Qed.

Lemma length_append (x y : string) :
  String.length (x ++ y) = (String.length x + String.length y)%nat.
Proof. induction x as [|c x IH]; [reflexivity|]. rewrite append_String. simpl. lia. Qed.

Lemma nonempty_length (x : string) : x <> "" -> (0 < String.length x)%nat.
Proof. destruct x; [congruence|simpl; lia]. Qed.

(** The store after the node under [morph] was updated or erased. *)
Lemma AdjustMorphCount_unfold (fuel : nat) (morph : string) (delta : Z) (s : t M) :
  AdjustMorphCount (S fuel) morph delta s
  = (_ <- assert (negb (str_empty morph)) ;;
     let subtree := default MorphNode_default (nodes_ s !! morph) in
     _ <- assert ((0 <=? delta) || (- delta <=? count subtree)) ;;
     _ <- assert (Bool.eqb (str_empty (left_child subtree))
                    (str_empty (right_child subtree))) ;;
     let s1 := with_nodes
                 (match moved_node morph delta s with
                  | None => delete morph (nodes_ s)
                  | Some n => <[morph := n]> (nodes_ s)
                  end) s in
     if negb (str_empty (left_child subtree))
     then
       s2 <- AdjustMorphCount fuel (left_child subtree) delta s1 ;;
       AdjustMorphCount fuel (right_child subtree) delta s2
     else Ok (with_model
                (adjust_leaf morph delta (count subtree)
                   (size_t_wrap (count subtree + delta))) s1)).
Proof.
  cbn [AdjustMorphCount]. unfold touch, deref, moved_node.
  destruct (assert (negb (str_empty morph))); cbn [obind]; try reflexivity.
  destruct (nodes_ s !! morph) as [n|] eqn:En.
  - rewrite En. cbn [default from_option Datatypes.id].
    destruct (assert _); cbn [obind]; try reflexivity.
    destruct (assert _); cbn [obind]; try reflexivity.
    destruct (size_t_wrap (count n + delta) =? 0); destruct s; reflexivity.
  - cbn [with_nodes nodes_ model_]. rewrite lookup_insert_eq.
    cbn [default from_option Datatypes.id].
    destruct (assert _); cbn [obind]; try reflexivity.
    destruct (assert _); cbn [obind]; try reflexivity.
    rewrite delete_insert_eq, insert_insert_eq.
    unfold with_nodes. cbn [nodes_ model_].
    destruct (size_t_wrap (count MorphNode_default + delta) =? 0); reflexivity.
Qed.

Lemma moved_node_wf (morph : string) (delta : Z) (s : t M) (n : MorphNode) :
  store_wf s -> moved_node morph delta s = Some n -> node_wf morph n.
Proof.
  intros Hwf. unfold moved_node.
  set (subtree := default MorphNode_default (nodes_ s !! morph)).
  destruct (Z.eqb_spec (size_t_wrap (count subtree + delta)) 0) as [|Hne]; [discriminate|].
  intros E. inversion E; subst n. clear E.
  split.
  - cbn [count set_count]. unfold size_t_wrap in *.
    pose proof (Z.mod_pos_bound (count subtree + delta) (2 ^ 64)). lia.
  - cbn [left_child right_child set_count]. subst subtree.
    destruct (nodes_ s !! morph) as [n|] eqn:En; cbn [default from_option Datatypes.id].
    + apply Hwf in En. destruct En as [_ Hl]. exact Hl.
    + left. split; reflexivity.
Qed.

Lemma moved_store_wf (morph : string) (delta : Z) (s : t M) :
  store_wf s ->
  store_wf (with_nodes
              (match moved_node morph delta s with
               | None => delete morph (nodes_ s)
               | Some n => <[morph := n]> (nodes_ s)
               end) s).
Proof.
  intros Hwf. unfold store_wf. cbn [nodes_ with_nodes].
  destruct (moved_node morph delta s) as [n|] eqn:En.
  - apply map_Forall_insert_2; [|exact Hwf]. eapply moved_node_wf; eassumption.
  - apply map_Forall_delete. exact Hwf.
Qed.

(** The links of the node under [morph], as a well-formed store has
    them. *)
Lemma subtree_links (morph : string) (s : t M) :
  store_wf s ->
  let subtree := default MorphNode_default (nodes_ s !! morph) in
  (left_child subtree = "" /\ right_child subtree = "")
  \/ (left_child subtree <> "" /\ right_child subtree <> ""
      /\ morph = (left_child subtree ++ right_child subtree)%string).
Proof.
  intros Hwf. cbn zeta. destruct (nodes_ s !! morph) as [n|] eqn:En; cbn [default from_option Datatypes.id].
  - apply Hwf in En. destruct En as [_ Hl]. exact Hl.
  - left. split; reflexivity.
Qed.

Lemma AdjustMorphCount_wf (fuel : nat) :
  forall (morph : string) (delta : Z) (s s' : t M),
    AdjustMorphCount fuel morph delta s = Ok s' -> store_wf s -> store_wf s'.
Proof.
  induction fuel as [|fuel IH]; intros morph delta s s' E Hwf; [discriminate|].
  rewrite AdjustMorphCount_unfold in E.
  destruct (assert (negb (str_empty morph))); cbn [obind] in E; try discriminate.
  cbn zeta in E.
  destruct (assert (_ || _)); cbn [obind] in E; try discriminate.
  destruct (assert (Bool.eqb _ _)); cbn [obind] in E; try discriminate.
  pose proof (moved_store_wf morph delta s Hwf) as Hwf1.
  destruct (negb (str_empty (left_child _))).
  - destruct (AdjustMorphCount fuel (left_child _) delta _) as [s2| |] eqn:E2;
      cbn [obind] in E; try discriminate.
    eapply IH; [exact E|]. eapply IH; [exact E2|exact Hwf1].
  - inversion E; subst s'. exact Hwf1.
Qed.

Lemma same_above_refl (morph : string) (s : t M) : same_above morph s s.
Proof. intros key _ _. reflexivity. Qed.

Lemma same_above_trans (k1 k2 morph : string) (s1 s2 s3 : t M) :
  (String.length k1 < String.length morph)%nat ->
  (String.length k2 < String.length morph)%nat ->
  same_above k1 s1 s2 -> same_above k2 s2 s3 ->
  forall key, (String.length morph <= String.length key)%nat ->
              nodes_ s3 !! key = nodes_ s1 !! key.
Proof.
  intros H1 H2 Ha Hb key Hk.
  rewrite Hb, Ha; try reflexivity; try lia; intros ->; lia.
Qed.

(** On a well-formed store the walk below [morph] only meets shorter
    keys: the node under [morph] is moved once, and longer keys are
    left alone. *)
Lemma AdjustMorphCount_effect_gen (fuel : nat) :
  forall (morph : string) (delta : Z) (s s' : t M),
    AdjustMorphCount fuel morph delta s = Ok s' -> store_wf s ->
    nodes_ s' !! morph = moved_node morph delta s /\ same_above morph s s'.
Proof.
  induction fuel as [|fuel IH]; intros morph delta s s' E Hwf; [discriminate|].
  rewrite AdjustMorphCount_unfold in E.
  destruct (assert (negb (str_empty morph))); cbn [obind] in E; try discriminate.
  cbn zeta in E.
  destruct (assert (_ || _)); cbn [obind] in E; try discriminate.
  destruct (assert (Bool.eqb _ _)); cbn [obind] in E; try discriminate.
  pose proof (moved_store_wf morph delta s Hwf) as Hwf1.
  pose proof (subtree_links morph s Hwf) as Hlinks. cbn zeta in Hlinks.
  set (s1 := with_nodes _ s) in *.
  assert (Hs1 : nodes_ s1 !! morph = moved_node morph delta s
                /\ same_above morph s s1).
  { subst s1. cbn [nodes_ with_nodes]. split.
    - destruct (moved_node morph delta s);
        [apply lookup_insert_eq|apply lookup_delete_eq].
    - intros key _ Hne. cbn [nodes_ with_nodes].
      destruct (moved_node morph delta s);
        [apply lookup_insert_ne|apply lookup_delete_ne]; congruence. }
  destruct Hs1 as [Hm Hab].
  set (subtree := default MorphNode_default (nodes_ s !! morph)) in *.
  destruct (str_empty (left_child subtree)) eqn:El; cbn [negb] in E.
  - inversion E; subst s'. cbn [nodes_ with_model]. split; [exact Hm|].
    intros key Hk Hne. cbn [nodes_ with_model]. apply Hab; assumption.
  - apply str_empty_false in El.
    destruct Hlinks as [[Hl _]|(Hl & Hr & Hcat)]; [congruence|].
    assert (Hlen : String.length morph
                   = (String.length (left_child subtree)
                      + String.length (right_child subtree))%nat)
      by (rewrite Hcat at 1; apply length_append).
    pose proof (nonempty_length _ Hl). pose proof (nonempty_length _ Hr).
    destruct (AdjustMorphCount fuel (left_child subtree) delta s1) as [s2| |] eqn:E2;
      cbn [obind] in E; try discriminate.
    destruct (IH _ _ _ _ E2 Hwf1) as [_ Hab2].
    pose proof (AdjustMorphCount_wf _ _ _ _ _ E2 Hwf1) as Hwf2.
    destruct (IH _ _ _ _ E Hwf2) as [_ Hab3].
    assert (Hall : forall key, (String.length morph <= String.length key)%nat ->
                               nodes_ s' !! key = nodes_ s1 !! key).
    { apply (same_above_trans (left_child subtree) (right_child subtree) morph
               s1 s2 s'); try assumption; lia. }
    split.
    + rewrite Hall by lia. exact Hm.
    + intros key Hk Hne. rewrite Hall by exact Hk. apply Hab; assumption.
Qed.

(** Adding occurrences never fails and never exhausts the budget. *)
Lemma AdjustMorphCount_adds (fuel : nat) :
  forall (morph : string) (delta : Z) (s : t M),
    store_wf s -> morph <> "" -> 0 <= delta ->
    (String.length morph < fuel)%nat ->
    exists s', AdjustMorphCount fuel morph delta s = Ok s'.
Proof.
  induction fuel as [|fuel IH]; intros morph delta s Hwf Hne Hd Hf; [lia|].
  rewrite AdjustMorphCount_unfold.
  apply str_empty_false in Hne. rewrite Hne. cbn [negb assert obind]. cbn zeta.
  replace (0 <=? delta) with true by (symmetry; apply Z.leb_le; exact Hd).
  cbn [orb assert obind].
  pose proof (moved_store_wf morph delta s Hwf) as Hwf1.
  pose proof (subtree_links morph s Hwf) as Hlinks. cbn zeta in Hlinks.
  set (s1 := with_nodes _ s) in *.
  set (subtree := default MorphNode_default (nodes_ s !! morph)) in *.
  destruct Hlinks as [[Hl Hr]|(Hl & Hr & Hcat)].
  - rewrite Hl, Hr. cbn [str_empty Bool.eqb assert obind negb]. eauto.
  - assert (Hlen : String.length morph
                   = (String.length (left_child subtree)
                      + String.length (right_child subtree))%nat)
      by (rewrite Hcat at 1; apply length_append).
    pose proof (nonempty_length _ Hl). pose proof (nonempty_length _ Hr).
    pose proof Hl as Hl'. pose proof Hr as Hr'.
    apply str_empty_false in Hl', Hr'. rewrite Hl', Hr'.
    cbn [Bool.eqb assert obind negb].
    destruct (IH (left_child subtree) delta s1 Hwf1 Hl Hd) as [s2 E2]; [lia|].
    rewrite E2. cbn [obind].
    apply IH; try assumption; try lia.
    eapply AdjustMorphCount_wf; eassumption.
Qed.
End AdjustFacts.

End AdjustCount.

Section ResplitStore.
Import Segmentation.

(** ** What [ResplitNode] keeps *)

Lemma plus_frequency_small (f : Z) : 0 <= f < 2 ^ 31 -> plus_frequency f = f.
Proof.
  intros Hf. unfold plus_frequency, int_wrap.
  rewrite Z.mod_small; [lia|]. change (2 ^ 31) with 2147483648 in *.
  change (2 ^ 32) with 4294967296. lia.
Qed.

Lemma minus_frequency_small (f : Z) : 0 < f < 2 ^ 31 -> minus_frequency f = - f.
Proof.
  intros Hf. unfold minus_frequency, int_wrap, size_t_wrap.
  change (2 ^ 31) with 2147483648 in *. change (2 ^ 32) with 4294967296.
  change (2 ^ 64) with 18446744073709551616.
  pose proof (Z.mod_unique (- f) 18446744073709551616 (-1)
                (18446744073709551616 - f)) as E1.
  rewrite <- E1 by lia.
  pose proof (Z.mod_unique (18446744073709551616 - f + 2147483648) 4294967296
                4294967296 (2147483648 - f)) as E2.
  rewrite <- E2 by lia. lia.
Qed.

Lemma substr_piece_length (morph : string) (k : nat) :
  (1 <= k < String.length morph)%nat ->
  String.length (substr morph 0 k) = k
  /\ String.length (substr_from morph k) = (String.length morph - k)%nat
  /\ morph = (substr morph 0 k ++ substr_from morph k)%string.
Proof.
  intros Hk. unfold substr, substr_from. split; [|split].
  - apply substring_length. lia.
  - apply substring_length. lia.
  - apply substring_prefix_suffix. lia.
Qed.

Lemma length_pos_nonempty (x : string) : (0 < String.length x)%nat -> x <> "".
Proof. destruct x; simpl; [lia|discriminate]. Qed.

Section ResplitFacts.
Context {M : Type} `{Model M}.

Lemma adjust_keeps (morph : string) (delta : Z) (s s' : t M) :
  adjust morph delta s = Ok s' -> store_wf s ->
  store_wf s' /\ nodes_ s' !! morph = moved_node morph delta s /\ same_above morph s s'.
Proof.
  unfold adjust. intros E Hwf. split.
  - eapply AdjustMorphCount_wf; eassumption.
  - eapply AdjustMorphCount_effect_gen; eassumption.
Qed.

(** A step that works on a piece of [morph] leaves the keys as long as
    [morph] alone. *)
Lemma adjust_piece (piece morph : string) (delta : Z) (s s' : t M) :
  adjust piece delta s = Ok s' -> store_wf s ->
  (String.length piece < String.length morph)%nat ->
  store_wf s'
  /\ forall key, (String.length morph <= String.length key)%nat ->
                 nodes_ s' !! key = nodes_ s !! key.
Proof.
  intros E Hwf Hlen. destruct (adjust_keeps _ _ _ _ E Hwf) as (Hwf' & _ & Hab).
  split; [exact Hwf'|]. intros key Hk. apply Hab; [lia|]. intros ->. lia.
Qed.

(** One turn of the loop over the split positions. *)
Lemma try_split_keeps (morph : string) (frequency : Z) (k : nat)
    (a a' : t M * (double * nat)) :
  try_split morph frequency (Ok a) k = Ok a' ->
  (1 <= k < String.length morph)%nat -> store_wf a.1 ->
  store_wf a'.1
  /\ forall key, (String.length morph <= String.length key)%nat ->
                 nodes_ a'.1 !! key = nodes_ a.1 !! key.
Proof.
  intros E Hk Hwf. unfold try_split in E. cbn [obind] in E.
  destruct (substr_piece_length morph k Hk) as (Hl & Hr & _).
  destruct (adjust (substr morph 0 k) _ a.1) as [s1| |] eqn:E1; cbn [obind] in E;
    try discriminate.
  destruct (adjust (substr_from morph k) _ s1) as [s2| |] eqn:E2; cbn [obind] in E;
    try discriminate.
  destruct (adjust (substr morph 0 k) _ s2) as [s3| |] eqn:E3; cbn [obind] in E;
    try discriminate.
  destruct (adjust (substr_from morph k) _ s3) as [s4| |] eqn:E4; cbn [obind] in E;
    try discriminate.
  inversion E; subst a'. cbn [fst].
  destruct (adjust_piece _ morph _ _ _ E1 Hwf) as [W1 F1]; [lia|].
  destruct (adjust_piece _ morph _ _ _ E2 W1) as [W2 F2]; [lia|].
  destruct (adjust_piece _ morph _ _ _ E3 W2) as [W3 F3]; [lia|].
  destruct (adjust_piece _ morph _ _ _ E4 W3) as [W4 F4]; [lia|].
  split; [exact W4|]. intros key Hkey.
  rewrite F4, F3, F2, F1 by exact Hkey. reflexivity.
Qed.

Lemma fold_try_split_keeps (morph : string) (frequency : Z) (indices : list nat) :
  Forall (fun k => 1 <= k < String.length morph)%nat indices ->
  forall a a' : t M * (double * nat),
    fold_left (try_split morph frequency) indices (Ok a) = Ok a' ->
    store_wf a.1 ->
    store_wf a'.1
    /\ forall key, (String.length morph <= String.length key)%nat ->
                   nodes_ a'.1 !! key = nodes_ a.1 !! key.
Proof.
  induction 1 as [|k ks Hk Hks IH]; intros a a' E Hwf; cbn [fold_left] in E.
  - inversion E; subst a'. split; [exact Hwf|reflexivity].
  - destruct (try_split morph frequency (Ok a) k) as [a1| |] eqn:E1.
    + destruct (try_split_keeps _ _ _ _ _ E1 Hk Hwf) as [W1 F1].
      destruct (IH _ _ E W1) as [W2 F2].
      split; [exact W2|]. intros key Hkey. rewrite F2, F1 by exact Hkey. reflexivity.
    + exfalso. eapply fold_try_split_failed; [|exact E]. intros x; discriminate.
    + exfalso. eapply fold_try_split_failed; [|exact E]. intros x; discriminate.
Qed.

Lemma split_indices_range (n : nat) :
  Forall (fun k => 1 <= k < n)%nat (split_indices n).
Proof.
  apply Forall_forall. intros k Hk. apply list_elem_of_In, in_seq in Hk. lia.
Qed.

(** The loop of [ResplitNode] over the split positions. *)
Lemma choose_split_keeps (morph : string) (frequency : Z)
    (unsplit removed s4 : t M) (k : nat) :
  choose_split morph frequency unsplit removed = Ok (s4, k) ->
  store_wf removed ->
  store_wf s4
  /\ (forall key, (String.length morph <= String.length key)%nat ->
                  nodes_ s4 !! key = nodes_ removed !! key)
  /\ (k = O \/ (1 <= k < String.length morph)%nat).
Proof.
  unfold choose_split. intros E Hwf.
  destruct (best_of_splits morph frequency unsplit removed) as [[s best]| |] eqn:Eb;
    cbn [obind fst snd] in E; try discriminate.
  inversion E; subst s4 k. clear E. unfold best_of_splits in Eb.
  destruct (fold_try_split_keeps morph frequency _ (split_indices_range _) _ _ Eb Hwf)
    as [W F].
  split; [exact W|]. split; [exact F|].
  destruct (fold_try_split_index _ _ _ _ _ _ _ Eb) as [Heq|Hin]; cbn [snd] in *.
  - left. exact Heq.
  - right. unfold split_indices in Hin. apply in_seq in Hin. lia.
Qed.

Section WithChoice.
Variable choose : string -> Z -> t M -> t M -> outcome (t M * nat).
Hypothesis choose_keeps :
  forall morph frequency unsplit removed s4 k,
    choose morph frequency unsplit removed = Ok (s4, k) ->
    store_wf removed ->
    store_wf s4
    /\ (forall key, (String.length morph <= String.length key)%nat ->
                    nodes_ s4 !! key = nodes_ removed !! key)
    /\ (k = O \/ (1 <= k < String.length morph)%nat).

Lemma touch_present (key : string) (s : t M) (n : MorphNode) :
  nodes_ s !! key = Some n -> touch key s = s /\ deref key s = n.
Proof.
  intros E. unfold touch, deref. rewrite E. split; reflexivity.
Qed.

Lemma ResplitNode_with_keeps (fuel : nat) :
  forall (morph : string) (s s' : t M),
    ResplitNode_with choose fuel morph s = Ok s' -> store_wf s ->
    store_wf s' /\ same_above morph s s'
    /\ forall node, nodes_ s !! morph = Some node -> count node < 2 ^ 31 ->
         (nodes_ s' !! morph = Some (MorphNode_of (count node))
          /\ exists s1 unsplit removed s4,
               adjust morph (minus_frequency (count node)) s = Ok s1
               /\ adjust morph (plus_frequency (count node)) s1 = Ok unsplit
               /\ adjust morph (minus_frequency (count node)) unsplit = Ok removed
               /\ choose morph (count node) unsplit removed = Ok (s4, O)
               /\ adjust morph (plus_frequency (count node)) s4 = Ok s')
         \/ exists k, (1 <= k < String.length morph)%nat
                      /\ nodes_ s' !! morph
                         = Some {| count := count node;
                                   left_child := substr morph 0 k;
                                   right_child := substr_from morph k |}
                      /\ exists s1 unsplit removed s4,
                           adjust morph (minus_frequency (count node)) s = Ok s1
                           /\ adjust morph (plus_frequency (count node)) s1 = Ok unsplit
                           /\ adjust morph (minus_frequency (count node)) unsplit
                              = Ok removed
                           /\ choose morph (count node) unsplit removed = Ok (s4, k).
Proof.
  induction fuel as [|fuel IH]; intros morph s s' E Hwf; [discriminate|].
  cbn [ResplitNode_with] in E.
  destruct (assert (negb (str_empty morph))); cbn [obind] in E; try discriminate.
  unfold at_ in E at 1.
  destruct (nodes_ s !! morph) as [node|] eqn:En; cbn [obind] in E; try discriminate.
  assert (Hc : contains morph s = true).
  { unfold contains. apply bool_decide_eq_true. rewrite En. eauto. }
  rewrite Hc in E.
  pose proof (Hwf _ _ En) as [Hcount _].
  set (f := count node) in *.
  destruct (adjust morph (minus_frequency f) s) as [s1| |] eqn:E1; cbn [obind] in E;
    try discriminate.
  destruct (adjust morph (plus_frequency f) s1) as [unsplit| |] eqn:E2; cbn [obind] in E;
    try discriminate.
  destruct (adjust morph (minus_frequency f) unsplit) as [removed| |] eqn:E3;
    cbn [obind] in E; try discriminate.
  destruct (choose morph f unsplit removed) as [[s4 k]| |] eqn:E4; cbn [obind fst snd] in E;
    try discriminate.
  destruct (adjust_keeps _ _ _ _ E1 Hwf) as (W1 & N1 & F1).
  destruct (adjust_keeps _ _ _ _ E2 W1) as (W2 & N2 & F2).
  destruct (adjust_keeps _ _ _ _ E3 W2) as (W3 & N3 & F3).
  destruct (choose_keeps _ _ _ _ _ _ E4 W3) as (W4 & F4 & Hk).
  assert (Habove4 : same_above morph s s4).
  { intros key Hkey Hne. rewrite F4 by exact Hkey.
    rewrite F3, F2, F1 by assumption. reflexivity. }
  destruct (0 <? k)%nat eqn:Ek.
  - apply Nat.ltb_lt in Ek. destruct Hk as [->|Hk]; [lia|].
    destruct (substr_piece_length morph k Hk) as (Hl & Hr & Hcat).
    set (l := substr morph 0 k) in *. set (r := substr_from morph k) in *.
    set (node6 := {| count := f; left_child := l; right_child := r |}).
    set (s6 := with_nodes _ (touch morph s4)) in E.
    assert (E6 : nodes_ s6 = <[morph := node6]> (nodes_ s4)).
    { subst s6. unfold touch, deref. cbn [nodes_ with_nodes].
      destruct (nodes_ s4 !! morph) as [n4|] eqn:E4'.
      - rewrite E4'. reflexivity.
      - cbn [nodes_ with_nodes]. rewrite lookup_insert_eq, insert_insert_eq.
        reflexivity. }
    assert (W6 : store_wf s6).
    { unfold store_wf. rewrite E6. apply map_Forall_insert_2; [|exact W4].
      split; [exact Hcount|]. right. cbn [left_child right_child node6].
      split; [apply length_pos_nonempty; lia|].
      split; [apply length_pos_nonempty; lia|exact Hcat]. }
    assert (N6 : nodes_ s6 !! morph = Some node6)
      by (rewrite E6; apply lookup_insert_eq).
    destruct (touch_present _ _ _ N6) as [_ D6]. rewrite D6 in E.
    cbn [left_child node6] in E.
    destruct (adjust l (plus_frequency f) s6) as [s7| |] eqn:E7; cbn [obind] in E;
      try discriminate.
    destruct (adjust_piece _ morph _ _ _ E7 W6) as [W7 F7]; [lia|].
    assert (N7 : nodes_ s7 !! morph = Some node6) by (rewrite F7 by lia; exact N6).
    destruct (touch_present _ _ _ N7) as [T7 D7]. rewrite T7, D7 in E.
    cbn [right_child node6] in E.
    destruct (adjust r (plus_frequency f) s7) as [s8| |] eqn:E8; cbn [obind] in E;
      try discriminate.
    destruct (adjust_piece _ morph _ _ _ E8 W7) as [W8 F8]; [lia|].
    assert (N8 : nodes_ s8 !! morph = Some node6) by (rewrite F8 by lia; exact N7).
    destruct (touch_present _ _ _ N8) as [T8 D8]. rewrite T8, D8 in E.
    cbn [left_child node6] in E.
    destruct (ResplitNode_with choose fuel l s8) as [s9| |] eqn:E9; cbn [obind] in E;
      try discriminate.
    destruct (IH _ _ _ E9 W8) as (W9 & F9 & _).
    assert (N9 : nodes_ s9 !! morph = Some node6).
    { rewrite F9; [exact N8|lia|]. intros Heq. rewrite <- Heq in Hl. lia. }
    destruct (touch_present _ _ _ N9) as [T9 D9]. rewrite T9, D9 in E.
    cbn [right_child node6] in E.
    destruct (IH _ _ _ E W9) as (W10 & F10 & _).
    assert (Hlong : forall key, (String.length morph <= String.length key)%nat ->
                                nodes_ s' !! key = nodes_ s6 !! key).
    { intros key Hkey.
      rewrite F10; [|lia|intros Heq; rewrite Heq in Hkey; lia].
      rewrite F9; [|lia|intros Heq; rewrite Heq in Hkey; lia].
      rewrite F8, F7 by exact Hkey. reflexivity. }
    split; [exact W10|]. split.
    + intros key Hkey Hne. rewrite Hlong by exact Hkey. rewrite E6.
      rewrite lookup_insert_ne by congruence. apply Habove4; assumption.
    + intros node' Hnode' _. inversion Hnode'; subst node'. right. exists k.
      split; [exact Hk|]. split; [rewrite Hlong by lia; exact N6|].
      exists s1, unsplit, removed, s4. fold f. auto.
  - destruct (adjust_keeps _ _ _ _ E W4) as (W5 & N5 & F5).
    split; [exact W5|]. split.
    + intros key Hkey Hne. rewrite F5 by assumption. apply Habove4; assumption.
    + intros node' Hnode' Hsmall. inversion Hnode'; subst node'. left.
      fold f in Hsmall. apply Nat.ltb_ge in Ek.
      assert (k = O) by lia. subst k.
      split; [|exists s1, unsplit, removed, s4; fold f; auto].
      rewrite minus_frequency_small in N1, N3 by lia.
      rewrite plus_frequency_small in N2, N5 by lia.
      assert (Hw : size_t_wrap f = f).
      { unfold size_t_wrap. apply Z.mod_small. lia. }
      assert (M1 : nodes_ s1 !! morph = None).
      { rewrite N1. unfold moved_node. rewrite En.
        cbn [default from_option Datatypes.id]. fold f.
        replace (f + - f) with 0 by lia. reflexivity. }
      assert (M2 : nodes_ unsplit !! morph = Some (MorphNode_of f)).
      { rewrite N2. unfold moved_node. rewrite M1.
        cbn [default from_option Datatypes.id count MorphNode_default MorphNode_of].
        rewrite Z.add_0_l, Hw. destruct (Z.eqb_spec f 0); [lia|reflexivity]. }
      assert (M3 : nodes_ removed !! morph = None).
      { rewrite N3. unfold moved_node. rewrite M2.
        cbn [default from_option Datatypes.id count MorphNode_of].
        replace (f + - f) with 0 by lia. reflexivity. }
      rewrite N5. unfold moved_node. rewrite F4 by lia. rewrite M3.
      cbn [default from_option Datatypes.id count MorphNode_default MorphNode_of].
      rewrite Z.add_0_l, Hw. destruct (Z.eqb_spec f 0); [lia|reflexivity].
Qed.

Lemma resplit_all_with_keeps (keys : list string) :
  forall s s' : t M,
    resplit_all_with choose keys s = Ok s' -> store_wf s -> store_wf s'.
Proof.
  unfold resplit_all_with.
  induction keys as [|key keys IH] using rev_ind; intros s s' E Hwf.
  - cbn [fold_left] in E. inversion E; subst. exact Hwf.
  - rewrite fold_left_app in E. cbn [fold_left] in E.
    destruct (fold_left _ keys (Ok s)) as [s1| |] eqn:E1; cbn [obind] in E;
      try discriminate.
    destruct (ResplitNode_with_keeps _ _ _ _ E (IH _ _ E1 Hwf)) as [W _].
    exact W.
Qed.
End WithChoice.
End ResplitFacts.

End ResplitStore.

Section StoreResults.
Import Segmentation.

(** ** The store built by the constructor *)

(** X1: The constructor of [Segmentation] stores every word of the training
    corpus as a leaf that carries the frequency of the word's first
    entry, stores nothing else, and hands the model on as it got it. *)
Theorem create_keeps_first_frequency {M : Type} `{Model M}
    (training_corpus : Corpus) (model : M) (w : string) :
  nodes_ (create training_corpus model) !! w
  = (fun m => MorphNode_of (frequency m))
      <$> find (fun m => String.eqb (letters m) w) training_corpus
  /\ model_ (create training_corpus model) = model.
Proof. split; [apply create_lookup|reflexivity]. Qed.

(** ** [AdjustMorphCount] *)

(** X2: Whenever [AdjustMorphCount] returns, the store is as well formed as
    it was: every node has a positive count within [size_t] and either
    no child link or two non-empty links that spell its key. *)
Theorem AdjustMorphCount_keeps_store_wf {M : Type} `{Model M}
    (fuel : nat) (morph : string) (delta : Z) (s s' : t M) :
  AdjustMorphCount fuel morph delta s = Ok s' -> store_wf s -> store_wf s'.
Proof. apply AdjustMorphCount_wf. Qed.

Lemma AdjustMorphCount_keeps_store_wf_witness :
  exists s', AdjustMorphCount 2 "a" 1 trained_ab = Ok s' /\ store_wf s'.
Proof.
  eexists. split; [vm_compute; reflexivity|].
  apply (AdjustMorphCount_keeps_store_wf 2 "a" 1 trained_ab).
  - vm_compute. reflexivity.
  - apply create_wf. repeat constructor.
Defined.

(** X3: On a well-formed store a call of [AdjustMorphCount] that returns has
    moved the count under [morph] by [delta] once (erasing the node when
    the count became zero, keeping its links otherwise) and has left
    every other key that is at least as long as [morph] untouched. *)
Theorem AdjustMorphCount_moves_its_subtree_only {M : Type} `{Model M}
    (fuel : nat) (morph : string) (delta : Z) (s s' : t M) :
  AdjustMorphCount fuel morph delta s = Ok s' -> store_wf s ->
  nodes_ s' !! morph = moved_node morph delta s /\ same_above morph s s'.
Proof. apply AdjustMorphCount_effect_gen. Qed.

Lemma AdjustMorphCount_moves_its_subtree_only_witness :
  exists s', AdjustMorphCount 2 "a" 1 trained_ab = Ok s'
             /\ nodes_ s' !! "a" = Some (MorphNode_of 2)
             /\ nodes_ s' !! "b" = Some (MorphNode_of 1).
Proof.
  assert (E : exists s', AdjustMorphCount 2 "a" 1 trained_ab = Ok s')
    by (eexists; vm_compute; reflexivity).
  destruct E as [s' E]. exists s'. split; [exact E|].
  destruct (AdjustMorphCount_moves_its_subtree_only 2 "a" 1 trained_ab s' E)
    as [Hm Hab]; [apply create_wf; repeat constructor|].
  split.
  - rewrite Hm. vm_compute. reflexivity.
  - rewrite (Hab "b") by (simpl; try lia; discriminate). vm_compute. reflexivity.
Defined.

(** X4: Adding occurrences ([delta >= 0]) of a non-empty morph to a
    well-formed store always returns: no assertion fails and the walk
    through the children ends within the length of the morph. *)
Theorem AdjustMorphCount_adding_returns {M : Type} `{Model M}
    (morph : string) (delta : Z) (s : t M) :
  store_wf s -> morph <> "" -> 0 <= delta ->
  exists s', adjust morph delta s = Ok s' /\ store_wf s'.
Proof.
  intros Hwf Hne Hd.
  destruct (AdjustMorphCount_adds (depth_budget morph) morph delta s Hwf Hne Hd)
    as [s' E]; [unfold depth_budget; lia|].
  exists s'. split; [exact E|]. eapply AdjustMorphCount_wf; eassumption.
Qed.

Lemma AdjustMorphCount_adding_returns_witness :
  exists s', adjust "ab" 3 trained_ab = Ok s' /\ store_wf s'.
Proof.
  apply (AdjustMorphCount_adding_returns "ab" 3 trained_ab).
  - apply create_wf. repeat constructor.
  - discriminate.
  - lia.
Defined.

(** ** [ResplitNode] and [Optimize] *)

(** X5: Whenever [ResplitNode(morph)] returns on a well-formed store, the
    store is well formed again, the other keys that are at least as long
    as [morph] hold what they held, and (for a count that fits [int])
    [morph] is still stored with the count it had, either as a leaf or
    split at some position [1 <= k < size]. *)
Theorem ResplitNode_keeps_word_and_count {M : Type} `{Model M}
    (fuel : nat) (morph : string) (s s' : t M) :
  ResplitNode fuel morph s = Ok s' -> store_wf s ->
  store_wf s' /\ same_above morph s s'
  /\ forall node, nodes_ s !! morph = Some node -> count node < 2 ^ 31 ->
       nodes_ s' !! morph = Some (MorphNode_of (count node))
       \/ exists k, (1 <= k < String.length morph)%nat
                    /\ nodes_ s' !! morph
                       = Some {| count := count node;
                                 left_child := substr morph 0 k;
                                 right_child := substr_from morph k |}.
Proof.
  unfold ResplitNode. intros E Hwf.
  destruct (ResplitNode_with_keeps choose_split
              ltac:(intros; eapply choose_split_keeps; eassumption)
              fuel morph s s' E Hwf) as (W & F & Hn).
  split; [exact W|]. split; [exact F|].
  intros node Hnode Hsmall.
  destruct (Hn node Hnode Hsmall) as [[Hleaf _]|(k & Hk & Hsplit & _)];
    [left; exact Hleaf|right; exists k; split; assumption].
Qed.

Lemma ResplitNode_keeps_word_and_count_witness :
  exists s', ResplitNode (depth_budget "bb") "bb" fresh_abb = Ok s'
             /\ store_wf s'
             /\ nodes_ s' !! "bbab" = nodes_ fresh_abb !! "bbab".
Proof.
  assert (E : exists s', ResplitNode (depth_budget "bb") "bb" fresh_abb = Ok s')
    by (eexists; apply ResplitNode_certified; vm_compute; reflexivity).
  destruct E as [s' E]. exists s'. split; [exact E|].
  destruct (ResplitNode_keeps_word_and_count (depth_budget "bb") "bb" fresh_abb s' E)
    as (Hwf & Hab & _); [apply create_wf; repeat constructor|].
  split; [exact Hwf|].
  apply Hab; [simpl; lia|discriminate].
Defined.

(** X8: Whenever [Optimize] returns on a well-formed store it has made at
    least one pass over the keys, whatever the order the shuffle puts
    them in, and the store is well formed again. *)
Theorem Optimize_keeps_store_wf {M : Type} `{Model M}
    (shuffle : nat -> list string -> list string) (fuel : nat)
    (s s' : t M) (passes_run : nat) :
  Optimize shuffle fuel s = Ok (s', passes_run) -> store_wf s ->
  store_wf s' /\ (1 <= passes_run)%nat.
Proof.
  unfold Optimize, Optimize_loop. intros E Hwf.
  destruct (epoch_loop _ _ _ fuel O _ _) as [r| |] eqn:El; cbn [obind] in E;
    try discriminate.
  inversion E; subst s' passes_run. clear E.
  apply (epoch_loop_invariant _ _ _ (fun ks : list string * t M => store_wf ks.2))
    in El; [destruct El as [HP Hi]; split; [exact HP|lia]| | |exact Hwf].
  2:{ intros ks q Eq HP. unfold read_cost in Eq. inversion Eq; subst q. exact HP. }
  intros i ks ks' Eb HP. unfold epoch in Eb.
  destruct (resplit_all (shuffle i ks.1) ks.2) as [s1| |] eqn:Er; cbn [obind] in Eb;
    try discriminate.
  inversion Eb; subst ks'. cbn [snd].
  unfold resplit_all in Er.
  eapply resplit_all_with_keeps; [|exact Er|exact HP].
  intros. eapply choose_split_keeps; eassumption.
Qed.

Lemma Optimize_keeps_store_wf_witness :
  exists s' n, Optimize (fun _ keys => keys) 1 trained_ab = Ok (s', n)
               /\ store_wf s' /\ (1 <= n)%nat.
Proof.
  assert (Er : resplit_all (map_to_list (nodes_ trained_ab)).*1 trained_ab
               = Ok trained_ab)
    by (apply resplit_all_certified; vm_compute; reflexivity).
  assert (E : Optimize (fun _ keys => keys) 1 trained_ab = Ok (trained_ab, 1%nat)).
  { unfold Optimize, Optimize_loop.
    rewrite (epoch_loop_stop _ _ _ O O _ _
               ((map_to_list (nodes_ trained_ab)).*1, trained_ab)
               (((map_to_list (nodes_ trained_ab)).*1, trained_ab),
                overall_cost (model_ trained_ab))).
    - reflexivity.
    - unfold epoch. cbn [fst snd]. rewrite Er. reflexivity.
    - reflexivity.
    - cbn [fst snd]. unfold bound. cbn [snd].
      change (convergence_threshold (model_ trained_ab))
        with (Num (IZR 5 / IZR 1000 * IZR 2)).
      cbn [overall_cost BaselineModel.model dsub dopp dadd d_gt d_lt].
      apply dlt_false. lra. }
  exists trained_ab, 1%nat. split; [exact E|].
  apply (Optimize_keeps_store_wf (fun _ keys => keys) 1 trained_ab trained_ab 1 E).
  apply create_wf. repeat constructor.
Defined.

End StoreResults.

Section UndoneSplits.
Import Segmentation.

(** ** Hypothetical splits are undone *)

Section WalkFacts.
Context {M : Type} `{Model M}.

Lemma set_count_id (n : MorphNode) : set_count (count n) n = n.
Proof. destruct n; reflexivity. Qed.

Lemma deref_range (key : string) (s : t M) :
  store_wf s -> 0 <= count (deref key s) < 2 ^ 64.
Proof.
  intros Hwf. unfold deref. destruct (nodes_ s !! key) as [n|] eqn:E;
    cbn [default from_option Datatypes.id].
  - apply Hwf in E. destruct E as [Hc _]. lia.
  - cbn [count MorphNode_default MorphNode_of]. change (2 ^ 64) with 18446744073709551616.
    lia.
Qed.

Lemma deref_present (key : string) (s : t M) :
  store_wf s -> left_child (deref key s) <> "" -> 0 < count (deref key s).
Proof.
  intros Hwf. unfold deref. destruct (nodes_ s !! key) as [n|] eqn:E;
    cbn [default from_option Datatypes.id].
  - intros _. apply Hwf in E. destruct E as [Hc _]. lia.
  - cbn [left_child MorphNode_default MorphNode_of]. congruence.
Qed.

(** Two well-formed stores that read alike under every key are the
    same store. *)
Lemma store_wf_ext (s s' : t M) :
  store_wf s -> store_wf s' -> (forall key, deref key s' = deref key s) ->
  nodes_ s' = nodes_ s.
Proof.
  intros Hwf Hwf' Hd. apply map_eq. intros key. specialize (Hd key).
  unfold deref in Hd.
  destruct (nodes_ s' !! key) as [n'|] eqn:E'; destruct (nodes_ s !! key) as [n|] eqn:E;
    cbn [default from_option Datatypes.id] in Hd.
  - congruence.
  - apply Hwf' in E'. destruct E' as [Hc _]. rewrite Hd in Hc.
    cbn [count MorphNode_default MorphNode_of] in Hc. lia.
  - apply Hwf in E. destruct E as [Hc _]. rewrite <- Hd in Hc.
    cbn [count MorphNode_default MorphNode_of] in Hc. lia.
  - reflexivity.
Qed.

(** Reading the store in which the node under [morph] was moved. *)
Lemma moved_store_deref (morph key : string) (delta : Z) (s : t M) :
  deref key (with_nodes
               (match moved_node morph delta s with
                | None => delete morph (nodes_ s)
                | Some n => <[morph := n]> (nodes_ s)
                end) s)
  = if String.eqb morph key
    then default MorphNode_default (moved_node morph delta s)
    else deref key s.
Proof.
  unfold deref. cbn [nodes_ with_nodes].
  destruct (String.eqb_spec morph key) as [->|Hne].
  - destruct (moved_node key delta s);
      [rewrite lookup_insert_eq|rewrite lookup_delete_eq]; reflexivity.
  - destruct (moved_node morph delta s);
      [rewrite lookup_insert_ne by exact Hne|rewrite lookup_delete_ne by exact Hne];
      reflexivity.
Qed.

Lemma moved_node_deref (morph : string) (delta : Z) (s : t M) :
  moved_node morph delta s
  = if size_t_wrap (count (deref morph s) + delta) =? 0 then None
    else Some (set_count (size_t_wrap (count (deref morph s) + delta)) (deref morph s)).
Proof. reflexivity. Qed.

(** The walk only follows links. *)
Lemma meets_same_links (fuel : nat) :
  forall (s1 s2 : t M) (k key : string),
    (forall x, left_child (deref x s1) = left_child (deref x s2)
               /\ right_child (deref x s1) = right_child (deref x s2)) ->
    meets fuel s1 k key = meets fuel s2 k key.
Proof.
  induction fuel as [|fuel IH]; intros s1 s2 k key Hl; [reflexivity|].
  cbn [meets]. destruct (Hl k) as [-> ->].
  rewrite (IH s1 s2 _ key Hl), (IH s1 s2 _ key Hl). reflexivity.
Qed.

Lemma meets_counts_only (fuel : nat) (s1 s2 : t M) (k key : string) (c : string -> Z) :
  (forall x, deref x s1 = set_count (c x) (deref x s2)) ->
  meets fuel s1 k key = meets fuel s2 k key.
Proof.
  intros Hd. apply meets_same_links. intros x. rewrite Hd. split; reflexivity.
Qed.

(** In a well-formed store the walk from [k] meets [k] and shorter
    keys only. *)
Lemma meets_short (fuel : nat) :
  forall (s : t M) (k key : string),
    store_wf s -> meets fuel s k key <> O ->
    key = k \/ (String.length key < String.length k)%nat.
Proof.
  induction fuel as [|fuel IH]; intros s k key Hwf Hm; [cbn in Hm; congruence|].
  cbn [meets] in Hm.
  destruct (String.eqb_spec k key) as [->|Hne]; [left; reflexivity|].
  pose proof (subtree_links k s Hwf) as Hlinks. cbn zeta in Hlinks.
  fold (deref k s) in Hlinks.
  destruct (str_empty (left_child (deref k s))) eqn:El; cbn [negb] in Hm; [lia|].
  apply str_empty_false in El.
  destruct Hlinks as [[Hl _]|(Hl & Hr & Hcat)]; [congruence|].
  assert (Hlen : String.length k
                 = (String.length (left_child (deref k s))
                    + String.length (right_child (deref k s)))%nat)
    by (rewrite Hcat at 1; apply length_append).
  pose proof (nonempty_length _ Hl). pose proof (nonempty_length _ Hr).
  right.
  destruct (Nat.eq_dec (meets fuel s (left_child (deref k s)) key) O) as [E0|E0].
  - destruct (IH s (right_child (deref k s)) key Hwf) as [->|Hlt]; lia.
  - destruct (IH s (left_child (deref k s)) key Hwf E0) as [->|Hlt]; lia.
Qed.

Lemma meets_longer (fuel : nat) (s : t M) (k key : string) :
  store_wf s -> (String.length k < String.length key)%nat -> meets fuel s k key = O.
Proof.
  intros Hwf Hlen. destruct (Nat.eq_dec (meets fuel s k key) O) as [E|E]; [exact E|].
  destruct (meets_short fuel s k key Hwf E) as [->|Hlt]; lia.
Qed.

(** It comes by a key at most [2 * size - 1] times. *)
Lemma meets_bound (fuel : nat) :
  forall (s : t M) (k key : string),
    store_wf s -> k <> "" ->
    (meets fuel s k key <= 2 * String.length k - 1)%nat.
Proof.
  induction fuel as [|fuel IH]; intros s k key Hwf Hk; [cbn; lia|].
  pose proof (nonempty_length _ Hk) as Hpos.
  cbn [meets].
  pose proof (subtree_links k s Hwf) as Hlinks. cbn zeta in Hlinks.
  fold (deref k s) in Hlinks.
  assert (Hone : ((if String.eqb k key then 1 else 0) <= 1)%nat)
    by (destruct (String.eqb k key); lia).
  destruct (str_empty (left_child (deref k s))) eqn:El; cbn [negb]; [lia|].
  apply str_empty_false in El.
  destruct Hlinks as [[Hl _]|(Hl & Hr & Hcat)]; [congruence|].
  assert (Hlen : String.length k
                 = (String.length (left_child (deref k s))
                    + String.length (right_child (deref k s)))%nat)
    by (rewrite Hcat at 1; apply length_append).
  pose proof (nonempty_length _ Hl). pose proof (nonempty_length _ Hr).
  pose proof (IH s (left_child (deref k s)) key Hwf Hl).
  pose proof (IH s (right_child (deref k s)) key Hwf Hr).
  lia.
Qed.

Lemma meets_self (fuel : nat) (s : t M) (k : string) :
  store_wf s -> meets (S fuel) s k k = 1%nat.
Proof.
  intros Hwf. cbn [meets]. rewrite String.eqb_refl.
  pose proof (subtree_links k s Hwf) as Hlinks. cbn zeta in Hlinks.
  fold (deref k s) in Hlinks.
  destruct (str_empty (left_child (deref k s))) eqn:El; cbn [negb]; [reflexivity|].
  apply str_empty_false in El.
  destruct Hlinks as [[Hl _]|(Hl & Hr & Hcat)]; [congruence|].
  assert (Hlen : String.length k
                 = (String.length (left_child (deref k s))
                    + String.length (right_child (deref k s)))%nat)
    by (rewrite Hcat at 1; apply length_append).
  pose proof (nonempty_length _ Hl). pose proof (nonempty_length _ Hr).
  rewrite !meets_longer by (try exact Hwf; lia). reflexivity.
Qed.
End WalkFacts.

Section AddAndTake.
Context {M : Type} `{Model M}.
Variable d : Z.
Hypothesis d_pos : 0 < d.

Lemma wrap_small (z : Z) : 0 <= z < 2 ^ 64 -> size_t_wrap z = z.
Proof. intros Hz. unfold size_t_wrap. apply Z.mod_small. exact Hz. Qed.

(** Adding [d] along the walk. *)
Lemma adds_walk (fuel : nat) :
  forall (morph : string) (s : t M),
    store_wf s -> morph <> "" -> (String.length morph < fuel)%nat ->
    (forall key, count (deref key s) + Z.of_nat (meets fuel s morph key) * d < 2 ^ 64) ->
    exists s',
      AdjustMorphCount fuel morph d s = Ok s' /\ store_wf s'
      /\ forall key,
           deref key s'
           = set_count (count (deref key s) + Z.of_nat (meets fuel s morph key) * d)
               (deref key s).
Proof.
  induction fuel as [|fuel IH]; intros morph s Hwf Hne Hf Hroom; [lia|].
  rewrite AdjustMorphCount_unfold.
  pose proof Hne as Hne'. apply str_empty_false in Hne'. rewrite Hne'.
  cbn [negb assert obind]. cbn zeta.
  replace (0 <=? d) with true by (symmetry; apply Z.leb_le; lia).
  cbn [orb assert obind].
  pose proof (moved_store_wf morph d s Hwf) as Hwf1.
  pose proof (subtree_links morph s Hwf) as Hlinks. cbn zeta in Hlinks.
  pose proof (fun key => moved_store_deref morph key d s) as Hd1.
  set (s1 := with_nodes _ s) in *.
  fold (deref morph s) in *.
  pose proof (deref_range morph s Hwf) as Hc.
  pose proof (Hroom morph) as Hroom_m. rewrite (meets_self fuel s morph Hwf) in Hroom_m.
  assert (Hnew : moved_node morph d s
                 = Some (set_count (count (deref morph s) + d) (deref morph s))).
  { rewrite moved_node_deref, wrap_small by lia.
    destruct (Z.eqb_spec (count (deref morph s) + d) 0); [lia|reflexivity]. }
  assert (Hd1' : forall key,
             deref key s1
             = set_count (if String.eqb morph key then count (deref morph s) + d
                          else count (deref key s)) (deref key s)).
  { intros key. rewrite (Hd1 key), Hnew.
    destruct (String.eqb_spec morph key) as [->|Hk];
      [reflexivity|symmetry; apply set_count_id]. }
  destruct Hlinks as [[Hl Hr]|(Hl & Hr & Hcat)].
  - rewrite Hl, Hr. cbn [str_empty Bool.eqb assert obind negb].
    eexists. split; [reflexivity|]. split; [exact Hwf1|].
    intros key. change (deref key (with_model _ s1)) with (deref key s1).
    rewrite Hd1'. cbn [meets]. rewrite Hl. cbn [str_empty negb].
    destruct (String.eqb_spec morph key) as [->|Hk]; f_equal; lia.
  - assert (Hlen : String.length morph
                   = (String.length (left_child (deref morph s))
                      + String.length (right_child (deref morph s)))%nat)
      by (rewrite Hcat at 1; apply length_append).
    pose proof (nonempty_length _ Hl). pose proof (nonempty_length _ Hr).
    pose proof Hl as Hl'. pose proof Hr as Hr'.
    apply str_empty_false in Hl', Hr'. rewrite Hl', Hr'.
    cbn [Bool.eqb assert obind negb].
    set (l := left_child (deref morph s)) in *.
    set (r := right_child (deref morph s)) in *.
    assert (Hsplit : forall key,
               meets (S fuel) s morph key
               = ((if String.eqb morph key then 1 else 0)
                  + (meets fuel s l key + meets fuel s r key))%nat).
    { intros key. cbn [meets]. fold l r. rewrite Hl'. reflexivity. }
    assert (Hm1 : forall k key, meets fuel s1 k key = meets fuel s k key).
    { intros k key. eapply meets_counts_only. exact Hd1'. }
    assert (Hzero : meets fuel s l morph = O /\ meets fuel s r morph = O).
    { split; apply meets_longer; try exact Hwf; lia. }
    destruct (IH l s1 Hwf1 Hl) as (s2 & E2 & Hwf2 & Hd2); [lia| |].
    { intros key. rewrite Hd1', Hm1. cbn [count set_count].
      pose proof (Hroom key) as Hk. rewrite Hsplit in Hk.
      destruct (String.eqb_spec morph key) as [Heq|Hkey].
      - rewrite <- Heq in *. destruct Hzero as [-> _]. lia.
      - lia. }
    rewrite E2. cbn [obind].
    assert (Hm2 : forall k key, meets fuel s2 k key = meets fuel s k key).
    { intros k key. rewrite <- Hm1. eapply meets_counts_only. exact Hd2. }
    destruct (IH r s2 Hwf2 Hr) as (s3 & E3 & Hwf3 & Hd3); [lia| |].
    { intros key. rewrite Hd2, Hm2, Hd1', Hm1. cbn [count set_count].
      pose proof (Hroom key) as Hk. rewrite Hsplit in Hk.
      destruct (String.eqb_spec morph key) as [Heq|Hkey].
      - rewrite <- Heq in *. destruct Hzero as [-> ->]. lia.
      - lia. }
    exists s3. split; [exact E3|]. split; [exact Hwf3|].
    intros key. rewrite Hd3, Hd2, Hm2, Hd1', Hm1, Hsplit. cbn [count set_count].
    destruct (String.eqb_spec morph key) as [Heq|Hkey].
    + rewrite <- Heq. destruct Hzero as [-> ->]. unfold set_count. cbn [left_child right_child].
      f_equal. lia.
    + unfold set_count. cbn [left_child right_child]. f_equal. lia.
Qed.

(** Taking [d] away along the walk, when every count covers what the
    walk takes and [rest] is what remains. *)
Lemma takes_walk (fuel : nat) :
  forall (morph : string) (y : t M) (rest : string -> Z),
    store_wf y -> morph <> "" -> (String.length morph < fuel)%nat ->
    (forall key, 0 <= rest key) ->
    (forall key, left_child (deref key y) <> "" -> 0 < rest key) ->
    (forall key, count (deref key y)
                 = Z.of_nat (meets fuel y morph key) * d + rest key) ->
    exists y',
      AdjustMorphCount fuel morph (- d) y = Ok y' /\ store_wf y'
      /\ forall key, deref key y' = set_count (rest key) (deref key y).
Proof.
  induction fuel as [|fuel IH]; intros morph y rest Hwf Hne Hf Hrest Hint Hcount; [lia|].
  rewrite AdjustMorphCount_unfold.
  pose proof Hne as Hne'. apply str_empty_false in Hne'. rewrite Hne'.
  cbn [negb assert obind]. cbn zeta.
  pose proof (moved_store_wf morph (- d) y Hwf) as Hwf1.
  pose proof (subtree_links morph y Hwf) as Hlinks. cbn zeta in Hlinks.
  pose proof (fun key => moved_store_deref morph key (- d) y) as Hd1.
  set (y1 := with_nodes _ y) in *.
  fold (deref morph y) in *.
  pose proof (deref_range morph y Hwf) as Hc.
  pose proof (Hcount morph) as Hcm. rewrite (meets_self fuel y morph Hwf) in Hcm.
  pose proof (Hrest morph) as Hrm.
  replace ((0 <=? - d) || (- - d <=? count (deref morph y))) with true.
  2:{ symmetry. apply orb_true_iff. right. apply Z.leb_le. lia. }
  cbn [assert obind].
  assert (Hnew : size_t_wrap (count (deref morph y) + - d) = rest morph)
    by (rewrite wrap_small; lia).
  destruct Hlinks as [[Hl Hr]|(Hl & Hr & Hcat)].
  - rewrite Hl, Hr. cbn [str_empty Bool.eqb assert obind negb].
    eexists. split; [reflexivity|]. split; [exact Hwf1|].
    intros key. change (deref key (with_model _ y1)) with (deref key y1).
    rewrite (Hd1 key), moved_node_deref, Hnew.
    destruct (String.eqb_spec morph key) as [<-|Hk].
    + destruct (Z.eqb_spec (rest morph) 0) as [E0|E0];
        cbn [default from_option Datatypes.id]; [|reflexivity].
      rewrite E0. unfold set_count. rewrite Hl, Hr. reflexivity.
    + pose proof (Hcount key) as Hk'. cbn [meets] in Hk'.
      rewrite Hl in Hk'. cbn [str_empty negb] in Hk'.
      destruct (String.eqb_spec morph key); [congruence|].
      replace (rest key) with (count (deref key y)) by lia.
      symmetry. apply set_count_id.
  - assert (Hlen : String.length morph
                   = (String.length (left_child (deref morph y))
                      + String.length (right_child (deref morph y)))%nat)
      by (rewrite Hcat at 1; apply length_append).
    pose proof (nonempty_length _ Hl). pose proof (nonempty_length _ Hr).
    pose proof Hl as Hl'. pose proof Hr as Hr'.
    apply str_empty_false in Hl', Hr'. rewrite Hl', Hr'.
    cbn [Bool.eqb assert obind negb].
    pose proof (Hint morph Hl) as Hpos.
    assert (Hd1' : forall key,
               deref key y1
               = set_count (if String.eqb morph key then rest morph
                            else count (deref key y)) (deref key y)).
    { intros key. rewrite (Hd1 key), moved_node_deref, Hnew.
      destruct (String.eqb_spec morph key) as [<-|Hk].
      - destruct (Z.eqb_spec (rest morph) 0); [lia|reflexivity].
      - symmetry. apply set_count_id. }
    set (l := left_child (deref morph y)) in *.
    set (r := right_child (deref morph y)) in *.
    assert (Hsplit : forall key,
               meets (S fuel) y morph key
               = ((if String.eqb morph key then 1 else 0)
                  + (meets fuel y l key + meets fuel y r key))%nat).
    { intros key. cbn [meets]. fold l r. rewrite Hl'. reflexivity. }
    assert (Hm1 : forall k key, meets fuel y1 k key = meets fuel y k key).
    { intros k key. eapply meets_counts_only. exact Hd1'. }
    assert (Hzero : meets fuel y l morph = O /\ meets fuel y r morph = O).
    { split; apply meets_longer; try exact Hwf; lia. }
    destruct (IH l y1 (fun key => Z.of_nat (meets fuel y r key) * d + rest key) Hwf1 Hl)
      as (y2 & E2 & Hwf2 & Hd2); [lia| | | |].
    { intros key. pose proof (Hrest key). nia. }
    { intros key. rewrite Hd1'. cbn [left_child set_count]. intros Hk.
      pose proof (Hint key Hk). nia. }
    { intros key. rewrite Hd1', Hm1. cbn [count set_count].
      pose proof (Hcount key) as Hk. rewrite Hsplit in Hk.
      destruct (String.eqb_spec morph key) as [Heq|Hkey].
      - rewrite <- Heq in *. destruct Hzero as [-> ->]. lia.
      - lia. }
    rewrite E2. cbn [obind].
    assert (Hm2 : forall k key, meets fuel y2 k key = meets fuel y k key).
    { intros k key. rewrite <- Hm1. eapply meets_counts_only. exact Hd2. }
    destruct (IH r y2 rest Hwf2 Hr) as (y3 & E3 & Hwf3 & Hd3); [lia|exact Hrest| | |].
    { intros key. rewrite Hd2, Hd1'. cbn [left_child set_count]. apply Hint. }
    { intros key. rewrite Hd2, Hm2. cbn [count set_count]. reflexivity. }
    exists y3. split; [exact E3|]. split; [exact Hwf3|].
    intros key. rewrite Hd3, Hd2, Hd1'. reflexivity.
Qed.
End AddAndTake.

Section TrialSplits.
Context {M : Type} `{Model M}.

Lemma same_nodes_wf (s s' : t M) : nodes_ s' = nodes_ s -> store_wf s -> store_wf s'.
Proof. unfold store_wf. intros ->. auto. Qed.

Lemma same_nodes_deref (s s' : t M) (key : string) :
  nodes_ s' = nodes_ s -> deref key s' = deref key s.
Proof. unfold deref. intros ->. reflexivity. Qed.

(** One turn of the loop over the split positions puts the store back
    as it found it. *)
Lemma try_split_undone (morph : string) (f : Z) (k : nat) (s : t M) (best : double * nat) :
  store_wf s -> 0 < f < 2 ^ 31 -> (1 <= k < String.length morph)%nat ->
  (forall key, count (deref key s) + 2 * Z.of_nat (String.length morph) * f < 2 ^ 64) ->
  exists s4 best',
    try_split morph f (Ok (s, best)) k = Ok (s4, best') /\ nodes_ s4 = nodes_ s.
Proof.
  intros Hwf Hf Hk Hroom.
  destruct (substr_piece_length morph k Hk) as (Hl & Hr & _).
  unfold try_split. cbn [obind fst snd].
  rewrite plus_frequency_small, minus_frequency_small by lia.
  set (l := substr morph 0 k) in *. set (r := substr_from morph k) in *.
  assert (Hlne : l <> "") by (apply length_pos_nonempty; lia).
  assert (Hrne : r <> "") by (apply length_pos_nonempty; lia).
  assert (Hfpos : 0 < f) by lia.
  pose proof (fun key => meets_bound (depth_budget l) s l key Hwf Hlne) as Bl.
  pose proof (fun key => meets_bound (depth_budget r) s r key Hwf Hrne) as Br.
  unfold adjust.
  (* left half added *)
  destruct (adds_walk f Hfpos (depth_budget l) l s Hwf Hlne) as (s1 & E1 & W1 & D1).
  { unfold depth_budget. lia. }
  { intros key. specialize (Hroom key). specialize (Bl key). nia. }
  rewrite E1. cbn [obind].
  assert (M1 : forall fuel x key, meets fuel s1 x key = meets fuel s x key).
  { intros fuel x key. eapply meets_counts_only. exact D1. }
  (* right half added *)
  destruct (adds_walk f Hfpos (depth_budget r) r s1 W1 Hrne) as (s2 & E2 & W2 & D2).
  { unfold depth_budget. lia. }
  { intros key. rewrite D1, M1. cbn [count set_count].
    specialize (Hroom key). specialize (Bl key). specialize (Br key). nia. }
  rewrite E2. cbn [obind].
  assert (M2 : forall fuel x key, meets fuel s2 x key = meets fuel s x key).
  { intros fuel x key. rewrite <- M1. eapply meets_counts_only. exact D2. }
  (* left half taken away *)
  destruct (takes_walk f Hfpos (depth_budget l) l s2
              (fun key => Z.of_nat (meets (depth_budget r) s r key) * f
                          + count (deref key s)) W2 Hlne)
    as (s3 & E3 & W3 & D3).
  { unfold depth_budget. lia. }
  { intros key. pose proof (deref_range key s Hwf). nia. }
  { intros key. rewrite D2, D1. cbn [left_child set_count]. intros Hkey.
    pose proof (deref_present key s Hwf Hkey). nia. }
  { intros key. rewrite D2, D1, M2, M1. cbn [count set_count]. lia. }
  rewrite E3. cbn [obind].
  assert (M3 : forall fuel x key, meets fuel s3 x key = meets fuel s x key).
  { intros fuel x key. rewrite <- M2. eapply meets_counts_only. exact D3. }
  (* right half taken away *)
  destruct (takes_walk f Hfpos (depth_budget r) r s3
              (fun key => count (deref key s)) W3 Hrne)
    as (s4 & E4 & W4 & D4).
  { unfold depth_budget. lia. }
  { intros key. pose proof (deref_range key s Hwf). lia. }
  { intros key. rewrite D3, D2, D1. cbn [left_child set_count]. intros Hkey.
    exact (deref_present key s Hwf Hkey). }
  { intros key. rewrite D3, M3. cbn [count set_count]. reflexivity. }
  rewrite E4. cbn [obind].
  eexists. eexists. split; [reflexivity|].
  apply store_wf_ext; try assumption.
  intros key. rewrite D4, D3, D2, D1. destruct (deref key s); reflexivity.
Qed.

Lemma fold_try_split_undone (morph : string) (f : Z) (indices : list nat) :
  0 < f < 2 ^ 31 ->
  Forall (fun k => 1 <= k < String.length morph)%nat indices ->
  forall (s : t M) (best : double * nat),
    store_wf s ->
    (forall key, count (deref key s) + 2 * Z.of_nat (String.length morph) * f < 2 ^ 64) ->
    exists s4 best',
      fold_left (try_split morph f) indices (Ok (s, best)) = Ok (s4, best')
      /\ nodes_ s4 = nodes_ s.
Proof.
  intros Hf. induction 1 as [|k ks Hk Hks IH]; intros s best Hwf Hroom; cbn [fold_left].
  - exists s, best. split; reflexivity.
  - destruct (try_split_undone morph f k s best Hwf Hf Hk Hroom) as (s1 & b1 & E1 & N1).
    rewrite E1.
    destruct (IH s1 b1) as (s4 & b4 & E4 & N4).
    { eapply same_nodes_wf; eassumption. }
    { intros key. rewrite (same_nodes_deref s s1 key N1). apply Hroom. }
    exists s4, b4. split; [exact E4|]. congruence.
Qed.
End TrialSplits.

(** X6: The loop of [ResplitNode] over the split positions always returns
    on a well-formed store (for a frequency that fits [int] and counts
    with room for the trial increments), with the store exactly as it
    was before the loop: every hypothetical split is undone, whatever
    the halves are and whether or not they are split themselves. *)
Theorem trial_splits_are_undone {M : Type} `{Model M}
    (morph : string) (frequency : Z) (unsplit removed : t M) :
  store_wf removed -> 0 < frequency < 2 ^ 31 ->
  (forall key, count (deref key removed)
               + 2 * Z.of_nat (String.length morph) * frequency < 2 ^ 64) ->
  exists s4 best,
    best_of_splits morph frequency unsplit removed = Ok (s4, best)
    /\ nodes_ s4 = nodes_ removed.
Proof.
  intros Hwf Hf Hroom. unfold best_of_splits.
  apply fold_try_split_undone; try assumption. apply split_indices_range.
Qed.

Lemma trial_splits_are_undone_witness :
  exists s4 best,
    best_of_splits "ab" 1 trained_ab trained_ab = Ok (s4, best)
    /\ nodes_ s4 = nodes_ trained_ab.
Proof.
  apply (trial_splits_are_undone "ab" 1 trained_ab trained_ab).
  - apply create_wf. repeat constructor.
  - lia.
  - intros key. unfold deref, trained_ab. rewrite create_lookup.
    change (2 ^ 64) with 18446744073709551616.
    cbn [corpus_ab find letters]. destruct (String.eqb "a" key); [simpl; lia|].
    destruct (String.eqb "b" key); simpl; lia.
Defined.

Section UnsplitLeaf.
Context {M : Type} `{Model M}.

(** On a leaf, or on a key that is absent, [AdjustMorphCount] changes
    the node under that key and nothing else. *)
Lemma adjust_on_leaf (morph : string) (delta : Z) (s s' : t M) :
  left_child (deref morph s) = "" ->
  adjust morph delta s = Ok s' ->
  nodes_ s' = match moved_node morph delta s with
              | None => delete morph (nodes_ s)
              | Some n => <[morph := n]> (nodes_ s)
              end.
Proof.
  intros Hleaf. unfold adjust, depth_budget. rewrite AdjustMorphCount_unfold.
  destruct (assert (negb (str_empty morph))); cbn [obind]; try discriminate.
  cbn zeta. fold (deref morph s). rewrite Hleaf.
  destruct (assert (_ || _)); cbn [obind]; try discriminate.
  destruct (assert (Bool.eqb _ _)); cbn [obind]; try discriminate.
  cbn [str_empty negb]. intros E. inversion E. reflexivity.
Qed.

Lemma ResplitNode_on_leaf (fuel : nat) (morph : string) (f : Z) (s s' : t M) :
  ResplitNode fuel morph s = Ok s' -> store_wf s ->
  nodes_ s !! morph = Some (MorphNode_of f) -> f < 2 ^ 31 ->
  (forall key, count (deref key s) + 2 * Z.of_nat (String.length morph) * f < 2 ^ 64) ->
  nodes_ s' = nodes_ s
  \/ exists k, (1 <= k < String.length morph)%nat
               /\ nodes_ s' !! morph
                  = Some {| count := f;
                            left_child := substr morph 0 k;
                            right_child := substr_from morph k |}.
Proof.
  intros E Hwf Hleaf Hsmall Hroom. unfold ResplitNode in E.
  destruct (ResplitNode_with_keeps choose_split
              ltac:(intros; eapply choose_split_keeps; eassumption)
              fuel morph s s' E Hwf) as (_ & _ & Hn).
  destruct (Hn _ Hleaf Hsmall) as [[_ Hchain]|(k & Hk & Hsplit & _)];
    [left|right; exists k; split; assumption].
  cbn [count MorphNode_of] in Hchain.
  destruct Hchain as (s1 & unsplit & removed & s4 & E1 & E2 & E3 & E4 & E5).
  pose proof (Hwf _ _ Hleaf) as [Hcount _]. cbn [count MorphNode_of] in Hcount.
  rewrite minus_frequency_small in E1, E3 by lia.
  rewrite plus_frequency_small in E2, E5 by lia.
  assert (Hw : size_t_wrap f = f) by (apply wrap_small; lia).
  destruct (adjust_keeps _ _ _ _ E1 Hwf) as (W1 & _ & _).
  destruct (adjust_keeps _ _ _ _ E2 W1) as (W2 & _ & _).
  destruct (adjust_keeps _ _ _ _ E3 W2) as (W3 & _ & _).
  (* the current representation is removed *)
  assert (N1 : nodes_ s1 = delete morph (nodes_ s)).
  { rewrite (adjust_on_leaf _ _ _ _ ltac:(unfold deref; rewrite Hleaf; reflexivity) E1).
    unfold moved_node. rewrite Hleaf.
    cbn [default from_option Datatypes.id count MorphNode_of].
    replace (f + - f) with 0 by lia. reflexivity. }
  assert (L1 : nodes_ s1 !! morph = None) by (rewrite N1; apply lookup_delete_eq).
  (* the morph is put back unsplit *)
  assert (N2 : nodes_ unsplit = <[morph := MorphNode_of f]> (delete morph (nodes_ s))).
  { rewrite (adjust_on_leaf _ _ _ _ ltac:(unfold deref; rewrite L1; reflexivity) E2).
    unfold moved_node. rewrite L1.
    cbn [default from_option Datatypes.id count MorphNode_default MorphNode_of].
    rewrite Z.add_0_l, Hw. destruct (Z.eqb_spec f 0); [lia|]. rewrite N1. reflexivity. }
  assert (L2 : nodes_ unsplit !! morph = Some (MorphNode_of f))
    by (rewrite N2; apply lookup_insert_eq).
  (* and removed again for the trial splits *)
  assert (N3 : nodes_ removed = delete morph (nodes_ s)).
  { rewrite (adjust_on_leaf _ _ _ _ ltac:(unfold deref; rewrite L2; reflexivity) E3).
    unfold moved_node. rewrite L2.
    cbn [default from_option Datatypes.id count MorphNode_of].
    replace (f + - f) with 0 by lia. cbn [Z.eqb size_t_wrap Z.modulo].
    change (size_t_wrap 0 =? 0) with true. cbn iota.
    rewrite N2, delete_insert_eq, delete_delete_eq. reflexivity. }
  (* the trial splits leave the store alone *)
  destruct (fold_try_split_undone morph f (split_indices (String.length morph))
              ltac:(lia) (split_indices_range _) removed
              (overall_cost (model_ unsplit), O) W3) as (s4' & best & Eb & N4).
  { intros key. unfold deref. rewrite N3.
    destruct (String.eqb_spec morph key) as [<-|Hne].
    - rewrite lookup_delete_eq.
      cbn [default from_option Datatypes.id count MorphNode_default MorphNode_of].
      pose proof (Hroom morph) as Hm. pose proof (deref_range morph s Hwf). lia.
    - rewrite lookup_delete_ne by exact Hne. apply Hroom. }
  unfold choose_split, best_of_splits in E4. rewrite Eb in E4. cbn [obind fst snd] in E4.
  inversion E4; subst s4'. 
  assert (L4 : nodes_ s4 !! morph = None)
    by (rewrite N4, N3; apply lookup_delete_eq).
  rewrite (adjust_on_leaf _ _ _ _ ltac:(unfold deref; rewrite L4; reflexivity) E5).
  unfold moved_node. rewrite L4.
  cbn [default from_option Datatypes.id count MorphNode_default MorphNode_of].
  rewrite Z.add_0_l, Hw. destruct (Z.eqb_spec f 0); [lia|].
  rewrite N4, N3. apply insert_delete_id. exact Hleaf.
Qed.
End UnsplitLeaf.

(** X7: [ResplitNode] on a leaf of a well-formed store (count within [int],
    counts with room for the trial increments): when it returns, either
    the leaf was kept unsplit and the store is exactly what it was, or
    the leaf is now split at some position [1 <= k < size] and keeps
    its count. *)
Theorem ResplitNode_leaf_unsplit_or_split {M : Type} `{Model M}
    (fuel : nat) (morph : string) (f : Z) (s s' : t M) :
  ResplitNode fuel morph s = Ok s' -> store_wf s ->
  nodes_ s !! morph = Some (MorphNode_of f) -> f < 2 ^ 31 ->
  (forall key, count (deref key s) + 2 * Z.of_nat (String.length morph) * f < 2 ^ 64) ->
  nodes_ s' = nodes_ s
  \/ exists k, (1 <= k < String.length morph)%nat
               /\ nodes_ s' !! morph
                  = Some {| count := f;
                            left_child := substr morph 0 k;
                            right_child := substr_from morph k |}.
Proof. apply ResplitNode_on_leaf. Qed.

Lemma ResplitNode_leaf_unsplit_or_split_witness :
  exists s', ResplitNode (depth_budget "a") "a" trained_ab = Ok s'
             /\ nodes_ s' = nodes_ trained_ab.
Proof.
  assert (E : exists s', ResplitNode (depth_budget "a") "a" trained_ab = Ok s')
    by (eexists; apply ResplitNode_certified; vm_compute; reflexivity).
  destruct E as [s' E]. exists s'. split; [exact E|].
  destruct (ResplitNode_leaf_unsplit_or_split (depth_budget "a") "a" 1 trained_ab s' E)
    as [Hsame|(k & Hk & _)].
  - apply create_wf. repeat constructor.
  - unfold trained_ab. rewrite create_lookup. reflexivity.
  - lia.
  - intros key. unfold deref, trained_ab. rewrite create_lookup.
    change (2 ^ 64) with 18446744073709551616.
    cbn [corpus_ab find letters]. destruct (String.eqb "a" key); [simpl; lia|].
    destruct (String.eqb "b" key); simpl; lia.
  - exact Hsame.
  - simpl in Hk. lia.
Defined.

End UndoneSplits.

(** ** What [ResplitNode] commits *)



Section DecoderPieces.
Import Segmentation.

(** ** What the decoder puts into an entry *)

Lemma double_to_int_le (x b : R) :
  (x <= b)%R -> (0 <= b)%R -> (IZR (double_to_int x) <= b)%R.
Proof.
  intros Hx Hb. unfold double_to_int. destruct (Rle_dec 0 x) as [Hpos|Hneg].
  - destruct (base_Int_part x) as [Hle _]. lra.
  - destruct (base_Int_part (- x)) as [_ Hgt].
    assert (Hz : (IZR (-1) < IZR (Int_part (- x)))%R) by (simpl; lra).
    apply lt_IZR in Hz. rewrite opp_IZR.
    assert (Hnn : (0 <= IZR (Int_part (- x)))%R) by (apply IZR_le; lia).
    lra.
Qed.

Section DecoderMorphs.
Context {M : Type} `{Model M}.
Variable s : t M.

(** What the loop over [morph_length] charges: nothing for an unknown
    piece of two characters or more. *)
Lemma candidate_cost_cases ltc bad morph len :
  (exists c, candidate_cost ltc bad morph len s = Ok (Some c, s)
             /\ (contains morph s = true \/ len = 1%nat))
  \/ candidate_cost ltc bad morph len s = Ok (None, s).
Proof.
  unfold candidate_cost, bind, contains_, count_at, ret. cbn [obind fst snd].
  destruct (contains morph s) eqn:Ec; cbn [obind fst snd].
  - unfold contains in Ec. apply bool_decide_eq_true in Ec.
    destruct Ec as [n En]. unfold at_. rewrite En. cbn [obind fst snd].
    left. eexists. split; [reflexivity|left; reflexivity].
  - destruct (Nat.eqb_spec len 1) as [->|Hne].
    + left. eexists. split; [reflexivity|right; reflexivity].
    + right. reflexivity.
Qed.

(** A candidate the loop over [morph_length] may pick: a stored morph or
    a single character. *)
Lemma consider_result word ltc bad delta e best len best' s' :
  consider word ltc bad delta e best len s = Ok (best', s') ->
  best' = best
  \/ (best'.2 = len /\ (best'.1 < best.1)%R
      /\ (contains (substr word (e - len) len) s = true \/ len = 1%nat)).
Proof.
  unfold consider, bind.
  destruct (candidate_cost_cases ltc bad (substr word (e - len) len) len)
    as [(c & Ec & Hk)|Ec]; rewrite Ec; cbn [obind fst snd].
  - unfold check. destruct (assert _); cbn [obind fst snd]; try discriminate.
    unfold ret. destruct (dlt _ _) eqn:Ed; intros E; inversion E; subst;
      [right|left; reflexivity].
    apply dlt_spec in Ed. cbn [fst snd]. auto.
  - unfold ret. intros E. inversion E. left. reflexivity.
Qed.

Lemma for_each_consider_result word ltc bad delta e (lens : list nat) :
  forall best best' s',
    for_each (consider word ltc bad delta e) lens best s = Ok (best', s') ->
    (best'.1 <= best.1)%R
    /\ (best'.2 = best.2
        \/ (In best'.2 lens
            /\ (contains (substr word (e - best'.2) best'.2) s = true
                \/ best'.2 = 1%nat))).
Proof.
  induction lens as [|len lens IH]; intros best best' s' E; cbn [for_each] in E.
  - unfold ret in E. inversion E. split; [lra|left; reflexivity].
  - unfold bind in E.
    destruct (consider word ltc bad delta e best len s) as [[b1 s1]| |] eqn:E1;
      cbn [obind fst snd] in E; try discriminate.
    assert (s1 = s) by (eapply read_only_consider; exact E1). subst s1.
    destruct (IH _ _ _ E) as [Hle Hsel].
    destruct (consider_result _ _ _ _ _ _ _ _ _ E1) as [->|(H2 & H1 & Hk)].
    + split; [exact Hle|]. destruct Hsel as [Hs|[Hin Hs]]; [left; exact Hs|].
      right. split; [right; exact Hin|exact Hs].
    + split; [lra|]. destruct Hsel as [Hs|[Hin Hs]].
      * right. rewrite Hs, H2. split; [left; reflexivity|exact Hk].
      * right. split; [right; exact Hin|exact Hs].
Qed.





(** The loop over the test words, for any property of the entries that
    holds word by word. *)
Lemma for_each_segment_words (Q : Morph -> string -> Prop) (ltc : R) :
  (forall w, exists entry, segment_word ltc w s = Ok (entry, s) /\ Q w entry) ->
  forall (test_corpus : Corpus) acc,
  exists segmentations,
    for_each (fun segmentations w =>
                bind (segment_word ltc w) (fun str =>
                ret (segmentations ++ [str])%list))
             test_corpus acc s
    = Ok ((acc ++ segmentations)%list, s)
    /\ Forall2 Q test_corpus segmentations.
Proof.
  intros HQ. induction test_corpus as [|w ws IH]; intros acc; cbn [for_each].
  - exists []. rewrite app_nil_r. split; [reflexivity|constructor].
  - destruct (HQ w) as (entry & Ee & He).
    destruct (IH (acc ++ [entry])%list) as (segs & Es & Hs).
    exists (entry :: segs). split.
    + unfold bind at 1. unfold bind at 1. rewrite Ee. cbn [obind fst snd].
      unfold ret at 1. cbn [obind fst snd]. rewrite Es.
      rewrite <- app_assoc. reflexivity.
    + constructor; assumption.
Qed.
End DecoderMorphs.


(** ** The decoder covers the whole word *)

Section DecoderCoverage.
Context {M : Type} `{Model M}.
Variable s : t M.
Variable ltc : R.
Variable word : string.
Hypothesis ltc_pos : (0 < ltc)%R.
Hypothesis counts_pos : forall key n, nodes_ s !! key = Some n -> 0 < count n.

Let n := String.length word.
Let bad := (IZR (Z.of_nat n + 1) * ltc)%R.
Let pinf := (IZR (Z.of_nat n + 1) * bad)%R.

Lemma bad_bounds : (ltc <= bad)%R /\ (0 < bad)%R.
Proof.
  subst bad. assert (Hn : (1 <= IZR (Z.of_nat n + 1))%R) by (apply IZR_le; lia).
  split; nra.
Qed.

(** A single character is always charged at most the penalty. *)
Lemma candidate_cost_single (morph : string) :
  exists c, candidate_cost ltc bad morph 1 s = Ok (Some c, s) /\ (IZR c <= bad)%R.
Proof.
  destruct bad_bounds as [Hb1 Hb2].
  unfold candidate_cost, bind, contains_, count_at, ret. cbn [obind fst snd].
  destruct (contains morph s) eqn:Ec; cbn [obind fst snd].
  - unfold contains in Ec. apply bool_decide_eq_true in Ec.
    destruct Ec as [node En]. unfold at_. rewrite En. cbn [obind fst snd].
    eexists. split; [reflexivity|].
    apply double_to_int_le; [|lra].
    pose proof (counts_pos _ _ En) as Hc.
    assert (Hln : (0 <= std_log (IZR (count node)))%R).
    { unfold std_log. rewrite <- ln_1. apply ln_le; [lra|]. apply IZR_le. lia. }
    lra.
  - cbn [Nat.eqb]. eexists. split; [reflexivity|]. apply double_to_int_le; lra.
Qed.

Lemma consider_single (delta : list R) (e : nat) (best best' : R * nat) (s' : t M) :
  consider word ltc bad delta e best 1 s = Ok (best', s') ->
  (best'.2 = 1%nat /\ (best'.1 <= nth (e - 1) delta 0 + bad)%R)
  \/ (best' = best /\ (best.1 <= nth (e - 1) delta 0 + bad)%R).
Proof.
  unfold consider, bind.
  destruct (candidate_cost_single (substr word (e - 1) 1)) as (c & Ec & Hc).
  rewrite Ec. cbn [obind fst snd].
  unfold check. destruct (assert _); cbn [obind fst snd]; try discriminate.
  unfold ret. destruct (dlt _ _) eqn:Ed; intros E; inversion E; subst.
  - left. cbn [fst snd]. split; [reflexivity|lra].
  - right. split; [reflexivity|].
    destruct (Rlt_or_le (nth (e - 1) delta 0 + IZR c)%R best'.1) as [Hlt|Hge].
    + rewrite dlt_true in Ed by exact Hlt. discriminate.
    + lra.
Qed.

(** What the loop over [end_index] has established after the first [k]
    positions. *)
Lemma advance_full (tables tables' : list R * list nat) (k : nat) (s' : t M) :
  advance word ltc bad pinf tables (S k) s = Ok (tables', s') ->
  tables_ok n tables -> (S k <= n)%nat ->
  (forall j, (nth j tables.1 0 <= IZR (Z.of_nat j) * bad)%R) ->
  (forall j, (1 <= j <= k)%nat -> (1 <= nth j tables.2 O)%nat) ->
  (forall j, (nth j tables'.1 0 <= IZR (Z.of_nat j) * bad)%R)
  /\ (forall j, (1 <= j <= S k)%nat -> (1 <= nth j tables'.2 O)%nat).
Proof.
  intros E (Hd & Hp & _) Hk Hdelta Hpsi.
  destruct bad_bounds as [Hb1 Hb2].
  unfold advance, bind in E. cbn [seq for_each] in E. unfold bind in E.
  destruct (consider word ltc bad tables.1 (S k) (pinf, O) 1 s) as [[b1 s1]| |] eqn:E1;
    cbn [obind fst snd] in E; try discriminate.
  assert (s1 = s) by (eapply read_only_consider; exact E1). subst s1.
  destruct (for_each _ (seq 2 k) b1 s) as [[best s2]| |] eqn:Eb; cbn [obind fst snd] in E;
    try discriminate.
  unfold check in E. destruct (assert _); cbn [obind fst snd] in E; try discriminate.
  unfold ret in E. inversion E; subst tables' s'. clear E. cbn [fst snd].
  pose proof (Hdelta k) as Hdk.
  assert (Hroom : (nth (S k - 1) tables.1 0 + bad < pinf)%R).
  { replace (S k - 1)%nat with k by lia. subst pinf.
    assert (Hkn : (IZR (Z.of_nat k) + 1 <= IZR (Z.of_nat n))%R).
    { rewrite <- plus_IZR. apply IZR_le. lia. }
    rewrite plus_IZR. nra. }
  assert (Hb1' : b1.2 = 1%nat /\ (b1.1 <= nth (S k - 1) tables.1 0 + bad)%R).
  { destruct (consider_single _ _ _ _ _ E1) as [Hs|[Heq Hle]]; [exact Hs|].
    cbn [fst] in Hle. lra. }
  destruct Hb1' as [Hb12 Hb11].
  destruct (for_each_consider_result s _ _ _ _ _ _ _ _ _ Eb) as [Hle Hsel].
  assert (Hbest2 : (1 <= best.2)%nat).
  { destruct Hsel as [->|[Hin _]]; [lia|]. apply in_seq in Hin. lia. }
  split.
  - intros j. rewrite nth_lookup. destruct (Nat.eq_dec (S k) j) as [<-|Hne].
    + rewrite list_lookup_insert_eq by lia. cbn [default from_option Datatypes.id].
      replace (S k - 1)%nat with k in Hb11 by lia.
      replace (Z.of_nat (S k)) with (Z.of_nat k + 1) by lia. rewrite plus_IZR. lra.
    + rewrite list_lookup_insert_ne by exact Hne. rewrite <- nth_lookup. apply Hdelta.
  - intros j Hj. rewrite nth_lookup. destruct (Nat.eq_dec (S k) j) as [<-|Hne].
    + rewrite list_lookup_insert_eq by lia. exact Hbest2.
    + rewrite list_lookup_insert_ne by exact Hne. rewrite <- nth_lookup.
      apply Hpsi. lia.
Qed.

Lemma for_each_advance_full (m : nat) :
  forall (k : nat) (tables tables' : list R * list nat) (s' : t M),
    for_each (advance word ltc bad pinf) (seq (S k) m) tables s = Ok (tables', s') ->
    tables_ok n tables -> (k + m <= n)%nat ->
    (forall j, (nth j tables.1 0 <= IZR (Z.of_nat j) * bad)%R) ->
    (forall j, (1 <= j <= k)%nat -> (1 <= nth j tables.2 O)%nat) ->
    forall j, (1 <= j <= k + m)%nat -> (1 <= nth j tables'.2 O)%nat.
Proof.
  induction m as [|m IH]; intros k tables tables' s' E Hok Hkm Hdelta Hpsi;
    cbn [seq for_each] in E.
  - unfold ret in E. inversion E; subst. intros j Hj. apply Hpsi. lia.
  - unfold bind in E.
    destruct (advance_total s word ltc bad pinf n tables (S k) Hok ltac:(lia))
      as (t1 & E1 & Hok1).
    rewrite E1 in E. cbn [obind fst snd] in E.
    destruct (advance_full _ _ _ _ E1 Hok ltac:(lia) Hdelta Hpsi) as [Hdelta1 Hpsi1].
    intros j Hj. apply (IH (S k) _ _ _ E Hok1 ltac:(lia) Hdelta1 Hpsi1). lia.
Qed.

(** With every position of [psi] set, the backtrace walks down to the
    start of the word. *)
Lemma chosen_morphs_full (psi : list nat) :
  length psi = S n ->
  (forall j, (nth j psi O <= j)%nat) ->
  (forall j, (1 <= j <= n)%nat -> (1 <= nth j psi O)%nat) ->
  forall fuel end_index morphs,
    (end_index <= fuel)%nat -> (end_index <= n)%nat ->
    exists ms,
      chosen_morphs fuel word psi end_index morphs = Ok (ms ++ morphs)%list
      /\ glued ms = String.substring 0 end_index word.
Proof.
  intros Hp Hj Hfull. induction fuel as [|fuel IH]; intros e morphs Hf He.
  - assert (e = O) by lia. subst e. cbn [chosen_morphs].
    assert (H0 : nth 0 psi O = O) by (specialize (Hj O); lia). rewrite H0.
    exists []. split; [reflexivity|]. cbn [glued fold_right].
    symmetry. apply substring_nil. lia.
  - cbn [chosen_morphs]. destruct (nth e psi O) as [|len] eqn:Elen.
    + assert (e = O).
      { destruct e as [|e']; [reflexivity|]. specialize (Hfull (S e')). lia. }
      subst e. exists []. split; [reflexivity|]. cbn [glued fold_right].
      symmetry. apply substring_nil. lia.
    + assert (Hle : (S len <= e)%nat) by (specialize (Hj e); lia).
      replace ((0 <? e)%nat && (e <? length psi)%nat) with true.
      2:{ symmetry. apply andb_true_iff. split; apply Nat.ltb_lt; lia. }
      cbn [assert obind].
      destruct (IH (e - S len)%nat (substr word (e - S len) (S len) :: morphs))
        as (ms & E & Hg); try lia.
      exists (ms ++ [substr word (e - S len) (S len)])%list.
      split; [rewrite E, <- app_assoc; reflexivity|].
      rewrite glued_snoc, Hg. unfold substr.
      pose proof (substring_append word 0 (e - S len) (S len)) as Happ.
      cbn [Nat.add] in Happ. rewrite Happ by (subst n; lia). f_equal. lia.
Qed.

Lemma viterbi_tables_full (w : Morph) (tables : list R * list nat) (s' : t M) :
  letters w = word ->
  viterbi_tables ltc w s = Ok (tables, s') ->
  forall j, (1 <= j <= n)%nat -> (1 <= nth j tables.2 O)%nat.
Proof.
  intros Hw Et. unfold viterbi_tables in Et. rewrite Hw in Et. fold n bad pinf in Et.
  intros j Hjn.
  apply (for_each_advance_full n 0 _ _ _ Et); try lia.
  - unfold tables_ok. cbn [fst snd]. rewrite !repeat_length.
    repeat split; try lia.
    intros i. destruct (Nat.lt_ge_cases i (n + 1)) as [Hlt|Hge].
    + rewrite nth_repeat_lt by exact Hlt. lia.
    + rewrite nth_overflow by (rewrite repeat_length; lia). lia.
  - intros i. cbn [fst]. destruct bad_bounds as [_ Hb].
    assert (Hi : (0 <= IZR (Z.of_nat i))%R) by (apply IZR_le; lia).
    destruct (Nat.lt_ge_cases i (n + 1)) as [Hlt|Hge].
    + rewrite nth_repeat_lt by exact Hlt. nra.
    + rewrite nth_overflow by (rewrite repeat_length; lia). nra.
Qed.

Lemma segment_word_full :
  forall w : Morph, letters w = word ->
  exists entry,
    segment_word ltc w s = Ok (entry, s)
    /\ exists morphs, entry = spaced morphs /\ glued morphs = letters w.
Proof.
  intros w Hw.
  destruct (viterbi_tables_total s ltc w) as (tables & Et & Hok).
  pose proof (viterbi_tables_full w tables s Hw Et) as Hfull.
  rewrite Hw in Hok. fold n in Hok. pose proof Hok as (Hd & Hp & Hj).
  destruct (chosen_morphs_full tables.2 Hp Hj Hfull n n []) as (ms & Ec & Hg); try lia.
  rewrite app_nil_r in Ec.
  exists (spaced ms). split.
  - unfold segment_word, bind. rewrite Et. cbn [obind fst snd]. rewrite Hw. fold n.
    change "" with (spaced []). rewrite backtrace_chosen_morphs, Ec. reflexivity.
  - exists ms. split; [reflexivity|]. rewrite Hg, Hw. apply substring_all.
Qed.
End DecoderCoverage.

(** X10: When the model counts at least two tokens and every stored count is
    positive, [SegmentTestCorpus] segments every test word completely:
    the morphs of its entry, put together, are the word. *)
Theorem decoder_covers_every_word {M : Type} `{Model M}
    (test_corpus : Corpus) (s : t M) :
  2 <= total_morph_tokens (model_ s) ->
  (forall key n, nodes_ s !! key = Some n -> 0 < count n) ->
  exists segmentations,
    SegmentTestCorpus test_corpus s = Ok (segmentations, s)
    /\ Forall2 (fun (w : Morph) entry =>
                  exists morphs, entry = spaced morphs /\ glued morphs = letters w)
         test_corpus segmentations.
Proof.
  intros HT Hcounts.
  assert (Hltc : (0 < std_log (IZR (total_morph_tokens (model_ s))))%R).
  { unfold std_log. rewrite <- ln_1. apply ln_increasing; [lra|].
    apply IZR_lt. lia. }
  destruct (for_each_segment_words s _
              (std_log (IZR (total_morph_tokens (model_ s))))
              (fun w => segment_word_full s _ (letters w) Hltc Hcounts w eq_refl)
              test_corpus []) as (segs & E & Hs).
  exists segs. split; [|exact Hs].
  unfold SegmentTestCorpus, bind at 1, token_count. cbn [obind fst snd]. exact E.
Qed.

Lemma decoder_covers_every_word_witness :
  exists segmentations,
    SegmentTestCorpus [mkMorph "abc" 1] trained_ab = Ok (segmentations, trained_ab)
    /\ Forall2 (fun (w : Morph) entry =>
                  exists morphs, entry = spaced morphs /\ glued morphs = letters w)
         [mkMorph "abc" 1] segmentations.
Proof.
  apply (decoder_covers_every_word [mkMorph "abc" 1] trained_ab).
  - rewrite trained_ab_tokens. lia.
  - intros key node. unfold contains, trained_ab, create. cbn [nodes_ corpus_ab fold_left].
    unfold emplace_word. cbn [letters frequency]. rewrite lookup_empty.
    rewrite lookup_insert_ne by discriminate. rewrite lookup_empty.
    intros Hn. apply lookup_insert_Some in Hn.
    destruct Hn as [[_ <-]|[_ Hn]]; [simpl; lia|].
    apply lookup_insert_Some in Hn.
    destruct Hn as [[_ <-]|[_ Hn]]; [simpl; lia|].
    rewrite lookup_empty in Hn. discriminate.
Defined.

End DecoderPieces.

Section SplitAndRemove.
Import SegmentationTree.

(** ** [Split] and [Remove] on a word whose halves are leaves *)

Lemma deref_insert_eq (key : string) (n : MorphNode) (m : gmap string MorphNode)
    (T U : Z) :
  deref key {| nodes_ := <[key := n]> m; total_morph_tokens_ := T;
               unique_morph_types_ := U |} = n.
Proof. unfold deref. cbn [nodes_]. rewrite lookup_insert_eq. reflexivity. Qed.

Lemma deref_insert_ne (key key' : string) (n : MorphNode) (m : gmap string MorphNode)
    (T U T' U' : Z) :
  key' <> key ->
  deref key {| nodes_ := <[key' := n]> m; total_morph_tokens_ := T;
               unique_morph_types_ := U |}
  = deref key {| nodes_ := m; total_morph_tokens_ := T'; unique_morph_types_ := U' |}.
Proof. intros Hne. unfold deref. cbn [nodes_]. rewrite lookup_insert_ne by exact Hne. reflexivity. Qed.

(** [IncreaseNodeCount] on a key that is absent or a leaf: the key is
    created if need be, its count and the token total grow by
    [increase]. *)
Lemma IncreaseNodeCount_leaf (fuel : nat) (key : string) (increase : Z) (s : t) :
  left_child (deref key s) = "" -> right_child (deref key s) = "" ->
  IncreaseNodeCount (S fuel) key increase s
  = Ok {| nodes_ := <[key := set_count (size_t_wrap (count (deref key s) + increase))
                              (deref key s)]> (nodes_ s);
          total_morph_tokens_ := size_t_wrap (total_morph_tokens_ s + increase);
          unique_morph_types_ := unique_morph_types_ s |}.
Proof.
  intros Hl Hr. cbn [IncreaseNodeCount].
  assert (Hd : deref key (touch key s) = deref key s).
  { unfold touch, deref. destruct (nodes_ s !! key) as [n|] eqn:E.
    - rewrite E. reflexivity.
    - cbn [nodes_ with_nodes]. rewrite lookup_insert_eq. reflexivity. }
  rewrite Hd, Hl. cbn [str_empty negb obind]. rewrite Hd, Hr.
  cbn [str_empty negb obind]. rewrite Hd.
  unfold has_children. cbn [left_child right_child set_count]. rewrite Hl.
  cbn [str_empty negb andb]. f_equal.
  unfold with_total, with_nodes, touch. cbn [nodes_ total_morph_tokens_ unique_morph_types_].
  destruct (nodes_ s !! key) as [n|] eqn:E.
  - reflexivity.
  - unfold with_nodes. cbn [nodes_ total_morph_tokens_ unique_morph_types_].
    rewrite insert_insert_eq. reflexivity.
Qed.

Section SplitLeafHalves.
Variable s : t.
Variable morph : string.
Variable k : nat.
Variable node : MorphNode.

Let l := substr morph 0 k.
Let r := substr_from morph k.
Let f := count node.
Let cl := count (deref l s).
Let cr := count (deref r s).

Hypothesis Hnode : nodes_ s !! morph = Some node.
Hypothesis Hleaf : has_children node = false.
Hypothesis Hk : (1 <= k < String.length morph)%nat.
Hypothesis Hdistinct : l <> r.
Hypothesis Hl_leaf : left_child (deref l s) = "" /\ right_child (deref l s) = "".
Hypothesis Hr_leaf : left_child (deref r s) = "" /\ right_child (deref r s) = "".
Hypothesis Hf : 0 <= f.
Hypothesis Hcl : 0 <= cl /\ cl + f < 2 ^ 64.
Hypothesis Hcr : 0 <= cr /\ cr + f < 2 ^ 64.
Hypothesis HT : f <= total_morph_tokens_ s /\ total_morph_tokens_ s + f < 2 ^ 64.
Hypothesis HU : 1 <= unique_morph_types_ s /\ unique_morph_types_ s + 1 < 2 ^ 64.

Lemma halves_facts :
  l <> "" /\ r <> "" /\ l <> morph /\ r <> morph.
Proof.
  destruct (substr_piece_length morph k Hk) as (Hll & Hlr & _). fold l r in Hll, Hlr.
  repeat split.
  - apply length_pos_nonempty. lia.
  - apply length_pos_nonempty. lia.
  - intros E. rewrite E in Hll. lia.
  - intros E. rewrite E in Hlr. lia.
Qed.

(** The tree after [Split]. *)
Lemma Split_leaf_halves :
  Split morph k s
  = Ok {| nodes_ := <[r := set_count (cr + f) (deref r s)]>
                      (<[l := set_count (cl + f) (deref l s)]>
                         (<[morph := set_children l r node]> (nodes_ s)));
          total_morph_tokens_ := total_morph_tokens_ s + f;
          unique_morph_types_ :=
            unique_morph_types_ s - 1 + b2z (cl =? 0) + b2z (cr =? 0) |}.
Proof.
  destruct halves_facts as (Hlne & Hrne & Hlm & Hrm).
  destruct Hl_leaf as [Hll Hlr]. destruct Hr_leaf as [Hrl Hrr].
  unfold Split.
  replace (1 <? str_size morph) with true
    by (symmetry; apply Z.ltb_lt; unfold str_size; lia).
  replace ((0 <? Z.of_nat k) && (Z.of_nat k <? str_size morph)) with true.
  2:{ symmetry. apply andb_true_iff. split; apply Z.ltb_lt; unfold str_size; lia. }
  cbn [assert obind]. unfold at_. rewrite Hnode. cbn [obind]. rewrite Hleaf.
  cbn [negb assert obind]. fold l r.
  unfold with_total, with_nodes.
  cbn [nodes_ total_morph_tokens_ unique_morph_types_ count set_children].
  fold f. rewrite deref_insert_eq. cbn [left_child right_child count set_children]. fold f.
  unfold depth_budget.
  (* the left half *)
  rewrite IncreaseNodeCount_leaf.
  2:{ rewrite (deref_insert_ne l morph _ _ _ _ (total_morph_tokens_ s)
                 (unique_morph_types_ s)) by congruence.
      destruct s; exact Hll. }
  2:{ rewrite (deref_insert_ne l morph _ _ _ _ (total_morph_tokens_ s)
                 (unique_morph_types_ s)) by congruence.
      destruct s; exact Hlr. }
  cbn [obind nodes_ total_morph_tokens_ unique_morph_types_].
  rewrite (deref_insert_ne l morph _ _ _ _ (total_morph_tokens_ s)
             (unique_morph_types_ s)) by congruence.
  replace (deref l {| nodes_ := nodes_ s; total_morph_tokens_ := total_morph_tokens_ s;
                      unique_morph_types_ := unique_morph_types_ s |})
    with (deref l s) by (destruct s; reflexivity).
  fold cl.
  rewrite (deref_insert_ne morph l _ _ _ _ 0 0) by congruence.
  rewrite deref_insert_eq. cbn [left_child right_child count set_children]. fold f.
  (* the right half *)
  assert (Hdr : forall T U,
             deref r {| nodes_ := <[l := set_count (size_t_wrap (cl + f)) (deref l s)]>
                                    (<[morph := set_children l r node]> (nodes_ s));
                        total_morph_tokens_ := T; unique_morph_types_ := U |}
             = deref r s).
  { intros T U. rewrite (deref_insert_ne r l _ _ _ _ 0 0) by congruence.
    rewrite (deref_insert_ne r morph _ _ _ _ (total_morph_tokens_ s)
               (unique_morph_types_ s)) by congruence.
    destruct s; reflexivity. }
  rewrite IncreaseNodeCount_leaf by (rewrite Hdr; assumption).
  cbn [obind nodes_ total_morph_tokens_ unique_morph_types_].
  rewrite Hdr. fold cr.
  (* the type count *)
  rewrite (deref_insert_ne morph r _ _ _ _ 0 0) by congruence.
  rewrite (deref_insert_ne morph l _ _ _ _ 0 0) by congruence.
  rewrite deref_insert_eq. cbn [left_child right_child count set_children]. fold f.
  unfold touch. cbn [nodes_].
  rewrite (lookup_insert_ne _ r l) by congruence. rewrite lookup_insert_eq.
  cbn [nodes_]. rewrite lookup_insert_eq.
  unfold with_unique. cbn [nodes_ total_morph_tokens_ unique_morph_types_].
  rewrite (deref_insert_ne morph r _ _ _ _ 0 0) by congruence.
  rewrite (deref_insert_ne morph l _ _ _ _ 0 0) by congruence.
  rewrite deref_insert_eq. cbn [left_child right_child count set_children]. fold f.
  rewrite (deref_insert_ne l r _ _ _ _ 0 0) by congruence.
  rewrite !deref_insert_eq. cbn [count set_count].
  rewrite (size_t_wrap_small (cl + f)), (size_t_wrap_small (cr + f)) by lia.
  rewrite (size_t_wrap_small (total_morph_tokens_ s - f)) by lia.
  replace (total_morph_tokens_ s - f + f) with (total_morph_tokens_ s) by lia.
  rewrite (size_t_wrap_small (total_morph_tokens_ s)) by lia.
  rewrite (size_t_wrap_small (total_morph_tokens_ s + f)) by lia.
  replace (cl + f =? f) with (cl =? 0)
    by (destruct (Z.eqb_spec cl 0); destruct (Z.eqb_spec (cl + f) f); lia).
  replace (cr + f =? f) with (cr =? 0)
    by (destruct (Z.eqb_spec cr 0); destruct (Z.eqb_spec (cr + f) f); lia).
  rewrite size_t_wrap_small.
  2:{ destruct (cl =? 0); destruct (cr =? 0); cbn [b2z]; lia. }
  f_equal. f_equal. lia.
Qed.
End SplitLeafHalves.

(** [RemoveNode] at a leaf [x], on behalf of the word stored under
    [m]: the leaf loses the count of the word and is erased when
    nothing is left. *)
Lemma RemoveNode_leaf (fuel : nat) (m x : string) (s : t) (nm nx : MorphNode) :
  nodes_ s !! m = Some nm -> nodes_ s !! x = Some nx ->
  left_child nx = "" -> right_child nx = "" ->
  RemoveNode (S fuel) m x s
  = Ok (if size_t_wrap (count nx - count nm) =? 0
        then {| nodes_ := delete x (nodes_ s);
                total_morph_tokens_ := size_t_wrap (total_morph_tokens_ s - count nm);
                unique_morph_types_ := size_t_wrap (unique_morph_types_ s - 1) |}
        else {| nodes_ := <[x := set_count (size_t_wrap (count nx - count nm)) nx]>
                            (nodes_ s);
                total_morph_tokens_ := size_t_wrap (total_morph_tokens_ s - count nm);
                unique_morph_types_ := unique_morph_types_ s |}).
Proof.
  intros Hm Hx Hl Hr. cbn [RemoveNode]. unfold at_.
  rewrite Hx. cbn [obind]. rewrite Hl. cbn [str_empty negb obind].
  rewrite Hx. cbn [obind]. rewrite Hr. cbn [str_empty negb obind].
  rewrite Hm, Hx. cbn [obind].
  unfold has_children. cbn [left_child right_child count set_count]. rewrite Hl.
  cbn [str_empty negb andb]. f_equal.
  destruct (size_t_wrap (count nx - count nm) =? 0).
  - unfold with_nodes, with_unique, with_total.
    cbn [nodes_ total_morph_tokens_ unique_morph_types_].
    rewrite delete_insert_eq. reflexivity.
  - reflexivity.
Qed.

(** [RemoveNode] at the word itself when both halves are leaves. *)
Lemma RemoveNode_leaf_halves (fuel : nat) (m : string) (s : t) (nm nl nr : MorphNode) :
  nodes_ s !! m = Some nm ->
  left_child nm <> "" -> right_child nm <> "" ->
  left_child nm <> right_child nm -> left_child nm <> m -> right_child nm <> m ->
  nodes_ s !! left_child nm = Some nl -> left_child nl = "" -> right_child nl = "" ->
  nodes_ s !! right_child nm = Some nr -> left_child nr = "" -> right_child nr = "" ->
  count nm <= count nl < 2 ^ 64 -> count nm <= count nr < 2 ^ 64 ->
  0 <= count nm ->
  2 * count nm <= total_morph_tokens_ s < 2 ^ 64 ->
  b2z (count nl =? count nm) + b2z (count nr =? count nm)
    <= unique_morph_types_ s < 2 ^ 64 ->
  let lower := fun (x : string) (nx : MorphNode) (nodes : gmap string MorphNode) =>
                 if count nx =? count nm then delete x nodes
                 else <[x := set_count (count nx - count nm) nx]> nodes in
  RemoveNode (S (S fuel)) m m s
  = Ok {| nodes_ := delete m (lower (right_child nm) nr
                                (lower (left_child nm) nl (nodes_ s)));
          total_morph_tokens_ := total_morph_tokens_ s - 2 * count nm;
          unique_morph_types_ :=
            unique_morph_types_ s - b2z (count nl =? count nm)
                                  - b2z (count nr =? count nm) |}.
Proof.
  intros Hm Hl Hr Hlr Hlm Hrm Hnl Hnll Hnlr Hnr Hnrl Hnrr Hcl Hcr Hf HT HU lower.
  set (l := left_child nm) in *. set (r := right_child nm) in *.
  set (f := count nm) in *.
  assert (El : (size_t_wrap (count nl - f) =? 0) = (count nl =? f)).
  { rewrite size_t_wrap_small by lia.
    destruct (Z.eqb_spec (count nl - f) 0); destruct (Z.eqb_spec (count nl) f); lia. }
  assert (Er : (size_t_wrap (count nr - f) =? 0) = (count nr =? f)).
  { rewrite size_t_wrap_small by lia.
    destruct (Z.eqb_spec (count nr - f) 0); destruct (Z.eqb_spec (count nr) f); lia. }
  remember (S fuel) as fuel1 eqn:Hfuel. cbn [RemoveNode]. subst fuel1.
  unfold at_ at 1. rewrite Hm. cbn [obind]. fold l.
  apply str_empty_false in Hl. rewrite Hl. cbn [negb].
  rewrite (RemoveNode_leaf fuel m l s nm nl Hm Hnl Hnll Hnlr). cbn [obind].
  fold f. rewrite El, (size_t_wrap_small (count nl - f)) by lia.
  set (sa := if count nl =? f then _ else _).
  assert (Ha_m : nodes_ sa !! m = Some nm).
  { subst sa. destruct (count nl =? f); cbn [nodes_];
      [rewrite lookup_delete_ne by exact Hlm|rewrite lookup_insert_ne by exact Hlm];
      exact Hm. }
  assert (Ha_r : nodes_ sa !! r = Some nr).
  { subst sa. destruct (count nl =? f); cbn [nodes_];
      [rewrite lookup_delete_ne by exact Hlr|rewrite lookup_insert_ne by exact Hlr];
      exact Hnr. }
  assert (Ha_n : nodes_ sa = lower l nl (nodes_ s)).
  { subst sa lower. cbn beta. fold f. destruct (count nl =? f); reflexivity. }
  assert (Ha_T : total_morph_tokens_ sa = total_morph_tokens_ s - f).
  { subst sa. destruct (count nl =? f); cbn [total_morph_tokens_];
      apply size_t_wrap_small; lia. }
  assert (Ha_U : unique_morph_types_ sa
                 = unique_morph_types_ s - b2z (count nl =? f)).
  { subst sa. destruct (count nl =? f); cbn [unique_morph_types_ b2z] in *;
      [apply size_t_wrap_small; destruct (count nr =? f); cbn [b2z] in *|]; lia. }
  unfold at_ at 1. rewrite Ha_m. cbn [obind]. fold r.
  apply str_empty_false in Hr. rewrite Hr. cbn [negb].
  rewrite (RemoveNode_leaf fuel m r sa nm nr Ha_m Ha_r Hnrl Hnrr). cbn [obind].
  fold f. rewrite Er, (size_t_wrap_small (count nr - f)) by lia.
  set (sb := if count nr =? f then _ else _).
  assert (Hb_m : nodes_ sb !! m = Some nm).
  { subst sb. destruct (count nr =? f); cbn [nodes_];
      [rewrite lookup_delete_ne by exact Hrm|rewrite lookup_insert_ne by exact Hrm];
      exact Ha_m. }
  assert (Hb_n : nodes_ sb = lower r nr (lower l nl (nodes_ s))).
  { subst sb. unfold lower at 1. fold f. rewrite <- Ha_n.
    destruct (count nr =? f); reflexivity. }
  assert (Hb_T : total_morph_tokens_ sb = total_morph_tokens_ s - 2 * f).
  { subst sb. destruct (count nr =? f); cbn [total_morph_tokens_];
      rewrite Ha_T; rewrite size_t_wrap_small; lia. }
  assert (Hb_U : unique_morph_types_ sb
                 = unique_morph_types_ s - b2z (count nl =? f) - b2z (count nr =? f)).
  { subst sb. destruct (count nr =? f) eqn:E; cbn [unique_morph_types_ b2z] in *;
      rewrite Ha_U; [rewrite size_t_wrap_small|]; try lia.
    destruct (count nl =? f); cbn [b2z] in *; lia. }
  unfold at_. rewrite Hb_m. cbn [obind]. fold f.
  replace (f - f) with 0 by lia.
  unfold has_children. cbn [left_child right_child count set_count]. fold l r.
  rewrite Hl, Hr. cbn [negb andb]. change (size_t_wrap 0 =? 0) with true. cbn iota.
  unfold with_nodes. cbn [nodes_ total_morph_tokens_ unique_morph_types_].
  rewrite delete_insert_eq, Hb_n, Hb_T, Hb_U. reflexivity.
Qed.

(** X12: [Split] of a leaf into two different halves that are absent or
    leaves themselves (counts and totals within [size_t]): the word
    gets its two links, each half gains the count of the word (a missing
    half is created), the token total grows by that count, and the type
    count changes by minus one plus one per half that had no count
    before. *)
Theorem Split_into_leaf_halves (s : t) (morph : string) (k : nat) (node : MorphNode) :
  let l := substr morph 0 k in
  let r := substr_from morph k in
  let f := count node in
  let cl := count (deref l s) in
  let cr := count (deref r s) in
  nodes_ s !! morph = Some node -> has_children node = false ->
  (1 <= k < String.length morph)%nat -> l <> r ->
  left_child (deref l s) = "" /\ right_child (deref l s) = "" ->
  left_child (deref r s) = "" /\ right_child (deref r s) = "" ->
  0 <= f -> 0 <= cl /\ cl + f < 2 ^ 64 -> 0 <= cr /\ cr + f < 2 ^ 64 ->
  f <= total_morph_tokens_ s /\ total_morph_tokens_ s + f < 2 ^ 64 ->
  1 <= unique_morph_types_ s /\ unique_morph_types_ s + 1 < 2 ^ 64 ->
  Split morph k s
  = Ok {| nodes_ := <[r := set_count (cr + f) (deref r s)]>
                      (<[l := set_count (cl + f) (deref l s)]>
                         (<[morph := set_children l r node]> (nodes_ s)));
          total_morph_tokens_ := total_morph_tokens_ s + f;
          unique_morph_types_ :=
            unique_morph_types_ s - 1 + b2z (cl =? 0) + b2z (cr =? 0) |}.
Proof. intros. apply Split_leaf_halves; assumption. Qed.

Lemma Split_into_leaf_halves_witness :
  Split "ab" 1 (emplace "a" 2 (emplace "ab" 3 empty))
  = Ok {| nodes_ := <["b" := MorphNode_of 3]>
                      (<["a" := MorphNode_of 5]>
                         (<["ab" := set_children "a" "b" (MorphNode_of 3)]>
                            (nodes_ (emplace "a" 2 (emplace "ab" 3 empty)))));
          total_morph_tokens_ := 8;
          unique_morph_types_ := 2 |}.
Proof.
  apply (Split_into_leaf_halves (emplace "a" 2 (emplace "ab" 3 empty)) "ab" 1
           (MorphNode_of 3)); try (vm_compute; reflexivity).
  - simpl. lia.
  - discriminate.
  - split; reflexivity.
  - split; reflexivity.
  - simpl. lia.
  - split; vm_compute; congruence || reflexivity.
  - split; vm_compute; congruence || reflexivity.
  - split; vm_compute; congruence || reflexivity.
  - split; vm_compute; congruence || reflexivity.
Defined.

Lemma Remove_leaf_halves (s : t) (morph : string) (nm nl nr : MorphNode) :
  nodes_ s !! morph = Some nm ->
  left_child nm <> "" -> right_child nm <> "" ->
  morph = (left_child nm ++ right_child nm)%string ->
  left_child nm <> right_child nm ->
  nodes_ s !! left_child nm = Some nl -> left_child nl = "" -> right_child nl = "" ->
  nodes_ s !! right_child nm = Some nr -> left_child nr = "" -> right_child nr = "" ->
  count nm <= count nl < 2 ^ 64 -> count nm <= count nr < 2 ^ 64 ->
  0 <= count nm ->
  2 * count nm <= total_morph_tokens_ s < 2 ^ 64 ->
  b2z (count nl =? count nm) + b2z (count nr =? count nm)
    <= unique_morph_types_ s < 2 ^ 64 ->
  let lower := fun (x : string) (nx : MorphNode) (nodes : gmap string MorphNode) =>
                 if count nx =? count nm then delete x nodes
                 else <[x := set_count (count nx - count nm) nx]> nodes in
  Remove morph s
  = Ok {| nodes_ := delete morph (lower (right_child nm) nr
                                    (lower (left_child nm) nl (nodes_ s)));
          total_morph_tokens_ := total_morph_tokens_ s - 2 * count nm;
          unique_morph_types_ :=
            unique_morph_types_ s - b2z (count nl =? count nm)
                                  - b2z (count nr =? count nm) |}.
Proof.
  intros Hm Hl Hr Hcat Hlr Hnl Hnll Hnlr Hnr Hnrl Hnrr Hcl Hcr Hf HT HU lower.
  assert (Hlen : String.length morph
                 = (String.length (left_child nm) + String.length (right_child nm))%nat)
    by (rewrite Hcat at 1; apply length_append).
  pose proof (nonempty_length _ Hl). pose proof (nonempty_length _ Hr).
  unfold Remove.
  replace (contains morph s) with true.
  2:{ symmetry. unfold contains. apply bool_decide_eq_true. rewrite Hm. eauto. }
  cbn [assert obind]. unfold depth_budget.
  destruct (String.length morph) as [|[|len]] eqn:El; try lia.
  apply RemoveNode_leaf_halves; try assumption.
  - intros E. rewrite E in Hlen. lia.
  - intros E. rewrite E in Hlen. lia.
Qed.

(** X13: [Remove] of a word that is split into two different leaves: both
    halves lose the count of the word, a half whose count is used up is
    erased and counts as one type fewer, the token total drops by twice
    the count, and the word itself is erased. *)
Theorem Remove_word_with_leaf_halves (s : t) (morph : string) (nm nl nr : MorphNode) :
  nodes_ s !! morph = Some nm ->
  left_child nm <> "" -> right_child nm <> "" ->
  morph = (left_child nm ++ right_child nm)%string ->
  left_child nm <> right_child nm ->
  nodes_ s !! left_child nm = Some nl -> left_child nl = "" -> right_child nl = "" ->
  nodes_ s !! right_child nm = Some nr -> left_child nr = "" -> right_child nr = "" ->
  count nm <= count nl < 2 ^ 64 -> count nm <= count nr < 2 ^ 64 ->
  0 <= count nm ->
  2 * count nm <= total_morph_tokens_ s < 2 ^ 64 ->
  b2z (count nl =? count nm) + b2z (count nr =? count nm)
    <= unique_morph_types_ s < 2 ^ 64 ->
  let lower := fun (x : string) (nx : MorphNode) (nodes : gmap string MorphNode) =>
                 if count nx =? count nm then delete x nodes
                 else <[x := set_count (count nx - count nm) nx]> nodes in
  Remove morph s
  = Ok {| nodes_ := delete morph (lower (right_child nm) nr
                                    (lower (left_child nm) nl (nodes_ s)));
          total_morph_tokens_ := total_morph_tokens_ s - 2 * count nm;
          unique_morph_types_ :=
            unique_morph_types_ s - b2z (count nl =? count nm)
                                  - b2z (count nr =? count nm) |}.
Proof. apply Remove_leaf_halves. Qed.

Lemma Remove_word_with_leaf_halves_witness :
  exists s',
    Remove "ab" {| nodes_ := <["b" := MorphNode_of 3]>
                               (<["a" := MorphNode_of 5]>
                                  (<["ab" := set_children "a" "b" (MorphNode_of 3)]> ∅));
                   total_morph_tokens_ := 8;
                   unique_morph_types_ := 2 |} = Ok s'
    /\ count_of "a" s' = Some 2 /\ contains "b" s' = false /\ contains "ab" s' = false
    /\ total_morph_tokens_ s' = 2 /\ unique_morph_types_ s' = 1.
Proof.
  eexists. split.
  - apply (Remove_word_with_leaf_halves _ "ab" (set_children "a" "b" (MorphNode_of 3))
             (MorphNode_of 5) (MorphNode_of 3)); try reflexivity; try discriminate;
      vm_compute; try split; congruence || reflexivity.
  - repeat split; vm_compute; reflexivity.
Defined.

Lemma lower_lookup (b : bool) (x i : string) (v : MorphNode)
    (m : gmap string MorphNode) :
  (if b then delete x m else <[x := v]> m) !! i
  = if String.eqb x i then (if b then None else Some v) else m !! i.
Proof.
  destruct (String.eqb_spec x i) as [->|Hne]; destruct b.
  - apply lookup_delete_eq.
  - apply lookup_insert_eq.
  - apply lookup_delete_ne. exact Hne.
  - apply lookup_insert_ne. exact Hne.
Qed.

Lemma Remove_leaf (s : t) (morph : string) (node : MorphNode) :
  nodes_ s !! morph = Some node -> left_child node = "" -> right_child node = "" ->
  0 <= count node <= total_morph_tokens_ s -> total_morph_tokens_ s < 2 ^ 64 ->
  1 <= unique_morph_types_ s < 2 ^ 64 ->
  Remove morph s
  = Ok {| nodes_ := delete morph (nodes_ s);
          total_morph_tokens_ := total_morph_tokens_ s - count node;
          unique_morph_types_ := unique_morph_types_ s - 1 |}.
Proof.
  intros Hm Hl Hr HT HT' HU. unfold Remove.
  replace (contains morph s) with true.
  2:{ symmetry. unfold contains. apply bool_decide_eq_true. rewrite Hm. eauto. }
  cbn [assert obind]. unfold depth_budget.
  rewrite (RemoveNode_leaf _ morph morph s node node Hm Hm Hl Hr).
  replace (count node - count node) with 0 by lia.
  change (size_t_wrap 0 =? 0) with true. cbn iota.
  rewrite !size_t_wrap_small by lia. reflexivity.
Qed.

Section SplitThenRemove.
Variable s : t.
Variable morph : string.
Variable k : nat.
Variable node : MorphNode.

Let l := substr morph 0 k.
Let r := substr_from morph k.
Let f := count node.

Hypothesis Hnode : nodes_ s !! morph = Some node.
Hypothesis Hleaf : left_child node = "" /\ right_child node = "".
Hypothesis Hk : (1 <= k < String.length morph)%nat.
Hypothesis Hdistinct : l <> r.
Hypothesis Hl_half :
  nodes_ s !! l = None
  \/ exists c, 0 < c /\ c + f < 2 ^ 64 /\ nodes_ s !! l = Some (MorphNode_of c).
Hypothesis Hr_half :
  nodes_ s !! r = None
  \/ exists c, 0 < c /\ c + f < 2 ^ 64 /\ nodes_ s !! r = Some (MorphNode_of c).
Hypothesis Hf : 0 <= f.
Hypothesis HT : f <= total_morph_tokens_ s /\ total_morph_tokens_ s + f < 2 ^ 64.
Hypothesis HU : 1 <= unique_morph_types_ s /\ unique_morph_types_ s + 1 < 2 ^ 64.

Lemma half_deref (x : string) :
  (nodes_ s !! x = None
   \/ exists c, 0 < c /\ c + f < 2 ^ 64 /\ nodes_ s !! x = Some (MorphNode_of c)) ->
  deref x s = MorphNode_of (count (deref x s))
  /\ 0 <= count (deref x s) /\ count (deref x s) + f < 2 ^ 64
  /\ nodes_ s !! x = (if count (deref x s) =? 0 then None else Some (deref x s)).
Proof.
  unfold deref. intros [E|(c & Hc & Hcf & E)]; rewrite E;
    cbn [default from_option Datatypes.id count MorphNode_default MorphNode_of].
  - repeat split; try reflexivity; lia.
  - repeat split; try reflexivity; try lia.
    destruct (Z.eqb_spec c 0); [lia|reflexivity].
Qed.

Lemma Split_then_Remove_gen :
  exists s1,
    Split morph k s = Ok s1
    /\ Remove morph s1 = Remove morph s
    /\ Remove morph s
       = Ok {| nodes_ := delete morph (nodes_ s);
               total_morph_tokens_ := total_morph_tokens_ s - f;
               unique_morph_types_ := unique_morph_types_ s - 1 |}.
Proof.
  destruct Hleaf as [Hnl Hnr].
  destruct (half_deref l Hl_half) as (Dl & Hcl0 & Hcl1 & Ll).
  destruct (half_deref r Hr_half) as (Dr & Hcr0 & Hcr1 & Lr).
  set (cl := count (deref l s)) in *. set (cr := count (deref r s)) in *.
  assert (Hhas : has_children node = false).
  { unfold has_children. rewrite Hnl. reflexivity. }
  destruct (substr_piece_length morph k Hk) as (Hll & Hlr & Hcat). fold l r in Hll, Hlr, Hcat.
  assert (Hlne : l <> "") by (apply length_pos_nonempty; lia).
  assert (Hrne : r <> "") by (apply length_pos_nonempty; lia).
  assert (Hlm : l <> morph) by (intros E; rewrite E in Hll; lia).
  assert (Hrm : r <> morph) by (intros E; rewrite E in Hlr; lia).
  eexists. split.
  { apply (Split_leaf_halves s morph k node); try assumption; fold l r f.
    - rewrite Dl. split; reflexivity.
    - rewrite Dr. split; reflexivity.
    - split; assumption.
    - split; assumption. }
  fold l r f cl cr.
  assert (Hrem : Remove morph s
                 = Ok {| nodes_ := delete morph (nodes_ s);
                         total_morph_tokens_ := total_morph_tokens_ s - f;
                         unique_morph_types_ := unique_morph_types_ s - 1 |}).
  { apply Remove_leaf; try assumption; fold f; lia. }
  split; [|exact Hrem]. rewrite Hrem.
  rewrite (Remove_leaf_halves _ morph (set_children l r node)
             (set_count (cl + f) (deref l s)) (set_count (cr + f) (deref r s)));
    cbn [left_child right_child count set_children set_count
         nodes_ total_morph_tokens_ unique_morph_types_]; fold f;
    try assumption.
  - f_equal. f_equal.
    + apply map_eq. intros i.
      destruct (decide (morph = i)) as [<-|Hi];
        [rewrite !lookup_delete_eq; reflexivity|].
      rewrite !lookup_delete_ne by exact Hi.
      rewrite !lower_lookup.
      destruct (String.eqb_spec r i) as [<-|Hri].
      * rewrite Lr. fold cr.
        replace (cr + f =? f) with (cr =? 0)
          by (destruct (Z.eqb_spec cr 0); destruct (Z.eqb_spec (cr + f) f); lia).
        destruct (cr =? 0); [reflexivity|]. f_equal.
        rewrite Dr. unfold set_count, MorphNode_of.
        cbn [left_child right_child count]. f_equal. fold cr. lia.
      * rewrite lookup_insert_ne by exact Hri.
        destruct (String.eqb_spec l i) as [<-|Hli].
        -- rewrite Ll. fold cl.
           replace (cl + f =? f) with (cl =? 0)
             by (destruct (Z.eqb_spec cl 0); destruct (Z.eqb_spec (cl + f) f); lia).
           destruct (cl =? 0); [reflexivity|]. f_equal.
           rewrite Dl. unfold set_count, MorphNode_of.
           cbn [left_child right_child count]. f_equal. fold cl. lia.
        -- rewrite lookup_insert_ne by exact Hli.
           rewrite lookup_insert_ne by exact Hi. reflexivity.
    + lia.
    + replace (cl + f =? f) with (cl =? 0)
        by (destruct (Z.eqb_spec cl 0); destruct (Z.eqb_spec (cl + f) f); lia).
      replace (cr + f =? f) with (cr =? 0)
        by (destruct (Z.eqb_spec cr 0); destruct (Z.eqb_spec (cr + f) f); lia).
      lia.
  - rewrite (lookup_insert_ne _ r morph) by exact Hrm.
    rewrite (lookup_insert_ne _ l morph) by exact Hlm.
    apply lookup_insert_eq.
  - rewrite (lookup_insert_ne _ r l) by congruence. apply lookup_insert_eq.
  - rewrite Dl. reflexivity.
  - rewrite Dl. reflexivity.
  - apply lookup_insert_eq.
  - rewrite Dr. reflexivity.
  - rewrite Dr. reflexivity.
  - lia.
  - lia.
  - lia.
  - replace (cl + f =? f) with (cl =? 0)
      by (destruct (Z.eqb_spec cl 0); destruct (Z.eqb_spec (cl + f) f); lia).
    replace (cr + f =? f) with (cr =? 0)
      by (destruct (Z.eqb_spec cr 0); destruct (Z.eqb_spec (cr + f) f); lia).
    destruct (cl =? 0); destruct (cr =? 0); cbn [b2z]; lia.
Qed.
End SplitThenRemove.

(** X14: [Split] followed by [Remove] is [Remove]: when a leaf is split into
    two different halves that are new or leaves with a positive count
    (counts and totals within [size_t]) and then removed, the halves
    are back to what they were, new halves are gone again, and the tree
    is the one that removing the unsplit leaf gives: the word erased,
    its count taken from the token total, one type fewer. *)
Theorem Split_then_Remove (s : t) (morph : string) (k : nat) (node : MorphNode) :
  let l := substr morph 0 k in
  let r := substr_from morph k in
  let f := count node in
  nodes_ s !! morph = Some node ->
  left_child node = "" /\ right_child node = "" ->
  (1 <= k < String.length morph)%nat -> l <> r ->
  (nodes_ s !! l = None
   \/ exists c, 0 < c /\ c + f < 2 ^ 64 /\ nodes_ s !! l = Some (MorphNode_of c)) ->
  (nodes_ s !! r = None
   \/ exists c, 0 < c /\ c + f < 2 ^ 64 /\ nodes_ s !! r = Some (MorphNode_of c)) ->
  0 <= f ->
  f <= total_morph_tokens_ s /\ total_morph_tokens_ s + f < 2 ^ 64 ->
  1 <= unique_morph_types_ s /\ unique_morph_types_ s + 1 < 2 ^ 64 ->
  exists s1,
    Split morph k s = Ok s1
    /\ Remove morph s1 = Remove morph s
    /\ Remove morph s
       = Ok {| nodes_ := delete morph (nodes_ s);
               total_morph_tokens_ := total_morph_tokens_ s - f;
               unique_morph_types_ := unique_morph_types_ s - 1 |}.
Proof. intros. apply Split_then_Remove_gen; assumption. Qed.

Lemma Split_then_Remove_witness :
  exists s1,
    Split "ab" 1 (emplace "a" 2 (emplace "ab" 3 empty)) = Ok s1
    /\ Remove "ab" s1 = Remove "ab" (emplace "a" 2 (emplace "ab" 3 empty))
    /\ Remove "ab" (emplace "a" 2 (emplace "ab" 3 empty))
       = Ok {| nodes_ := delete "ab" (nodes_ (emplace "a" 2 (emplace "ab" 3 empty)));
               total_morph_tokens_ := 2;
               unique_morph_types_ := 1 |}.
Proof.
  apply (Split_then_Remove (emplace "a" 2 (emplace "ab" 3 empty)) "ab" 1
           (MorphNode_of 3)).
  - vm_compute. reflexivity.
  - split; reflexivity.
  - simpl. lia.
  - discriminate.
  - right. exists 2. repeat split; try (vm_compute; reflexivity).
  - left. vm_compute. reflexivity.
  - simpl. lia.
  - split; vm_compute; congruence || reflexivity.
  - split; vm_compute; congruence || reflexivity.
Defined.

End SplitAndRemove.

Section LetterCosts.
Import SegmentationTree.

(** ** The letter table: which characters it holds and what they cost *)

Lemma tally_letters_avoid (c : Z) (ch : ascii) (chars : list ascii) :
  ch ∉ chars ->
  forall acc, letter_counts acc !! ch = None ->
              letter_counts (fold_left (tally_letter c) chars acc) !! ch = None.
Proof.
  induction chars as [|x chars IH]; intros Hch acc Hacc; cbn [fold_left]; [exact Hacc|].
  apply IH.
  - intros Hin. apply Hch. right. exact Hin.
  - cbn [letter_counts tally_letter]. rewrite lookup_insert_ne; [exact Hacc|].
    intros ->. apply Hch. left.
Qed.

Lemma tally_nodes_avoid (ch : ascii) (l : list (string * MorphNode)) :
  Forall (fun kv => ch ∉ list_ascii_of_string kv.1) (leaves_of l) ->
  forall acc, letter_counts acc !! ch = None ->
              letter_counts (fold_left tally_node l acc) !! ch = None.
Proof.
  induction l as [|kv l IH]; intros Hav acc Hacc; cbn [fold_left]; [exact Hacc|].
  rewrite leaves_of_cons in Hav. unfold tally_node at 2. fold (is_leaf kv.2).
  destruct (is_leaf kv.2).
  - inversion Hav as [|? ? Hkv Hav']; subst. apply IH; [exact Hav'|].
    apply tally_letters_avoid; [exact Hkv|exact Hacc].
  - apply IH; assumption.
Qed.

(** X15: [MorphStringCost] looks the end marker up whatever the mode is.
    When no leaf contains the character '#', a call that starts from a
    table without an entry for it (the empty cache of a first call made
    with [use_implicit_length = false], or a cached table built without
    the end marker) throws. *)
Theorem MorphStringCost_needs_end_marker (use_implicit_length : bool)
    (letter_probabilities_ : gmap ascii R) (s : t) :
  letter_probabilities_ !! end_of_morph = None ->
  (size letter_probabilities_ = O -> use_implicit_length = false) ->
  Forall (fun kv => end_of_morph ∉ list_ascii_of_string kv.1) (leaf_entries s) ->
  MorphStringCost use_implicit_length letter_probabilities_ s = Failed.
Proof.
  intros Hcache Hmode Hleaves. unfold MorphStringCost.
  destruct (Nat.eqb_spec (size letter_probabilities_) 0) as [E0|E0].
  - rewrite (Hmode E0). unfold LetterProbabilities, assert.
    destruct (unique_morphs (tally s) =? unique_morph_types_ s);
      cbn [obind]; try reflexivity.
    destruct (tally_tokens (tally s) =? total_morph_tokens_ s);
      cbn [obind]; try reflexivity.
    unfold table_at. rewrite lookup_fmap. unfold tally.
    rewrite (tally_nodes_avoid end_of_morph (map_to_list (nodes_ s)) Hleaves tally_empty
               (lookup_empty _)).
    reflexivity.
  - cbn [obind]. unfold table_at. rewrite Hcache. reflexivity.
Qed.

Lemma MorphStringCost_needs_end_marker_witness :
  MorphStringCost false ∅ tree_aa = Failed.
Proof.
  apply (MorphStringCost_needs_end_marker false ∅ tree_aa).
  - apply lookup_empty.
  - reflexivity.
  - replace (leaf_entries tree_aa) with [("aa", MorphNode_of 1)]
      by (vm_compute; reflexivity).
    constructor; [|constructor].
    intros Hin. apply list_elem_of_In in Hin. simpl in Hin.
    destruct Hin as [Hin|[Hin|[]]]; discriminate.
Defined.

Lemma table_total_nonneg (counts : gmap ascii Z) :
  map_Forall (fun _ n => 0 < n) counts -> 0 <= table_total counts.
Proof.
  induction counts as [|ch n counts Hch IH] using map_ind; intros Hpos.
  - rewrite table_total_empty. lia.
  - apply map_Forall_insert in Hpos; [|exact Hch]. destruct Hpos as [Hn Hpos].
    rewrite table_total_insert by exact Hch. specialize (IH Hpos). lia.
Qed.

(** No count of the table exceeds the total. *)
Lemma table_total_ge (counts : gmap ascii Z) (ch : ascii) (n : Z) :
  map_Forall (fun _ n => 0 < n) counts -> counts !! ch = Some n ->
  0 < n <= table_total counts.
Proof.
  intros Hpos Hch. pose proof (Hpos _ _ Hch) as Hn. cbn beta in Hn.
  rewrite <- (insert_delete_id counts ch n Hch).
  rewrite table_total_insert by apply lookup_delete_eq.
  assert (0 <= table_total (delete ch counts)).
  { apply table_total_nonneg. apply map_Forall_delete. exact Hpos. }
  lia.
Qed.

Lemma std_log2_le (x y : Z) : 0 < x <= y -> (std_log2 (IZR x) <= std_log2 (IZR y))%R.
Proof.
  intros Hxy. unfold std_log2. pose proof ln_2_pos.
  apply Rmult_le_compat_r; [left; apply Rinv_0_lt_compat; lra|].
  apply ln_le; [apply IZR_lt; lia|apply IZR_le; lia].
Qed.

(** What the two loops of [LetterProbabilities] leave in the tally. *)
Lemma tally_of_tree (s : t) :
  Forall (fun kv => 0 < count kv.2) (leaf_entries s) ->
  leaf_letter_sum s + leaf_token_sum s < 2 ^ 64 ->
  tally_is (leaf_letter_sum s) (leaf_token_sum s)
    (Z.of_nat (length (leaf_entries s))) None (tally s).
Proof.
  intros Hpos Hbound.
  destruct (letters_in_nonneg _ Hpos) as [Hl0 Ht0].
  fold (leaf_letter_sum s) in Hl0. fold (leaf_token_sum s) in Ht0.
  assert (Hleaves : Z.of_nat (length (leaf_entries s)) <= leaf_token_sum s)
    by (apply leaves_at_most_tokens; exact Hpos).
  unfold tally, leaf_letter_sum, leaf_token_sum, leaf_entries in *.
  pose proof (tally_nodes_step None (map_to_list (nodes_ s)) Hpos) as Hstep.
  assert (Hav : Forall (fun kv : string * MorphNode =>
                          forall ch, None = Some ch -> ch ∉ list_ascii_of_string kv.1)
                  (leaves_of (map_to_list (nodes_ s)))).
  { apply Forall_forall. intros kv _ ch Hch. discriminate. }
  specialize (Hstep Hav 0 0 0 tally_empty).
  rewrite !Z.add_0_l in Hstep.
  apply Hstep; try lia. apply tally_empty_is.
Qed.

(** X16: Under the conditions that make the table a distribution, no cost
    of the table returned by [LetterProbabilities] is negative: every
    character is at most as frequent as all characters together. *)
Theorem letter_costs_are_nonnegative (include_end_of_string : bool)
    (s : t) (table : gmap ascii R) :
  LetterProbabilities include_end_of_string s = Ok table ->
  Forall (fun kv => 0 < count kv.2) (leaf_entries s) ->
  leaf_letter_sum s + leaf_token_sum s < 2 ^ 64 ->
  (include_end_of_string = true -> 0 < leaf_token_sum s) ->
  map_Forall (fun _ cost => (0 <= cost)%R) table.
Proof.
  intros Htable Hpos Hbound Hmode.
  destruct (letters_in_nonneg _ Hpos) as [Hl0 Ht0].
  fold (leaf_letter_sum s) in Hl0. fold (leaf_token_sum s) in Ht0.
  destruct (tally_of_tree s Hpos Hbound) as [H1 H2 H3 H4 H5 _].
  unfold LetterProbabilities in Htable.
  destruct (assert (unique_morphs (tally s) =? unique_morph_types_ s));
    cbn [obind] in Htable; try discriminate.
  destruct (assert (tally_tokens (tally s) =? total_morph_tokens_ s));
    cbn [obind] in Htable; try discriminate.
  inversion Htable as [Htab]. clear Htable.
  rewrite H1, H3.
  assert (Hcounts : forall N, leaf_letter_sum s <= N ->
            map_Forall (fun _ cost => (0 <= cost)%R)
              ((fun n => (std_log2 (IZR N) - std_log2 (IZR n))%R)
                 <$> letter_counts (tally s))).
  { intros N HN ch cost Hch. rewrite lookup_fmap in Hch.
    destruct (letter_counts (tally s) !! ch) as [n|] eqn:En; [|discriminate].
    inversion Hch; subst cost. cbn beta.
    pose proof (table_total_ge _ _ _ H5 En) as Hn. rewrite H2 in Hn.
    pose proof (std_log2_le n N ltac:(lia)). lra. }
  destruct include_end_of_string.
  - specialize (Hmode eq_refl).
    rewrite size_t_wrap_small by lia.
    apply map_Forall_insert_2.
    + pose proof (std_log2_le (leaf_token_sum s) (leaf_letter_sum s + leaf_token_sum s)
                    ltac:(lia)). lra.
    + apply Hcounts. lia.
  - apply Hcounts. lia.
Qed.

Lemma letter_costs_are_nonnegative_witness :
  exists table,
    LetterProbabilities true tree_aa = Ok table
    /\ map_Forall (fun _ cost => (0 <= cost)%R) table.
Proof.
  assert (Hleaves : leaf_entries tree_aa = [("aa", MorphNode_of 1)])
    by (vm_compute; reflexivity).
  assert (E : exists table, LetterProbabilities true tree_aa = Ok table).
  { eexists. unfold LetterProbabilities.
    replace (unique_morphs (tally tree_aa) =? unique_morph_types_ tree_aa) with true
      by (vm_compute; reflexivity).
    replace (tally_tokens (tally tree_aa) =? total_morph_tokens_ tree_aa) with true
      by (vm_compute; reflexivity).
    cbn [assert obind]. reflexivity. }
  destruct E as [table E]. exists table. split; [exact E|].
  apply (letter_costs_are_nonnegative true tree_aa table E).
  - rewrite Hleaves. constructor; [simpl; lia|constructor].
  - vm_compute. reflexivity.
  - intros _. vm_compute. reflexivity.
Defined.

(** ** The table with the special values *)

Lemma d_log2_positive (z : Z) : 0 < z -> d_log2 (d_of_Z z) = Num (std_log2 (IZR z)).
Proof.
  intros Hz. unfold d_log2, d_of_Z.
  destruct (Rlt_dec 0 (IZR z)) as [_|Hn]; [reflexivity|].
  exfalso. apply Hn. apply IZR_lt. exact Hz.
Qed.

(** X20: Under the conditions that make the table a distribution, the
    letter table computed with the special values of doubles is the
    table of real numbers: no logarithm meets zero. *)
Theorem letter_table_has_no_special_value (include_end_of_string : bool)
    (s : t) (table : gmap ascii R) :
  LetterProbabilities include_end_of_string s = Ok table ->
  Forall (fun kv => 0 < count kv.2) (leaf_entries s) ->
  leaf_letter_sum s + leaf_token_sum s < 2 ^ 64 ->
  (include_end_of_string = true -> 0 < leaf_token_sum s) ->
  Costs.LetterProbabilities include_end_of_string s = Ok (Num <$> table).
Proof.
  intros Htable Hpos Hbound Hmode.
  destruct (letters_in_nonneg _ Hpos) as [Hl0 Ht0].
  fold (leaf_letter_sum s) in Hl0. fold (leaf_token_sum s) in Ht0.
  destruct (tally_of_tree s Hpos Hbound) as [H1 H2 H3 H4 H5 _].
  unfold LetterProbabilities in Htable. unfold Costs.LetterProbabilities.
  destruct (assert (unique_morphs (tally s) =? unique_morph_types_ s));
    cbn [obind] in *; try discriminate.
  destruct (assert (tally_tokens (tally s) =? total_morph_tokens_ s));
    cbn [obind] in *; try discriminate.
  inversion Htable as [Htab]. clear Htable Htab.
  rewrite H1, H3.
  assert (Hcounts : forall N, leaf_letter_sum s <= N ->
            (fun n => dsub (d_log2 (d_of_Z N)) (d_log2 (d_of_Z n)))
              <$> letter_counts (tally s)
            = Num <$> ((fun n => (std_log2 (IZR N) - std_log2 (IZR n))%R)
                         <$> letter_counts (tally s))).
  { intros N HN. rewrite <- map_fmap_compose. apply map_fmap_ext.
    intros ch n En. pose proof (table_total_ge _ _ _ H5 En) as Hn. rewrite H2 in Hn.
    cbn [compose]. rewrite !d_log2_positive by lia. reflexivity. }
  f_equal. destruct include_end_of_string.
  - specialize (Hmode eq_refl). rewrite size_t_wrap_small by lia.
    rewrite fmap_insert, <- Hcounts by lia.
    rewrite !d_log2_positive by lia. reflexivity.
  - apply Hcounts. lia.
Qed.

Lemma letter_table_has_no_special_value_witness :
  exists table,
    LetterProbabilities true tree_aa = Ok table
    /\ Costs.LetterProbabilities true tree_aa = Ok (Num <$> table).
Proof.
  assert (Hleaves : leaf_entries tree_aa = [("aa", MorphNode_of 1)])
    by (vm_compute; reflexivity).
  assert (E : exists table, LetterProbabilities true tree_aa = Ok table).
  { eexists. unfold LetterProbabilities.
    replace (unique_morphs (tally tree_aa) =? unique_morph_types_ tree_aa) with true
      by (vm_compute; reflexivity).
    replace (tally_tokens (tally tree_aa) =? total_morph_tokens_ tree_aa) with true
      by (vm_compute; reflexivity).
    cbn [assert obind]. reflexivity. }
  destruct E as [table E]. exists table. split; [exact E|].
  apply (letter_table_has_no_special_value true tree_aa table E).
  - rewrite Hleaves. constructor; [simpl; lia|constructor].
  - vm_compute. reflexivity.
  - intros _. vm_compute. reflexivity.
Defined.

(** ** [Optimize] and the end marker *)

Lemma over_leaves_returns {A : Type} (f : A -> string -> MorphNode -> outcome A)
    (s : t) (init : A) :
  (forall a morph node, f a morph node <> NoFuel) ->
  Costs.over_leaves f s init <> NoFuel.
Proof.
  intros Hf. unfold Costs.over_leaves.
  assert (Hgen : forall l acc, acc <> NoFuel ->
            fold_left (fun acc kv =>
                         a <- acc ;;
                         if negb (has_children kv.2) then f a kv.1 kv.2 else Ok a)
                      l acc <> NoFuel).
  { induction l as [|kv l IH]; intros acc Hacc; cbn [fold_left]; [exact Hacc|].
    apply IH. destruct acc as [a| |]; cbn [obind]; try congruence.
    destruct (negb (has_children kv.2)); [apply Hf|discriminate]. }
  apply Hgen. discriminate.
Qed.

(** A table built without the end marker has no entry for it as long
    as no leaf contains the character. *)
Lemma LetterProbabilities_without_end_marker (s : t) (table : gmap ascii double) :
  Forall (fun kv => end_of_morph ∉ list_ascii_of_string kv.1) (leaf_entries s) ->
  Costs.LetterProbabilities false s = Ok table ->
  table !! end_of_morph = None.
Proof.
  intros Hleaves. unfold Costs.LetterProbabilities, assert.
  destruct (unique_morphs (tally s) =? unique_morph_types_ s); cbn [obind];
    try discriminate.
  destruct (tally_tokens (tally s) =? total_morph_tokens_ s); cbn [obind];
    try discriminate.
  intros E. inversion E; subst table. rewrite lookup_fmap. unfold tally.
  rewrite (tally_nodes_avoid end_of_morph (map_to_list (nodes_ s)) Hleaves tally_empty
             (lookup_empty _)).
  reflexivity.
Qed.

Lemma MorphStringCost_explicit_throws (s : t) (table : gmap ascii double) :
  Forall (fun kv => end_of_morph ∉ list_ascii_of_string kv.1) (leaf_entries s) ->
  table !! end_of_morph = None ->
  Costs.MorphStringCost false table s = Failed.
Proof.
  intros Hleaves Htable. unfold Costs.MorphStringCost, Costs.filled.
  destruct (size table =? 0)%nat.
  - destruct (Costs.LetterProbabilities false s) as [table'| |] eqn:E; cbn [obind];
      try reflexivity.
    + unfold Costs.table_at.
      rewrite (LetterProbabilities_without_end_marker s table' Hleaves E). reflexivity.
    + exfalso. revert E. unfold Costs.LetterProbabilities, assert.
      destruct (_ =? _); cbn [obind]; try discriminate.
      destruct (_ =? _); cbn [obind]; discriminate.
  - cbn [obind]. unfold Costs.table_at. rewrite Htable. reflexivity.
Qed.

Lemma OverallCost_explicit_throws (ext : Costs.Externals) (mode : AlgorithmModes)
    (s : t) (table : gmap ascii double) :
  mode = kBaselineFreqLength \/ mode = kBaselineLength ->
  Forall (fun kv => end_of_morph ∉ list_ascii_of_string kv.1) (leaf_entries s) ->
  table !! end_of_morph = None ->
  Costs.OverallCost ext mode table s = Failed.
Proof.
  intros Hmode Hleaves Htable.
  pose proof (MorphStringCost_explicit_throws s table Hleaves Htable) as Hm.
  assert (Hf1 : Costs.ProbabilityFromExplicitFrequencies ext s <> NoFuel).
  { unfold Costs.ProbabilityFromExplicitFrequencies. apply over_leaves_returns.
    discriminate. }
  assert (Hf2 : Costs.ProbabilityFromImplicitFrequencies s <> NoFuel).
  { unfold Costs.ProbabilityFromImplicitFrequencies, assert.
    destruct (_ <? _); [|discriminate]. destruct (_ <=? _); discriminate. }
  assert (Hl : forall prior beta,
             Costs.ProbabilityFromExplicitLengths ext prior beta s <> NoFuel).
  { intros prior beta. unfold Costs.ProbabilityFromExplicitLengths, assert.
    destruct (Costs.gamma_accepts ext _ beta); cbn [obind]; [|discriminate].
    apply over_leaves_returns. intros a morph node.
    destruct (Costs.gamma_pdf ext _ _ _); discriminate. }
  unfold Costs.OverallCost, Costs.LexiconCost.
  destruct Hmode as [-> | ->].
  - destruct (Costs.ProbabilityFromExplicitFrequencies ext s); cbn [obind];
      try reflexivity; try congruence.
    specialize (Hl (Costs.prior_default ext) (Costs.beta_default ext)).
    destruct (Costs.ProbabilityFromExplicitLengths ext _ _ s); cbn [obind];
      try reflexivity; try congruence.
    rewrite Hm. reflexivity.
  - destruct (Costs.ProbabilityFromImplicitFrequencies s); cbn [obind];
      try reflexivity; try congruence.
    specialize (Hl (Costs.prior_default ext) (Costs.beta_default ext)).
    destruct (Costs.ProbabilityFromExplicitLengths ext _ _ s); cbn [obind];
      try reflexivity; try congruence.
    rewrite Hm. reflexivity.
Qed.

Lemma Optimize_explicit_throws (ext : Costs.Externals) (mode : AlgorithmModes)
    (eps : double) (shuffle : nat -> list string -> list string) (fuel : nat) (s : t) :
  mode = kBaselineFreqLength \/ mode = kBaselineLength ->
  Forall (fun kv => end_of_morph ∉ list_ascii_of_string kv.1) (leaf_entries s) ->
  Optimize ext mode eps shuffle fuel s = Failed.
Proof.
  intros Hmode Hleaves. unfold Optimize, Optimize_start.
  replace (AlgorithmModes_eqb mode kBaseline || AlgorithmModes_eqb mode kBaselineFreq)
    with false by (destruct Hmode as [-> | ->]; reflexivity).
  destruct (Costs.LetterProbabilities false s) as [table| |] eqn:E; cbn [obind].
  - unfold read_cost. cbn [fst snd].
    rewrite (OverallCost_explicit_throws ext mode s table Hmode Hleaves
               (LetterProbabilities_without_end_marker s table Hleaves E)).
    reflexivity.
  - reflexivity.
  - exfalso. revert E. unfold Costs.LetterProbabilities, assert.
    destruct (_ =? _); cbn [obind]; try discriminate.
    destruct (_ =? _); cbn [obind]; discriminate.
Qed.

(** X19: In the two modes with explicit lengths [Optimize] never reaches
    its first pass unless some leaf contains the character '#': the
    letter table is built without the end marker, and the first
    [OverallCost] looks the end marker up in it, which throws (unless an
    assertion or a cost function has stopped the call before). *)
Theorem Optimize_throws_without_end_marker (ext : Costs.Externals)
    (mode : AlgorithmModes) (eps : double)
    (shuffle : nat -> list string -> list string) (fuel : nat) (s : t) :
  mode = kBaselineFreqLength \/ mode = kBaselineLength ->
  Forall (fun kv => end_of_morph ∉ list_ascii_of_string kv.1) (leaf_entries s) ->
  Optimize ext mode eps shuffle fuel s = Failed.
Proof. apply Optimize_explicit_throws. Qed.

Lemma Optimize_throws_without_end_marker_witness :
  Optimize sample_externals kBaselineLength default_convergence_threshold
    (fun _ keys => keys) 1 tree_aa = Failed.
Proof.
  apply (Optimize_throws_without_end_marker sample_externals kBaselineLength
           default_convergence_threshold (fun _ keys => keys) 1 tree_aa).
  - right. reflexivity.
  - replace (leaf_entries tree_aa) with [("aa", MorphNode_of 1)]
      by (vm_compute; reflexivity).
    constructor; [|constructor].
    cbn [fst list_ascii_of_string]. intros Hin.
    apply list_elem_of_In in Hin. simpl in Hin.
    destruct Hin as [Hin|[Hin|[]]]; discriminate.
Defined.

(** ** [Optimize] on the empty tree *)

(** X17: On the empty tree [Optimize] makes exactly one pass, which has no
    key to resplit, in the two modes that count the end marker: both
    costs are not a number, so the loop is left, whatever the threshold
    and the shuffle are.  In the two modes with explicit lengths it
    throws before the first pass. *)
Theorem Optimize_empty_tree (ext : Costs.Externals) (mode : AlgorithmModes)
    (eps : double) (shuffle : nat -> list string -> list string) (fuel : nat) :
  (forall i keys, Permutation (shuffle i keys) keys) ->
  Optimize ext mode eps shuffle (S fuel) empty
  = match mode with
    | kBaseline | kBaselineFreq => Ok ((empty, {[ end_of_morph := NaN ]}), 1%nat)
    | kBaselineFreqLength | kBaselineLength => Failed
    end.
Proof.
  intros Hshuffle.
  assert (Hnil : shuffle O [] = []) by (apply Permutation_nil_r, Hshuffle).
  assert (Hnone : Forall (fun kv : string * MorphNode =>
                            end_of_morph ∉ list_ascii_of_string kv.1)
                    (leaf_entries empty)).
  { unfold leaf_entries. cbn [nodes_ empty]. rewrite map_to_list_empty. constructor. }
  destruct mode.
  - apply (Optimize_empty_implicit ext kBaseline eps shuffle fuel); [left; reflexivity|].
    exact Hnil.
  - apply (Optimize_empty_implicit ext kBaselineFreq eps shuffle fuel);
      [right; reflexivity|]. exact Hnil.
  - apply Optimize_explicit_throws; [left; reflexivity|exact Hnone].
  - apply Optimize_explicit_throws; [right; reflexivity|exact Hnone].
Qed.

Lemma Optimize_empty_tree_witness :
  Optimize sample_externals kBaseline default_convergence_threshold
    (fun _ keys => keys) 1 empty
  = Ok ((empty, {[ end_of_morph := NaN ]}), 1%nat).
Proof.
  apply (Optimize_empty_tree sample_externals kBaseline default_convergence_threshold
           (fun _ keys => keys) O).
  intros i keys. reflexivity.
Defined.

End LetterCosts.

Section DecoderOptimum.
Import Segmentation.

(** ** The entry of a word is a cheapest segmentation *)

Lemma append_inj_length (x x' y y' : string) :
  (x ++ y)%string = (x' ++ y')%string -> String.length x = String.length x' ->
  x = x' /\ y = y'.
Proof.
  revert x'. induction x as [|c x IH]; intros [|c' x'] E Hlen; simpl in Hlen;
    try discriminate.
  - split; [reflexivity|exact E].
  - rewrite !append_String in E. inversion E; subst.
    destruct (IH x' H1) as [-> ->]; [lia|]. split; reflexivity.
Qed.

Lemma length_glued_snoc (l : list string) (m : string) :
  String.length (glued (l ++ [m]))
  = (String.length (glued l) + String.length m)%nat.
Proof. rewrite glued_snoc. apply length_append. Qed.

Section CheapestPath.
Context {M : Type} `{Model M}.
Variable s : t M.
Variable ltc : R.
Variable word : string.

Let n := String.length word.
Let bad := (IZR (Z.of_nat n + 1) * ltc)%R.
Let pinf := (IZR (Z.of_nat n + 1) * bad)%R.

Lemma candidate_cost_charged (morph : string) (len : nat) :
  String.length morph = len ->
  candidate_cost ltc bad morph len s = Ok (charged s ltc bad morph, s).
Proof.
  intros Hlen. unfold candidate_cost, bind, contains_, count_at, ret, charged.
  cbn [obind fst snd]. unfold contains, at_.
  destruct (nodes_ s !! morph) as [node|] eqn:En.
  - rewrite bool_decide_eq_true_2 by eauto. cbn [obind fst snd].
    rewrite En. reflexivity.
  - rewrite bool_decide_eq_false_2 by (intros [x Hx]; discriminate).
    rewrite Hlen. destruct (len =? 1)%nat; reflexivity.
Qed.

(** One turn of the loop over [morph_length] keeps the smaller of the
    best cost so far and the cost through the candidate. *)
Lemma consider_min (delta : list R) (e len : nat) (best : R * nat) :
  (1 <= len <= e)%nat -> (e <= n)%nat -> (e < length delta)%nat ->
  consider word ltc bad delta e best len s
  = Ok (match charged s ltc bad (substr word (e - len) len) with
        | None => best
        | Some c =>
            if dlt (nth (e - len) delta 0 + IZR c)%R best.1
            then ((nth (e - len) delta 0 + IZR c)%R, len)
            else best
        end, s).
Proof.
  intros Hlen He Hd. unfold consider, bind.
  rewrite candidate_cost_charged by (unfold substr; apply substring_length; subst n; lia).
  cbn [obind fst snd].
  destruct (charged s ltc bad (substr word (e - len) len)) as [c|]; [|reflexivity].
  unfold check.
  replace ((len <=? e)%nat && (e - len <? length delta)%nat) with true.
  2:{ symmetry. apply andb_true_iff. split; [apply Nat.leb_le|apply Nat.ltb_lt]; lia. }
  reflexivity.
Qed.

Lemma for_each_consider_min (delta : list R) (e : nat) (lens : list nat) :
  (e <= n)%nat -> (e < length delta)%nat ->
  Forall (fun len => 1 <= len <= e)%nat lens ->
  forall best, exists best',
    for_each (consider word ltc bad delta e) lens best s = Ok (best', s)
    /\ (best'.1 <= best.1)%R
    /\ (forall len c, In len lens ->
          charged s ltc bad (substr word (e - len) len) = Some c ->
          (best'.1 <= nth (e - len) delta 0 + IZR c)%R)
    /\ (best' = best
        \/ (In best'.2 lens
            /\ exists c, charged s ltc bad (substr word (e - best'.2) best'.2) = Some c
                         /\ best'.1 = (nth (e - best'.2) delta 0 + IZR c)%R)).
Proof.
  intros He Hd. induction 1 as [|len lens Hlen Hlens IH]; intros best; cbn [for_each].
  - exists best. unfold ret. split; [reflexivity|]. split; [lra|].
    split; [intros len c []|left; reflexivity].
  - unfold bind. rewrite consider_min by assumption. cbn [obind fst snd].
    set (b1 := match charged s ltc bad (substr word (e - len) len) with
               | None => best | Some c => _ end).
    destruct (IH b1) as (best' & E & Hle & Hall & Hsel).
    exists best'. split; [exact E|].
    assert (Hb1 : (b1.1 <= best.1)%R
                  /\ (forall c, charged s ltc bad (substr word (e - len) len) = Some c ->
                                (b1.1 <= nth (e - len) delta 0 + IZR c)%R)
                  /\ (b1 = best
                      \/ (b1.2 = len
                          /\ exists c, charged s ltc bad (substr word (e - len) len) = Some c
                                       /\ b1.1 = (nth (e - len) delta 0 + IZR c)%R))).
    { subst b1. destruct (charged s ltc bad (substr word (e - len) len)) as [c|].
      - destruct (dlt _ _) eqn:Ed.
        + apply dlt_spec in Ed. cbn [fst snd]. split; [lra|].
          split; [intros c' Hc'; inversion Hc'; subst; lra|].
          right. split; [reflexivity|]. exists c. split; reflexivity.
        + assert (Hge : (best.1 <= nth (e - len) delta 0 + IZR c)%R).
          { destruct (Rlt_or_le (nth (e - len) delta 0 + IZR c)%R best.1) as [Hlt|Hge];
              [|exact Hge].
            rewrite dlt_true in Ed by exact Hlt. discriminate. }
          split; [lra|]. split; [intros c' Hc'; inversion Hc'; subst; exact Hge|].
          left. reflexivity.
      - split; [lra|]. split; [intros c Hc; discriminate|left; reflexivity]. }
    destruct Hb1 as (Hb1le & Hb1all & Hb1sel).
    split; [lra|]. split.
    + intros len' c [<-|Hin] Hc.
      * specialize (Hb1all c Hc). lra.
      * apply (Hall len' c Hin Hc).
    + destruct Hsel as [->|(Hin & c & Hc & Hv)].
      * destruct Hb1sel as [->|(H2 & c & Hc & Hv)]; [left; reflexivity|].
        right. split; [left; symmetry; exact H2|]. exists c. rewrite H2. auto.
      * right. split; [right; exact Hin|]. exists c. auto.
Qed.

(** The loop over [end_index] extends what is established by one
    position. *)
Lemma advance_dp (tables : list R * list nat) (k : nat) :
  tables_ok n tables -> (S k <= n)%nat -> dp_ok s ltc bad word k tables ->
  exists tables',
    advance word ltc bad pinf tables (S k) s = Ok (tables', s)
    /\ tables_ok n tables' /\ dp_ok s ltc bad word (S k) tables'.
Proof.
  intros Hok Hk [H0 Hdp].
  destruct (advance_total s word ltc bad pinf n tables (S k) Hok ltac:(lia))
    as (tables' & E & Hok').
  exists tables'. split; [exact E|]. split; [exact Hok'|].
  destruct Hok as (Hd & Hp & _).
  unfold advance, bind in E.
  destruct (for_each_consider_min tables.1 (S k) (seq 1 (S k)) ltac:(lia) ltac:(lia))
    with (best := (pinf, O)) as (best & Eb & _ & Hall & Hsel).
  { apply Forall_forall. intros x Hx. apply list_elem_of_In, in_seq in Hx. lia. }
  rewrite Eb in E. cbn [obind fst snd] in E. unfold check in E.
  destruct (assert _); cbn [obind fst snd] in E; try discriminate.
  unfold ret in E. inversion E; subst tables'. clear E. cbn [fst snd].
  assert (Hd_other : forall j, j <> S k ->
             nth j (<[S k := best.1]> tables.1) 0%R = nth j tables.1 0%R).
  { intros j Hj. rewrite !nth_lookup, list_lookup_insert_ne by congruence. reflexivity. }
  assert (Hd_this : nth (S k) (<[S k := best.1]> tables.1) 0%R = best.1).
  { rewrite nth_lookup, list_lookup_insert_eq by lia. reflexivity. }
  assert (Hp_other : forall j, j <> S k ->
             nth j (<[S k := best.2]> tables.2) O = nth j tables.2 O).
  { intros j Hj. rewrite !nth_lookup, list_lookup_insert_ne by congruence. reflexivity. }
  assert (Hp_this : nth (S k) (<[S k := best.2]> tables.2) O = best.2).
  { rewrite nth_lookup, list_lookup_insert_eq by lia. reflexivity. }
  split; cbn [fst snd].
  - rewrite Hd_other by lia. exact H0.
  - intros j Hj. destruct (Nat.eq_dec j (S k)) as [->|Hne].
    + rewrite Hd_this, Hp_this. split.
      * intros len c Hlen Hc. rewrite Hd_other by lia.
        apply Hall; [apply in_seq; lia|exact Hc].
      * intros Hpos. destruct Hsel as [->|(Hin & c & Hc & Hv)]; [cbn in Hpos; lia|].
        exists c. split; [exact Hc|]. rewrite Hd_other by lia. exact Hv.
    + destruct (Hdp j ltac:(lia)) as [Ha Hb].
      rewrite Hd_other, Hp_other by exact Hne. split.
      * intros len c Hlen Hc. rewrite Hd_other by lia. apply Ha; assumption.
      * intros Hpos. destruct (Hb Hpos) as (c & Hc & Hv).
        exists c. split; [exact Hc|]. rewrite Hd_other by lia. exact Hv.
Qed.

Lemma for_each_advance_dp (m : nat) :
  forall (k : nat) (tables : list R * list nat),
    tables_ok n tables -> (k + m <= n)%nat -> dp_ok s ltc bad word k tables ->
    exists tables',
      for_each (advance word ltc bad pinf) (seq (S k) m) tables s = Ok (tables', s)
      /\ tables_ok n tables' /\ dp_ok s ltc bad word (k + m) tables'.
Proof.
  induction m as [|m IH]; intros k tables Hok Hkm Hdp; cbn [seq for_each].
  - exists tables. unfold ret. split; [reflexivity|]. split; [exact Hok|].
    replace (k + 0)%nat with k by lia. exact Hdp.
  - unfold bind.
    destruct (advance_dp tables k Hok ltac:(lia) Hdp) as (t1 & E1 & Hok1 & Hdp1).
    rewrite E1. cbn [obind fst snd].
    destruct (IH (S k) t1 Hok1 ltac:(lia) Hdp1) as (t2 & E2 & Hok2 & Hdp2).
    exists t2. split; [exact E2|]. split; [exact Hok2|].
    replace (k + S m)%nat with (S k + m)%nat by lia. exact Hdp2.
Qed.

Lemma viterbi_tables_dp (w : Morph) :
  letters w = word ->
  exists tables,
    viterbi_tables ltc w s = Ok (tables, s)
    /\ tables_ok n tables /\ dp_ok s ltc bad word n tables.
Proof.
  intros Hw. unfold viterbi_tables. rewrite Hw. fold n bad pinf.
  destruct (for_each_advance_dp n 0 (repeat 0%R (n + 1), repeat O (n + 1)))
    as (tables & E & Hok & Hdp); try lia.
  - unfold tables_ok. cbn [fst snd]. rewrite !repeat_length.
    repeat split; try lia.
    intros i. destruct (Nat.lt_ge_cases i (n + 1)) as [Hlt|Hge].
    + rewrite nth_repeat_lt by exact Hlt. lia.
    + rewrite nth_overflow by (rewrite repeat_length; lia). lia.
  - split; cbn [fst snd].
    + apply nth_repeat_lt. lia.
    + intros j Hj. lia.
  - exists tables. auto.
Qed.

Lemma path_cost_snoc (pieces : list string) (m : string) :
  path_cost s ltc bad (pieces ++ [m])
  = match path_cost s ltc bad pieces, charged s ltc bad m with
    | Some r, Some c => Some (r + IZR c)%R
    | _, _ => None
    end
  \/ exists r c x,
       path_cost s ltc bad pieces = Some r /\ charged s ltc bad m = Some c
       /\ path_cost s ltc bad (pieces ++ [m]) = Some x /\ x = (r + IZR c)%R.
Proof.
  induction pieces as [|p pieces IH]; cbn [app path_cost].
  - destruct (charged s ltc bad m) as [c|]; [|left; reflexivity].
    right. exists 0%R, c, (IZR c + 0)%R. repeat split; try reflexivity. lra.
  - destruct (charged s ltc bad p) as [cp|]; [|left; reflexivity].
    destruct IH as [->|(r & c & x & -> & -> & -> & ->)].
    + destruct (path_cost s ltc bad pieces) as [r|]; [|left; reflexivity].
      destruct (charged s ltc bad m) as [c|]; [|left; reflexivity].
      right. exists (IZR cp + r)%R, c, (IZR cp + (r + IZR c))%R.
      repeat split; try reflexivity. lra.
    + right. exists (IZR cp + r)%R, c, (IZR cp + (r + IZR c))%R.
      repeat split; try reflexivity. lra.
Qed.

Lemma path_cost_snoc_inv (pieces : list string) (m : string) (x : R) :
  path_cost s ltc bad (pieces ++ [m]) = Some x ->
  exists r c, path_cost s ltc bad pieces = Some r /\ charged s ltc bad m = Some c
              /\ x = (r + IZR c)%R.
Proof.
  intros E. destruct (path_cost_snoc pieces m) as [E'|(r & c & x' & Hr & Hc & Hx & Hv)].
  - rewrite E' in E.
    destruct (path_cost s ltc bad pieces) as [r|]; [|discriminate].
    destruct (charged s ltc bad m) as [c|]; [|discriminate].
    inversion E. eauto.
  - rewrite Hx in E. inversion E; subst. eauto.
Qed.

Lemma path_cost_snoc_intro (pieces : list string) (m : string) (r : R) (c : Z) :
  path_cost s ltc bad pieces = Some r -> charged s ltc bad m = Some c ->
  exists x, path_cost s ltc bad (pieces ++ [m]) = Some x /\ x = (r + IZR c)%R.
Proof.
  intros Hr Hc. destruct (path_cost_snoc pieces m) as [E'|(r' & c' & x' & Hr' & Hc' & Hx & Hv)].
  - rewrite Hr, Hc in E'. eauto.
  - rewrite Hr in Hr'. rewrite Hc in Hc'. inversion Hr'; inversion Hc'; subst. eauto.
Qed.

(** No segmentation of a prefix is cheaper than its [delta]. *)
Lemma delta_is_lower_bound (tables : list R * list nat) :
  dp_ok s ltc bad word n tables ->
  forall (pieces : list string) (e : nat) (x : R),
    (e <= n)%nat ->
    Forall (fun m => m <> "") pieces ->
    glued pieces = String.substring 0 e word ->
    path_cost s ltc bad pieces = Some x ->
    (nth e tables.1 0 <= x)%R.
Proof.
  intros [H0 Hdp]. induction pieces as [|m pieces IH] using rev_ind;
    intros e x He Hne Hg Hx.
  - cbn [glued fold_right] in Hg.
    assert (e = O).
    { pose proof (substring_length word 0 e ltac:(subst n; lia)) as Hl.
      rewrite <- Hg in Hl. cbn in Hl. lia. }
    subst e. cbn [path_cost] in Hx. inversion Hx. rewrite H0. lra.
  - apply Forall_app in Hne. destruct Hne as [Hne Hm]. inversion Hm as [|? ? Hm' _]; subst.
    pose proof (nonempty_length _ Hm') as Hlen.
    pose proof (substring_length word 0 e ltac:(subst n; lia)) as Hl.
    rewrite <- Hg, length_glued_snoc in Hl.
    set (len := String.length m) in *.
    pose proof (substring_append word 0 (e - len) len ltac:(subst n; cbn [Nat.add]; lia))
      as Happ.
    cbn [Nat.add] in Happ. replace (e - len + len)%nat with e in Happ by lia.
    rewrite glued_snoc, <- Happ in Hg.
    apply append_inj_length in Hg.
    2:{ rewrite substring_length by (subst n; lia). lia. }
    destruct Hg as [Hg1 Hg2].
    destruct (path_cost_snoc_inv _ _ _ Hx) as (r & c & Hr & Hc & ->).
    specialize (IH (e - len)%nat r ltac:(lia) Hne Hg1 Hr).
    destruct (Hdp e ltac:(lia)) as [Ha _].
    rewrite Hg2 in Hc. specialize (Ha len c ltac:(lia) Hc). lra.
Qed.

(** With every position of [psi] set, the morphs of the backtrace cost
    what [delta] says. *)
Lemma chosen_morphs_cost (tables : list R * list nat) :
  tables_ok n tables -> dp_ok s ltc bad word n tables ->
  (forall j, (1 <= j <= n)%nat -> (1 <= nth j tables.2 O)%nat) ->
  forall fuel end_index morphs,
    (end_index <= fuel)%nat -> (end_index <= n)%nat ->
    exists ms,
      chosen_morphs fuel word tables.2 end_index morphs = Ok (ms ++ morphs)%list
      /\ glued ms = String.substring 0 end_index word
      /\ Forall (fun m => m <> "") ms
      /\ path_cost s ltc bad ms = Some (nth end_index tables.1 0%R).
Proof.
  intros (Hd & Hp & Hj) [H0 Hdp] Hfull.
  induction fuel as [|fuel IH]; intros e morphs Hf He.
  - assert (e = O) by lia. subst e. cbn [chosen_morphs].
    assert (Hz : nth 0 tables.2 O = O) by (specialize (Hj O); lia). rewrite Hz.
    exists []. split; [reflexivity|]. split.
    { cbn [glued fold_right]. symmetry. apply substring_nil. lia. }
    split; [constructor|]. cbn [path_cost]. rewrite H0. reflexivity.
  - cbn [chosen_morphs]. destruct (nth e tables.2 O) as [|len] eqn:Elen.
    + assert (e = O).
      { destruct e as [|e']; [reflexivity|]. specialize (Hfull (S e')). lia. }
      subst e. exists []. split; [reflexivity|]. split.
      { cbn [glued fold_right]. symmetry. apply substring_nil. lia. }
      split; [constructor|]. cbn [path_cost]. rewrite H0. reflexivity.
    + assert (Hle : (S len <= e)%nat) by (specialize (Hj e); lia).
      replace ((0 <? e)%nat && (e <? length tables.2)%nat) with true.
      2:{ symmetry. apply andb_true_iff. split; apply Nat.ltb_lt; lia. }
      cbn [assert obind].
      destruct (IH (e - S len)%nat (substr word (e - S len) (S len) :: morphs))
        as (ms & E & Hg & Hne & Hc); try lia.
      destruct (Hdp e ltac:(lia)) as [_ Hb]. rewrite Elen in Hb.
      destruct (Hb ltac:(lia)) as (c & Hch & Hv).
      destruct (path_cost_snoc_intro _ _ _ _ Hc Hch) as (x & Hx & Hxv).
      exists (ms ++ [substr word (e - S len) (S len)])%list.
      split; [rewrite E, <- app_assoc; reflexivity|]. split; [|split].
      * rewrite glued_snoc, Hg. unfold substr.
        pose proof (substring_append word 0 (e - S len) (S len)) as Happ.
        cbn [Nat.add] in Happ. rewrite Happ by (subst n; lia). f_equal. lia.
      * apply Forall_app. split; [exact Hne|]. constructor; [|constructor].
        apply length_pos_nonempty. unfold substr.
        rewrite substring_length by (subst n; lia). lia.
      * rewrite Hx. f_equal. lra.
Qed.
End CheapestPath.

Section CheapestEntry.
Context {M : Type} `{Model M}.
Variable s : t M.
Variable ltc : R.
Hypothesis ltc_pos : (0 < ltc)%R.
Hypothesis counts_pos : forall key n, nodes_ s !! key = Some n -> 0 < count n.

Lemma segment_word_cheapest (w : Morph) :
  exists entry,
    segment_word ltc w s = Ok (entry, s)
    /\ let bad := (IZR (Z.of_nat (String.length (letters w)) + 1) * ltc)%R in
       exists morphs cost,
         entry = spaced morphs /\ glued morphs = letters w
         /\ path_cost s ltc bad morphs = Some cost
         /\ forall other cost',
              Forall (fun m => m <> "") other -> glued other = letters w ->
              path_cost s ltc bad other = Some cost' -> (cost <= cost')%R.
Proof.
  set (word := letters w). set (n := String.length word).
  destruct (viterbi_tables_dp s ltc word w eq_refl) as (tables & Et & Hok & Hdp).
  fold n in Hok, Hdp.
  pose proof (viterbi_tables_full s ltc word ltc_pos counts_pos w tables s eq_refl Et)
    as Hfull.
  fold n in Hfull.
  destruct (chosen_morphs_cost s ltc word tables Hok Hdp Hfull n n [])
    as (ms & Ec & Hg & Hne & Hc); try lia.
  rewrite app_nil_r in Ec.
  exists (spaced ms). split.
  - unfold segment_word, bind. rewrite Et. cbn [obind fst snd]. fold word n.
    change "" with (spaced []). rewrite backtrace_chosen_morphs, Ec. reflexivity.
  - cbn zeta. exists ms, (nth n tables.1 0%R).
    split; [reflexivity|]. split; [rewrite Hg; apply substring_all|].
    split; [exact Hc|].
    intros other cost' Hone Hgo Hco.
    apply (delta_is_lower_bound s ltc word tables Hdp other n cost'); try assumption.
    + lia.
    + rewrite Hgo. symmetry. apply substring_all.
Qed.
End CheapestEntry.

(** X11: When the model counts at least two tokens and every stored count is
    positive, the entry [SegmentTestCorpus] returns for a word is a
    cheapest segmentation of the whole word: its morphs spell the word,
    and no other way of cutting the word into non-empty pieces is
    charged less (a stored piece is charged its cost, an unknown
    character the penalty, an unknown longer piece is not allowed). *)
Theorem decoder_entry_is_cheapest {M : Type} `{Model M}
    (test_corpus : Corpus) (s : t M) :
  2 <= total_morph_tokens (model_ s) ->
  (forall key n, nodes_ s !! key = Some n -> 0 < count n) ->
  let ltc := std_log (IZR (total_morph_tokens (model_ s))) in
  exists segmentations,
    SegmentTestCorpus test_corpus s = Ok (segmentations, s)
    /\ Forall2 (fun (w : Morph) entry =>
                  let bad := (IZR (Z.of_nat (String.length (letters w)) + 1) * ltc)%R in
                  exists morphs cost,
                    entry = spaced morphs /\ glued morphs = letters w
                    /\ path_cost s ltc bad morphs = Some cost
                    /\ forall other cost',
                         Forall (fun m => m <> "") other -> glued other = letters w ->
                         path_cost s ltc bad other = Some cost' -> (cost <= cost')%R)
         test_corpus segmentations.
Proof.
  intros HT Hcounts ltc.
  assert (Hltc : (0 < ltc)%R).
  { unfold ltc, std_log. rewrite <- ln_1. apply ln_increasing; [lra|].
    apply IZR_lt. lia. }
  destruct (for_each_segment_words s _ ltc
              (segment_word_cheapest s ltc Hltc Hcounts) test_corpus [])
    as (segs & E & Hs).
  exists segs. split; [|exact Hs].
  unfold SegmentTestCorpus, bind at 1, token_count. cbn [obind fst snd]. exact E.
Qed.

Lemma decoder_entry_is_cheapest_witness :
  exists segmentations,
    SegmentTestCorpus [mkMorph "abc" 1] trained_ab = Ok (segmentations, trained_ab)
    /\ Forall2 (fun (w : Morph) entry =>
                  exists morphs, entry = spaced morphs /\ glued morphs = letters w)
         [mkMorph "abc" 1] segmentations.
Proof.
  destruct (decoder_entry_is_cheapest [mkMorph "abc" 1] trained_ab) as (segs & E & Hs).
  - rewrite trained_ab_tokens. lia.
  - intros key node. unfold trained_ab. rewrite create_lookup.
    cbn [corpus_ab find letters]. destruct (String.eqb "a" key).
    + intros Hn. inversion Hn. simpl. lia.
    + destruct (String.eqb "b" key); intros Hn; inversion Hn. simpl. lia.
  - exists segs. split; [exact E|].
    eapply Forall2_impl; [exact Hs|].
    intros w entry (morphs & cost & He & Hg & _). exists morphs. auto.
Defined.

End DecoderOptimum.

Section SplitInvariants.
Import SegmentationTree.

(** ** [Split] keeps the data model when the halves differ *)

Lemma leaf_sums_perm (l l' : list (string * MorphNode)) :
  l ≡ₚ l' ->
  tokens_in l = tokens_in l' /\ length (leaves_of l) = length (leaves_of l').
Proof.
  intros HP. unfold tokens_in, leaves_of.
  assert (HF : filter (fun kv : string * MorphNode => is_leaf kv.2 = true) l
               ≡ₚ filter (fun kv : string * MorphNode => is_leaf kv.2 = true) l')
    by (rewrite HP; reflexivity).
  split; [|apply Permutation_length; exact HF].
  induction HF as [|x a b _ IH|x y a|a b c _ IH1 _ IH2]; cbn [fold_right]; lia.
Qed.

Lemma tokens_in_cons (kv : string * MorphNode) (l : list (string * MorphNode)) :
  tokens_in (kv :: l) = (if is_leaf kv.2 then count kv.2 else 0) + tokens_in l.
Proof.
  unfold tokens_in. rewrite leaves_of_cons. destruct (is_leaf kv.2); reflexivity.
Qed.

Lemma leaves_length_cons (kv : string * MorphNode) (l : list (string * MorphNode)) :
  Z.of_nat (length (leaves_of (kv :: l)))
  = b2z (is_leaf kv.2) + Z.of_nat (length (leaves_of l)).
Proof.
  rewrite leaves_of_cons. destruct (is_leaf kv.2); cbn [b2z length]; lia.
Qed.

(** What replacing or adding one node does to the two sums over the
    leaves. *)
Lemma leaf_sums_insert (m : gmap string MorphNode) (key : string) (v : MorphNode) :
  let old_tokens := match m !! key with
                    | Some n => if is_leaf n then count n else 0
                    | None => 0
                    end in
  let old_leaf := match m !! key with
                  | Some n => b2z (is_leaf n)
                  | None => 0
                  end in
  tokens_in (map_to_list (<[key := v]> m))
  = tokens_in (map_to_list m) - old_tokens + (if is_leaf v then count v else 0)
  /\ Z.of_nat (length (leaves_of (map_to_list (<[key := v]> m))))
     = Z.of_nat (length (leaves_of (map_to_list m))) - old_leaf + b2z (is_leaf v).
Proof.
  cbn zeta.
  assert (Hins : map_to_list (<[key := v]> m) ≡ₚ (key, v) :: map_to_list (delete key m)).
  { rewrite <- insert_delete_eq. apply map_to_list_insert. apply lookup_delete_eq. }
  destruct (leaf_sums_perm _ _ Hins) as [Ht Hn].
  rewrite Ht, Hn, tokens_in_cons, leaves_length_cons. cbn [snd].
  destruct (m !! key) as [n|] eqn:E.
  - pose proof (map_to_list_delete m key n E) as Hdel.
    destruct (leaf_sums_perm _ _ Hdel) as [Ht' Hn'].
    rewrite <- Ht', <- Hn', tokens_in_cons, leaves_length_cons. cbn [snd]. lia.
  - rewrite delete_id by exact E. lia.
Qed.

Lemma leaf_at_most_total (m : gmap string MorphNode) (key : string) (n : MorphNode) :
  (forall k v, m !! k = Some v -> 0 < count v) ->
  m !! key = Some n -> is_leaf n = true ->
  count n <= tokens_in (map_to_list m)
  /\ 1 <= Z.of_nat (length (leaves_of (map_to_list m))).
Proof.
  intros Hpos Hn Hleaf.
  pose proof (map_to_list_delete m key n Hn) as Hdel.
  destruct (leaf_sums_perm _ _ Hdel) as [Ht Hl].
  rewrite <- Ht, <- Hl, tokens_in_cons, leaves_length_cons. cbn [snd]. rewrite Hleaf.
  cbn [b2z].
  assert (Hrest : 0 <= tokens_in (map_to_list (delete key m))).
  { apply letters_in_nonneg. apply Forall_forall. intros [k v] Hin.
    unfold leaves_of in Hin. apply list_elem_of_filter in Hin. destruct Hin as [_ Hin].
    apply elem_of_map_to_list in Hin. apply lookup_delete_Some in Hin.
    destruct Hin as [_ Hin]. exact (Hpos _ _ Hin). }
  lia.
Qed.

(** X18: Where both halves differ, [Split] keeps the invariants of the data
    model: every node stays well formed, the token total stays the sum
    of the leaf counts and the type count stays the number of leaves.
    (The halves are new or leaves; counts and totals have room within
    [size_t].) *)
Theorem Split_keeps_invariants (s : t) (morph : string) (k : nat) (node : MorphNode) :
  let l := substr morph 0 k in
  let r := substr_from morph k in
  let f := count node in
  invariants s ->
  nodes_ s !! morph = Some node -> has_children node = false ->
  (1 <= k < String.length morph)%nat -> l <> r ->
  left_child (deref l s) = "" /\ right_child (deref l s) = "" ->
  left_child (deref r s) = "" /\ right_child (deref r s) = "" ->
  count (deref l s) + f < 2 ^ 64 -> count (deref r s) + f < 2 ^ 64 ->
  total_morph_tokens_ s + f < 2 ^ 64 -> unique_morph_types_ s + 1 < 2 ^ 64 ->
  exists s', Split morph k s = Ok s' /\ invariants s'.
Proof.
  intros l r f (Hnodes & Htot & Huniq) Hnode Hleaf Hk Hlr Hl Hr Hcl Hcr HT HU.
  destruct (substr_piece_length morph k Hk) as (Hll & Hlr' & Hcat).
  fold l r in Hll, Hlr', Hcat.
  assert (Hlne : l <> "") by (apply length_pos_nonempty; lia).
  assert (Hrne : r <> "") by (apply length_pos_nonempty; lia).
  assert (Hlm : l <> morph) by (intros E; rewrite E in Hll; lia).
  assert (Hrm : r <> morph) by (intros E; rewrite E in Hlr'; lia).
  assert (Hpos : forall key v, nodes_ s !! key = Some v -> 0 < count v).
  { intros key v Hv. destruct (Hnodes _ _ Hv) as (_ & _ & Hc). exact Hc. }
  pose proof (Hpos _ _ Hnode) as Hf. fold f in Hf.
  assert (Hnode_leaf : is_leaf node = true) by (unfold is_leaf; rewrite Hleaf; reflexivity).
  destruct (leaf_at_most_total _ _ _ Hpos Hnode Hnode_leaf) as [HfT HU1].
  fold (leaf_token_sum s) in HfT. rewrite <- Htot in HfT.
  fold (leaf_entries s) in HU1. fold (number_of_leaves s) in HU1. rewrite <- Huniq in HU1.
  assert (Hhalf : forall x, left_child (deref x s) = "" ->
            0 <= count (deref x s)
            /\ is_leaf (deref x s) = true
            /\ (match nodes_ s !! x with
                | Some n => if is_leaf n then count n else 0
                | None => 0
                end = count (deref x s))
            /\ (match nodes_ s !! x with
                | Some n => b2z (is_leaf n)
                | None => 0
                end = 1 - b2z (count (deref x s) =? 0))).
  { intros x Hx. unfold deref in *. destruct (nodes_ s !! x) as [n|] eqn:E;
      cbn [default from_option Datatypes.id] in *.
    - pose proof (Hpos _ _ E) as Hc.
      assert (Hleafn : is_leaf n = true)
        by (unfold is_leaf, has_children; rewrite Hx; reflexivity).
      rewrite Hleafn. cbn [b2z].
      destruct (Z.eqb_spec (count n) 0); [lia|]. cbn [b2z]. repeat split; lia.
    - cbn [count MorphNode_default MorphNode_of b2z Z.eqb]. repeat split; lia. }
  destruct (Hhalf l (proj1 Hl)) as (Hcl0 & Hl_leaf & Hl_old & Hl_n).
  destruct (Hhalf r (proj1 Hr)) as (Hcr0 & Hr_leaf & Hr_old & Hr_n).
  eexists. split.
  { apply (Split_leaf_halves s morph k node); try assumption; fold l r f; try lia. }
  fold l r f.
  set (nm := set_children l r node).
  set (nl := set_count (count (deref l s) + f) (deref l s)).
  set (nr := set_count (count (deref r s) + f) (deref r s)).
  set (m1 := <[morph := nm]> (nodes_ s)).
  set (m2 := <[l := nl]> m1).
  assert (Hnm_leaf : is_leaf nm = false).
  { unfold is_leaf, has_children, nm. cbn [left_child right_child set_children].
    apply str_empty_false in Hlne, Hrne. rewrite Hlne, Hrne. reflexivity. }
  assert (Hnl_leaf : is_leaf nl = true).
  { unfold is_leaf, has_children, nl. cbn [left_child set_count].
    rewrite (proj1 Hl). reflexivity. }
  assert (Hnr_leaf : is_leaf nr = true).
  { unfold is_leaf, has_children, nr. cbn [left_child set_count].
    rewrite (proj1 Hr). reflexivity. }
  assert (L1 : m1 !! l = nodes_ s !! l) by (apply lookup_insert_ne; congruence).
  assert (L2 : m2 !! r = nodes_ s !! r).
  { unfold m2, m1. rewrite !lookup_insert_ne by congruence. reflexivity. }
  destruct (leaf_sums_insert (nodes_ s) morph nm) as [T1 N1]. cbn zeta in T1, N1.
  rewrite Hnode, Hnode_leaf, Hnm_leaf in T1, N1. fold m1 in T1, N1.
  destruct (leaf_sums_insert m1 l nl) as [T2 N2]. cbn zeta in T2, N2.
  rewrite L1, Hl_old, Hnl_leaf in T2. rewrite L1, Hl_n, Hnl_leaf in N2. fold m2 in T2, N2.
  destruct (leaf_sums_insert m2 r nr) as [T3 N3]. cbn zeta in T3, N3.
  rewrite L2, Hr_old, Hnr_leaf in T3. rewrite L2, Hr_n, Hnr_leaf in N3.
  split; [|split].
  - intros key v Hv. cbn [nodes_] in Hv.
    apply lookup_insert_Some in Hv. destruct Hv as [[<- <-]|[_ Hv]].
    { unfold node_ok, nr. cbn [left_child right_child count set_count].
      rewrite (proj1 Hr), (proj2 Hr). unfold has_children.
      cbn [left_child right_child set_count]. rewrite (proj1 Hr).
      split; [reflexivity|]. split; [discriminate|lia]. }
    apply lookup_insert_Some in Hv. destruct Hv as [[<- <-]|[_ Hv]].
    { unfold node_ok, nl. cbn [left_child right_child count set_count].
      rewrite (proj1 Hl), (proj2 Hl). unfold has_children.
      cbn [left_child right_child set_count]. rewrite (proj1 Hl).
      split; [reflexivity|]. split; [discriminate|lia]. }
    apply lookup_insert_Some in Hv. destruct Hv as [[<- <-]|[_ Hv]].
    { unfold node_ok, nm. cbn [left_child right_child count set_children].
      apply str_empty_false in Hlne, Hrne. rewrite Hlne, Hrne.
      split; [reflexivity|]. split; [intros _; exact Hcat|exact Hf]. }
    exact (Hnodes _ _ Hv).
  - cbn [total_morph_tokens_]. unfold leaf_token_sum. cbn [nodes_].
    fold m1 m2. rewrite T3, T2, T1. cbn [count set_count nl nr].
    unfold leaf_token_sum in Htot. unfold nl, nr. cbn [count set_count].
    fold f. lia.
  - cbn [unique_morph_types_]. unfold number_of_leaves, leaf_entries. cbn [nodes_].
    fold m1 m2. rewrite N3, N2, N1. cbn [b2z].
    unfold number_of_leaves, leaf_entries in Huniq. lia.
Qed.

Lemma Split_keeps_invariants_witness :
  exists s', Split "ab" 1 (emplace "ab" 3 empty) = Ok s' /\ invariants s'.
Proof.
  apply (Split_keeps_invariants (emplace "ab" 3 empty) "ab" 1 (MorphNode_of 3));
    try (vm_compute; reflexivity); try (split; reflexivity).
  - split; [|split; vm_compute; reflexivity].
    intros morph n Hn.
    assert (Hl : (morph, n) ∈ map_to_list (nodes_ (emplace "ab" 3 empty)))
      by (apply elem_of_map_to_list; exact Hn).
    vm_compute in Hl. apply list_elem_of_In in Hl. simpl in Hl.
    destruct Hl as [Hl|[]]. inversion Hl; subst.
    repeat split; try reflexivity. discriminate.
  - simpl. lia.
  - discriminate.
Defined.

End SplitInvariants.

Section FrequencyCost.
Import SegmentationTree.

(** ** The implicit frequency cost and the operands of [std::log2] *)

Lemma d_log2_nonneg (z : Z) :
  0 <= z ->
  (0 < z /\ d_log2 (d_of_Z z) = Num (std_log2 (IZR z)))
  \/ (z = 0 /\ d_log2 (d_of_Z z) = NInf).
Proof.
  intros Hz. destruct (Z.eq_dec z 0) as [->|Hne].
  - right. split; [reflexivity|apply d_log2_zero].
  - left. split; [lia|]. apply d_log2_positive. lia.
Qed.

(** A count times the logarithm of an operand: a number, or minus
    infinity when the operand is zero and the count is positive. *)
Lemma count_times_log2 (n z : Z) :
  0 <= n -> 0 <= z ->
  (0 < z /\ exists x, dmul (d_of_Z n) (d_log2 (d_of_Z z)) = Num x)
  \/ (z = 0 /\ 0 < n /\ dmul (d_of_Z n) (d_log2 (d_of_Z z)) = NInf)
  \/ (z = 0 /\ n = 0).
Proof.
  intros Hn Hz. destruct (d_log2_nonneg z Hz) as [[Hpos ->]|[-> ->]].
  - left. split; [exact Hpos|]. eexists. reflexivity.
  - right. destruct (Z.eq_dec n 0) as [->|Hne]; [right; split; reflexivity|].
    left. split; [reflexivity|]. split; [lia|].
    unfold d_of_Z. cbn [dmul]. unfold signed_inf.
    destruct (Rlt_dec 0 (IZR n)) as [_|Hno]; [reflexivity|].
    exfalso. apply Hno. apply IZR_lt. lia.
Qed.

(** X21: Where the approximation runs (at least 100 tokens),
    [ProbabilityFromImplicitFrequencies] returns a finite number when
    the three operands it hands to [std::log2] are positive, and plus
    infinity otherwise, that is with exactly two types or with one
    token more than types. *)
Theorem implicit_frequencies_finite_or_infinite (s : t) :
  100 <= total_morph_tokens_ s < 2 ^ 64 -> 0 <= unique_morph_types_ s < 2 ^ 64 ->
  exists r,
    Costs.ProbabilityFromImplicitFrequencies s = Ok r
    /\ ((Forall (fun z => 0 < z) (log2_operands s) /\ exists x, r = Num x)
        \/ (~ Forall (fun z => 0 < z) (log2_operands s) /\ r = PInf
            /\ (unique_morph_types_ s = 2
                \/ total_morph_tokens_ s = unique_morph_types_ s + 1))).
Proof.
  intros HT HU. unfold Costs.ProbabilityFromImplicitFrequencies, log2_operands.
  set (T := total_morph_tokens_ s) in *. set (U := unique_morph_types_ s) in *.
  destruct (Z.ltb_spec T 100) as [Hlt|_]; [lia|].
  eexists. split; [reflexivity|].
  assert (Ha : size_t_wrap (T - 2) = T - 2) by (apply size_t_wrap_small; lia).
  assert (Ha1 : size_t_wrap (T - 1) = T - 1) by (apply size_t_wrap_small; lia).
  pose proof (size_t_wrap_range (U - 1)) as Hu1.
  pose proof (size_t_wrap_range (U - 2)) as Hb.
  pose proof (size_t_wrap_range (T - U)) as Htu.
  pose proof (size_t_wrap_range (size_t_wrap (T - U) - 1)) as Hc.
  rewrite Ha, Ha1, (d_log2_positive (T - 2)) by lia.
  assert (Hb0 : size_t_wrap (U - 2) = 0 -> U = 2 /\ size_t_wrap (U - 1) = 1).
  { intros Hz. assert (HU2 : U = 2).
    { destruct (Z.lt_ge_cases U 2) as [Hs|Hs].
      - assert (HU01 : U = 0 \/ U = 1) by lia.
        destruct HU01 as [E|E]; rewrite E in Hz; vm_compute in Hz; discriminate.
      - rewrite size_t_wrap_small in Hz by lia. lia. }
    split; [exact HU2|]. rewrite HU2. reflexivity. }
  assert (Hc0 : size_t_wrap (size_t_wrap (T - U) - 1) = 0 -> size_t_wrap (T - U) = 1).
  { intros Hz. destruct (Z.eq_dec (size_t_wrap (T - U)) 0) as [E0|E0].
    - rewrite E0 in Hz. vm_compute in Hz. discriminate.
    - rewrite size_t_wrap_small in Hz by lia. lia. }
  assert (Htu1 : size_t_wrap (T - U) = 1 -> T = U + 1).
  { intros Hz. destruct (Z.le_gt_cases U T) as [Hle|Hgt].
    - rewrite size_t_wrap_small in Hz by lia. lia.
    - exfalso. unfold size_t_wrap in Hz.
      assert (Hm : (T - U) mod 2 ^ 64 = T - U + 2 ^ 64).
      { symmetry. apply (Z.mod_unique_pos _ _ (-1)); lia. }
      lia. }
  assert (Hnot : forall a b c, (b = 0 \/ c = 0) -> ~ Forall (fun z => 0 < z) [a; b; c]).
  { intros a b c Hz Hall. inversion Hall as [|? ? _ H1]; subst.
    inversion H1 as [|? ? H2 H3]; subst. inversion H3 as [|? ? H4 _]; subst. lia. }
  destruct (count_times_log2 (size_t_wrap (U - 1)) (size_t_wrap (U - 2))
              ltac:(lia) ltac:(lia))
    as [[Hbp [xb Eb]]|[[Hbz [Hn Eb]]|[Hbz Hn]]].
  - destruct (count_times_log2 (size_t_wrap (T - U))
                (size_t_wrap (size_t_wrap (T - U) - 1)) ltac:(lia) ltac:(lia))
      as [[Hcp [xc Ec]]|[[Hcz [Hm Ec]]|[Hcz Hm]]].
    + rewrite Eb, Ec. cbn [d_of_Z dmul dsub dopp dadd].
      left. split; [repeat constructor; lia|]. eexists. reflexivity.
    + rewrite Eb, Ec. cbn [d_of_Z dmul dsub dopp dadd].
      right. split; [apply Hnot; right; exact Hcz|].
      split; [reflexivity|right; apply Htu1, Hc0, Hcz].
    + exfalso. specialize (Hc0 Hcz). lia.
  - destruct (count_times_log2 (size_t_wrap (T - U))
                (size_t_wrap (size_t_wrap (T - U) - 1)) ltac:(lia) ltac:(lia))
      as [[Hcp [xc Ec]]|[[Hcz [Hm Ec]]|[Hcz Hm]]].
    + rewrite Eb, Ec. cbn [d_of_Z dmul dsub dopp dadd].
      right. split; [apply Hnot; left; exact Hbz|].
      split; [reflexivity|left; apply Hb0, Hbz].
    + rewrite Eb, Ec. cbn [d_of_Z dmul dsub dopp dadd].
      right. split; [apply Hnot; left; exact Hbz|].
      split; [reflexivity|left; apply Hb0, Hbz].
    + exfalso. specialize (Hc0 Hcz). lia.
  - exfalso. destruct (Hb0 Hbz). lia.
Qed.

Lemma implicit_frequencies_finite_or_infinite_witness :
  Costs.ProbabilityFromImplicitFrequencies tree_two_types = Ok PInf.
Proof.
  destruct (implicit_frequencies_finite_or_infinite tree_two_types)
    as (r & E & [[Hall _]|(_ & -> & _)]).
  - vm_compute. split; [discriminate|reflexivity].
  - vm_compute. split; [discriminate|reflexivity].
  - exfalso.
    replace (log2_operands tree_two_types) with [98; 0; 97] in Hall
      by (vm_compute; reflexivity).
    inversion Hall as [|? ? _ H1]; subst. inversion H1 as [|? ? H2 _]; subst. lia.
  - exact E.
Defined.

End FrequencyCost.
